(** * Chess960 rules engine (js/chess.js): shallow embedding and properties

    The engine is the class [Chess] of js/chess.js.  Its state is modelled
    by the record [Chess]; every method becomes a function on that record.

    Conventions of the embedding.
    - Numbers are [Z]: every number the engine handles is a small integer
      (square coordinates, clocks).
    - A row of the board is a JavaScript array.  The engine reads and
      writes it only through [board[r][c]], so a row is modelled as a finite
      map from the index [c] to what was stored there; an index that holds
      nothing reads [Undefined], and storing [undefined] removes the index.
      The [length] of a row is never read by the engine and is not modelled.
    - [board[r]] for [r] outside 0..7 is [undefined], and indexing it raises
      a TypeError, as does reading [.type] or [.color] of [null] or
      [undefined].  A computation that raises is [None]; the model does not
      describe the state such an aborted call leaves behind.
    - Methods that write the board and call others ([getValidMoves],
      [hasLegalMoves], [checkGameEnd], [makeMove]) pass the state explicitly
      and return the new one.
    - Piece objects are never modified once created, so they are values:
      the state is compared by its contents, not by object identity.
    - [Math.random] is not modelled: the index each call draws is an
      argument of the generator. *)

From Stdlib Require Import ZArith List String Ascii Bool Lia DecimalString.
From stdpp Require Import base option list list_numbers gmap.
Import ListNotations.
Local Open Scope Z_scope.

(** ** Pieces and colours (the constants [PIECE] and [COLOR]) *)

Inductive PieceType := KING | QUEEN | ROOK | BISHOP | KNIGHT | PAWN.
Inductive Color := WHITE | BLACK.

Record Piece := mkPiece { type : PieceType; color : Color }.

#[global] Instance PieceType_eq_dec : EqDecision PieceType.
Proof. solve_decision. Defined.
#[global] Instance Color_eq_dec : EqDecision Color.
Proof. solve_decision. Defined.
#[global] Instance Piece_eq_dec : EqDecision Piece.
Proof. solve_decision. Defined.

(** [c === COLOR.WHITE ? COLOR.BLACK : COLOR.WHITE] *)
Definition opponent (c : Color) : Color :=
  match c with WHITE => BLACK | BLACK => WHITE end.

(** ** The board *)

(** What [this.board[r][c]] can evaluate to. *)
Inductive Cell := Undefined | Null | Obj (p : Piece).

#[global] Instance Cell_eq_dec : EqDecision Cell.
Proof. solve_decision. Defined.

(** Stored cells: [None] is [null], [Some p] a piece object; a key that is
    absent reads [undefined]. *)
Abbreviation Board := (gmap (Z * Z) (option Piece)).

Definition isRow (r : Z) : bool := (0 <=? r) && (r <? 8).

(** What the index [(r, c)] holds, and the board with [v] stored there. *)
Definition cellAt (bd : Board) (r c : Z) : Cell :=
  match bd !! (r, c) with
  | None => Undefined
  | Some None => Null
  | Some (Some p) => Obj p
  end.

Definition put (bd : Board) (r c : Z) (v : Cell) : Board :=
  match v with
  | Undefined => delete (r, c) bd
  | Null => <[(r, c) := None]> bd
  | Obj p => <[(r, c) := Some p]> bd
  end.

#[global] Arguments cellAt : simpl never.
#[global] Arguments put : simpl never.

(** [this.board[r][c]] *)
Definition rd (bd : Board) (r c : Z) : option Cell :=
  if isRow r then Some (cellAt bd r c) else None.

(** [this.board[r][c] = v] *)
Definition wr (bd : Board) (r c : Z) (v : Cell) : option Board :=
  if isRow r then Some (put bd r c v) else None.

(** [x.color]: a TypeError on [null] and [undefined]. *)
Definition colorOf (x : Cell) : option Color :=
  match x with Obj p => Some (color p) | _ => None end.

(** Truthiness of a cell ([if (piece)], [piece && ...]). *)
Definition truthy (x : Cell) : bool :=
  match x with Obj _ => true | _ => false end.

(** [p && p.type === t && p.color === c] *)
Definition isPiece (x : Cell) (t : PieceType) (c : Color) : bool :=
  match x with
  | Obj p => bool_decide (type p = t) && bool_decide (color p = c)
  | _ => false
  end.

(** ** The game state *)

Record Rights := mkRights { kingSide : bool; queenSide : bool }.
Record CastlingRights := mkCastlingRights { w : Rights; b : Rights }.

(** [this.castlingRights[color === COLOR.WHITE ? 'w' : 'b']] *)
Definition rightsOf (cr : CastlingRights) (c : Color) : Rights :=
  match c with WHITE => w cr | BLACK => b cr end.
Definition setRights (cr : CastlingRights) (c : Color) (r : Rights) : CastlingRights :=
  match c with
  | WHITE => mkCastlingRights r (b cr)
  | BLACK => mkCastlingRights (w cr) r
  end.

(** The [castling] detail of a history entry: the rook's squares.  The
    column the rook came from is [undefined] ([None]) when the search in
    [makeMove] found no rook. *)
Record CastlingEntry := mkCastlingEntry {
  rookFrom : Z * option Z;
  rookTo : Z * Z
}.

Record MoveEntry := mkMoveEntry {
  piece : Piece;
  from : Z * Z;
  to : Z * Z;
  captured : Cell;
  castling : option CastlingEntry;
  enPassant : option (Z * Z);
  promotion : option PieceType
}.

Record Chess := mkChess {
  board : Board;
  currentPlayer : Color;
  moveHistory : list MoveEntry;
  gameOver : bool;
  gameResult : option string;
  startPosition : option (list (option PieceType));
  castlingRights : CastlingRights;
  enPassantTarget : option (Z * Z);
  halfMoveClock : Z;
  fullMoveNumber : Z
}.

Definition setBoard (g : Chess) (bd : Board) : Chess :=
  mkChess bd (currentPlayer g) (moveHistory g) (gameOver g) (gameResult g)
          (startPosition g) (castlingRights g) (enPassantTarget g)
          (halfMoveClock g) (fullMoveNumber g).

(** ** Loops *)

(** [for (r = 0; r < 8; r++) for (c = 0; c < 8; c++)]: the squares in the
    order the nested loops visit them. *)
Definition squares : list (Z * Z) :=
  r ← seqZ 0 8; c ← seqZ 0 8; [(r, c)].

(** A loop whose body may raise and may [return true] early. *)
Fixpoint someM {A} (f : A → option bool) (l : list A) : option bool :=
  match l with
  | [] => Some false
  | x :: l' => r ← f x; if r : bool then Some true else someM f l'
  end.

(** A loop whose body may raise and leaves the loop with [false] as soon as
    one test fails ([canCastle = false; break]). *)
Fixpoint allM {A} (f : A → option bool) (l : list A) : option bool :=
  match l with
  | [] => Some true
  | x :: l' => r ← f x; if r : bool then allM f l' else Some false
  end.

(** A loop that pushes the moves each iteration produces, in order. *)
Fixpoint concatM {A B} (f : A → option (list B)) (l : list A) : option (list B) :=
  match l with
  | [] => Some []
  | x :: l' => ms ← f x; rest ← concatM f l'; Some (ms ++ rest)
  end.

(** [moves.some(([r, c]) => r === row && c === col)] *)
Definition hasMove (moves : list (Z * Z)) (row col : Z) : bool :=
  existsb (λ m, (m.1 =? row) && (m.2 =? col)) moves.

(** ** Move generators *)

Definition isWithinBoard (row col : Z) : bool :=
  (0 <=? row) && (row <? 8) && (0 <=? col) && (col <? 8).

(** [piece.color === COLOR.WHITE ? -1 : 1] *)
Definition direction (c : Color) : Z :=
  match c with WHITE => -1 | BLACK => 1 end.

Definition getPawnMoves (g : Chess) (row col : Z) : option (list (Z * Z)) :=
  piece ← rd (board g) row col;
  pc ← colorOf piece;
  let direction := direction pc in
  forward ←
    (if isWithinBoard (row + direction) col then
       t1 ← rd (board g) (row + direction) col;
       if bool_decide (t1 = Null) then
         let startRow := match pc with WHITE => 6 | BLACK => 1 end in
         if row =? startRow then
           t2 ← rd (board g) (row + 2 * direction) col;
           if bool_decide (t2 = Null)
           then Some [(row + direction, col); (row + 2 * direction, col)]
           else Some [(row + direction, col)]
         else Some [(row + direction, col)]
       else Some []
     else Some []);
  captures ←
    concatM (λ offset,
      let newCol := col + offset in
      if isWithinBoard (row + direction) newCol then
        targetPiece ← rd (board g) (row + direction) newCol;
        match targetPiece with
        | Obj t => if bool_decide (color t ≠ pc)
                   then Some [(row + direction, newCol)] else Some []
        | _ => Some []
        end
      else Some []) [-1; 1];
  let ep :=
    match enPassantTarget g with
    | Some (epRow, epCol) =>
        if (row =? match pc with WHITE => 3 | BLACK => 4 end)
           && (Z.abs (col - epCol) =? 1) && (epRow =? row + direction)
        then [(epRow, epCol)] else []
    | None => []
    end in
  Some (forward ++ captures ++ ep).

Definition knightOffsets : list (Z * Z) :=
  [(-2, -1); (-2, 1); (-1, -2); (-1, 2); (1, -2); (1, 2); (2, -1); (2, 1)].

(** [targetPiece === null || targetPiece.color !== piece.color] *)
Definition freeOrEnemy (targetPiece piece : Cell) : option bool :=
  match targetPiece with
  | Null => Some true
  | _ => tc ← colorOf targetPiece; pc ← colorOf piece;
         Some (bool_decide (tc ≠ pc))
  end.

Definition getKnightMoves (bd : Board) (row col : Z) : option (list (Z * Z)) :=
  piece ← rd bd row col;
  concatM (λ off : Z * Z,
    let newRow := row + off.1 in
    let newCol := col + off.2 in
    if isWithinBoard newRow newCol then
      targetPiece ← rd bd newRow newCol;
      ok ← freeOrEnemy targetPiece piece;
      Some (if ok : bool then [(newRow, newCol)] else [])
    else Some []) knightOffsets.

(** The [while] loop of [getSlidingMoves] along one direction.  The loop
    leaves the board after at most eight steps; [n] bounds the number of
    iterations (see [slide_fuel]). *)
Fixpoint slide (n : nat) (bd : Board) (piece : Cell)
         (newRow newCol rowDir colDir : Z) : option (list (Z * Z)) :=
  match n with
  | O => Some []
  | S n' =>
      if isWithinBoard newRow newCol then
        targetPiece ← rd bd newRow newCol;
        match targetPiece with
        | Null =>
            rest ← slide n' bd piece (newRow + rowDir) (newCol + colDir) rowDir colDir;
            Some ((newRow, newCol) :: rest)
        | _ =>
            tc ← colorOf targetPiece; pc ← colorOf piece;
            Some (if bool_decide (tc ≠ pc) then [(newRow, newCol)] else [])
        end
      else Some []
  end.

Definition getSlidingMoves (bd : Board) (row col : Z) (directions : list (Z * Z))
  : option (list (Z * Z)) :=
  piece ← rd bd row col;
  concatM (λ d : Z * Z, slide 8 bd piece (row + d.1) (col + d.2) d.1 d.2) directions.

Definition bishopDirections : list (Z * Z) := [(-1, -1); (-1, 1); (1, -1); (1, 1)].
Definition rookDirections : list (Z * Z) := [(-1, 0); (0, -1); (0, 1); (1, 0)].
Definition queenDirections : list (Z * Z) :=
  [(-1, -1); (-1, 0); (-1, 1); (0, -1); (0, 1); (1, -1); (1, 0); (1, 1)].

Definition getBishopMoves (bd : Board) (row col : Z) := getSlidingMoves bd row col bishopDirections.
Definition getRookMoves (bd : Board) (row col : Z) := getSlidingMoves bd row col rookDirections.
Definition getQueenMoves (bd : Board) (row col : Z) := getSlidingMoves bd row col queenDirections.

(** ** The attack oracle *)

(** One iteration of the scan of [isSquareUnderAttack]: does the piece on
    [(r, c)], if it is of the attacking colour, reach [(row, col)]? *)
Definition attacksFrom (bd : Board) (row col : Z) (attackingColor : Color)
           (rc : Z * Z) : option bool :=
  let '(r, c) := rc in
  piece ← rd bd r c;
  match piece with
  | Obj p =>
      if bool_decide (color p = attackingColor) then
        match type p with
        | PAWN =>
            let attackRow := r + direction (color p) in
            Some ((attackRow =? row) && ((c - 1 =? col) || (c + 1 =? col)))
        | KNIGHT => moves ← getKnightMoves bd r c; Some (hasMove moves row col)
        | BISHOP => moves ← getBishopMoves bd r c; Some (hasMove moves row col)
        | ROOK => moves ← getRookMoves bd r c; Some (hasMove moves row col)
        | QUEEN => moves ← getQueenMoves bd r c; Some (hasMove moves row col)
        | KING =>
            let moves :=
              flat_map (λ d : Z * Z,
                if isWithinBoard (r + d.1) (c + d.2) then [(r + d.1, c + d.2)] else [])
                queenDirections in
            Some (hasMove moves row col)
        end
      else Some false
  | _ => Some false
  end.

Definition isSquareUnderAttack (bd : Board) (row col : Z) (defendingColor : Color)
  : option bool :=
  let attackingColor := opponent defendingColor in
  someM (attacksFrom bd row col attackingColor) squares.

(** The search for the king in [isInCheck]: the first king of the colour
    in scan order, [(-1, -1)] when there is none. *)
Fixpoint findKing (bd : Board) (c : Color) (l : list (Z * Z)) : option (Z * Z) :=
  match l with
  | [] => Some (-1, -1)
  | (r, k) :: l' =>
      piece ← rd bd r k;
      if isPiece piece KING c then Some (r, k) else findKing bd c l'
  end.

Definition isInCheck (bd : Board) (c : Color) : option bool :=
  k ← findKing bd c squares;
  isSquareUnderAttack bd k.1 k.2 c.
#[global] Arguments isSquareUnderAttack : simpl never.
#[global] Arguments isInCheck : simpl never.

(** ** King moves and castling *)

(** The loop of [getKingMoves] that finds the rooks on the home rank:
    the first rook to the right of the king and the last one to its left
    ([-1] when there is none). *)
Fixpoint findRooks (bd : Board) (rank kingStartCol : Z) (c : Color)
         (cols : list Z) (kingSideRookCol queenSideRookCol : Z) : option (Z * Z) :=
  match cols with
  | [] => Some (kingSideRookCol, queenSideRookCol)
  | i :: cols' =>
      p ← rd bd rank i;
      if isPiece p ROOK c then
        if (kingStartCol <? i) && (kingSideRookCol =? -1)
        then findRooks bd rank kingStartCol c cols' i queenSideRookCol
        else if i <? kingStartCol
             then findRooks bd rank kingStartCol c cols' kingSideRookCol i
             else findRooks bd rank kingStartCol c cols' kingSideRookCol queenSideRookCol
      else findRooks bd rank kingStartCol c cols' kingSideRookCol queenSideRookCol
  end.

(** The test of one square between king and rook:
    [this.board[rank][i] !== null || this.isSquareUnderAttack(rank, i, color)]
    makes [canCastle] false. *)
Definition castleSquareOk (bd : Board) (rank : Z) (c : Color) (i : Z) : option bool :=
  x ← rd bd rank i;
  if bool_decide (x ≠ Null) then Some false
  else att ← isSquareUnderAttack bd rank i c; Some (negb att).

(** [rank] of the castling code: [piece.color === COLOR.WHITE ? 7 : 0] *)
Definition homeRank (c : Color) : Z :=
  match c with WHITE => 7 | BLACK => 0 end.

(** The value of [canCastle] of the king-side block, [false] when the
    block is not entered. *)
Definition canCastleKingSide (g : Chess) (pc : Color) (kingStartCol kingSideRookCol : Z)
  : option bool :=
  if kingSide (rightsOf (castlingRights g) pc) && negb (kingSideRookCol =? -1) then
    allM (castleSquareOk (board g) (homeRank pc) pc)
         (seqZ (kingStartCol + 1) (kingSideRookCol - (kingStartCol + 1)))
  else Some false.

Definition canCastleQueenSide (g : Chess) (pc : Color) (kingStartCol queenSideRookCol : Z)
  : option bool :=
  if queenSide (rightsOf (castlingRights g) pc) && negb (queenSideRookCol =? -1) then
    allM (castleSquareOk (board g) (homeRank pc) pc)
         (seqZ (queenSideRookCol + 1) (kingStartCol - (queenSideRookCol + 1)))
  else Some false.

(** The castling part of [getKingMoves] (the block under [// Castling]). *)
Definition castlingMoves (g : Chess) (pc : Color) (col : Z) : option (list (Z * Z)) :=
  chk ← isInCheck (board g) pc;
  if chk : bool then Some []
  else
    let rank := homeRank pc in
    let kingStartCol := col in
    rooks ← findRooks (board g) rank kingStartCol pc (seqZ 0 8) (-1) (-1);
    ks ← canCastleKingSide g pc kingStartCol rooks.1;
    qs ← canCastleQueenSide g pc kingStartCol rooks.2;
    Some ((if ks : bool then [(rank, kingStartCol + 2)] else [])
          ++ (if qs : bool then [(rank, kingStartCol - 2)] else [])).

Definition getKingMoves (g : Chess) (row col : Z) : option (list (Z * Z)) :=
  piece ← rd (board g) row col;
  steps ←
    concatM (λ d : Z * Z,
      let newRow := row + d.1 in
      let newCol := col + d.2 in
      if isWithinBoard newRow newCol then
        targetPiece ← rd (board g) newRow newCol;
        ok ← freeOrEnemy targetPiece piece;
        if ok : bool then
          pc ← colorOf piece;
          att ← isSquareUnderAttack (board g) newRow newCol pc;
          Some (if att : bool then [] else [(newRow, newCol)])
        else Some []
      else Some []) queenDirections;
  pc ← colorOf piece;
  castles ← castlingMoves g pc col;
  Some (steps ++ castles).

(** ** Legal moves *)

(** The moves pushed by the [switch] of [getValidMoves]. *)
Definition candidateMoves (g : Chess) (p : Piece) (row col : Z) : option (list (Z * Z)) :=
  match type p with
  | PAWN => getPawnMoves g row col
  | KNIGHT => getKnightMoves (board g) row col
  | BISHOP => getBishopMoves (board g) row col
  | ROOK => getRookMoves (board g) row col
  | QUEEN => getQueenMoves (board g) row col
  | KING => getKingMoves g row col
  end.

(** The square of the pawn an en passant capture removes, as the filter
    of [getValidMoves] and [makeMove] compute it. *)
Definition capturedPawnPos (ep : option (Z * Z)) (movingPiece : Piece)
           (row toRow toCol : Z) : option (Z * Z) :=
  match ep with
  | Some (epRow, epCol) =>
      if bool_decide (type movingPiece = PAWN) && (toRow =? epRow) && (toCol =? epCol)
      then Some (row, toCol) else None
  | None => None
  end.

(** The callback of [moves.filter]: plays the move on the live board,
    asks whether the king is safe, and undoes the move.  Returns the board
    it leaves and the verdict. *)
Definition tryMove (ep : option (Z * Z)) (p : Piece) (row col : Z)
           (bd : Board) (mv : Z * Z) : option (Board * bool) :=
  let '(toRow, toCol) := mv in
  originalPiece ← rd bd toRow toCol;
  movingPiece ← rd bd row col;
  mp ← match movingPiece with Obj m => Some m | _ => None end;
  let cap := capturedPawnPos ep mp row toRow toCol in
  bd1 ← wr bd toRow toCol movingPiece;
  bd2 ← wr bd1 row col Null;
  bd3 ← match cap with Some (cr, cc) => wr bd2 cr cc Null | None => Some bd2 end;
  chk ← isInCheck bd3 (color p);
  let isKingSafe := negb chk in
  bd4 ← wr bd3 row col movingPiece;
  bd5 ← wr bd4 toRow toCol originalPiece;
  bd6 ← match cap with
        | Some (cr, cc) => wr bd5 cr cc (Obj (mkPiece PAWN (opponent (color p))))
        | None => Some bd5
        end;
  Some (bd6, isKingSafe).

(** [moves.filter(...)], threading the board through the callbacks. *)
Fixpoint filterMoves (ep : option (Z * Z)) (p : Piece) (row col : Z)
         (bd : Board) (moves : list (Z * Z)) : option (Board * list (Z * Z)) :=
  match moves with
  | [] => Some (bd, [])
  | mv :: moves' =>
      r ← tryMove ep p row col bd mv;
      r' ← filterMoves ep p row col r.1 moves';
      Some (r'.1, if r.2 : bool then mv :: r'.2 else r'.2)
  end.

Definition getValidMoves (g : Chess) (row col : Z) : option (Chess * list (Z * Z)) :=
  piece ← rd (board g) row col;
  match piece with
  | Obj p =>
      if bool_decide (color p ≠ currentPlayer g) then Some (g, [])
      else
        moves ← candidateMoves g p row col;
        r ← filterMoves (enPassantTarget g) p row col (board g) moves;
        Some (setBoard g r.1, r.2)
  | _ => Some (g, [])
  end.

(** ** Terminal states *)

Fixpoint hasLegalMovesFrom (g : Chess) (c : Color) (l : list (Z * Z)) : option (Chess * bool) :=
  match l with
  | [] => Some (g, false)
  | (r, k) :: l' =>
      piece ← rd (board g) r k;
      match piece with
      | Obj p =>
          if bool_decide (color p = c) then
            res ← getValidMoves g r k;
            match res.2 with
            | [] => hasLegalMovesFrom res.1 c l'
            | _ :: _ => Some (res.1, true)
            end
          else hasLegalMovesFrom g c l'
      | _ => hasLegalMovesFrom g c l'
      end
  end.

Definition hasLegalMoves (g : Chess) (c : Color) : option (Chess * bool) :=
  hasLegalMovesFrom g c squares.
#[global] Arguments hasLegalMoves : simpl never.

Definition isInCheckmate (g : Chess) (c : Color) : option (Chess * bool) :=
  chk ← isInCheck (board g) c;
  if chk : bool then r ← hasLegalMoves g c; Some (r.1, negb r.2)
  else Some (g, false).

Definition isInStalemate (g : Chess) (c : Color) : option (Chess * bool) :=
  chk ← isInCheck (board g) c;
  if chk : bool then Some (g, false)
  else r ← hasLegalMoves g c; Some (r.1, negb r.2).

(** The state with the game-over flag and the result replaced. *)
Definition withOutcome (g : Chess) (over : bool) (res : option string) : Chess :=
  mkChess (board g) (currentPlayer g) (moveHistory g) over res
          (startPosition g) (castlingRights g) (enPassantTarget g)
          (halfMoveClock g) (fullMoveNumber g).

(** [this.gameOver = true; this.gameResult = res] *)
Definition setResult (g : Chess) (res : string) : Chess :=
  withOutcome g true (Some res).

Definition checkGameEnd (g : Chess) : option Chess :=
  let currentColor := currentPlayer g in
  cm ← isInCheckmate g currentColor;
  if cm.2 : bool then
    Some (setResult cm.1 (match currentColor with
                          | WHITE => "Black wins" | BLACK => "White wins" end))
  else
    sm ← isInStalemate cm.1 currentColor;
    if sm.2 : bool then Some (setResult sm.1 "Stalemate")
    else if 100 <=? halfMoveClock sm.1
         then Some (setResult sm.1 "Draw by fifty-move rule")
         else Some sm.1.

(** ** Applying a move *)

(** The search of [makeMove] for the castling rook along [cols]: the first
    column holding a rook of the colour; [None] is the [undefined] that
    [rookFromCol] keeps when there is none. *)
Fixpoint findRookFrom (bd : Board) (rank : Z) (c : Color) (cols : list Z)
  : option (option Z) :=
  match cols with
  | [] => Some None
  | i :: cols' =>
      p ← rd bd rank i;
      if isPiece p ROOK c then Some (Some i) else findRookFrom bd rank c cols'
  end.

(** The search for the king on [rank] in the castling-rights update:
    [-1] when there is none. *)
Fixpoint findKingCol (bd : Board) (rank : Z) (c : Color) (cols : list Z) : option Z :=
  match cols with
  | [] => Some (-1)
  | i :: cols' =>
      p ← rd bd rank i;
      if isPiece p KING c then Some i else findKingCol bd rank c cols'
  end.

(** The block [// Handle castling] of [makeMove], for a king of colour
    [pc]: moves the rook when the king moved two files.  The row's
    property named [undefined], written when no rook was found, is not an
    index of the board and is left out: it reads [undefined] here. *)
Definition castleRook (bd : Board) (pc : Color) (fromCol toCol : Z)
  : option (Board * option CastlingEntry) :=
  let rank := homeRank pc in
  if Z.abs (toCol - fromCol) =? 2 then
    let isKingSide := fromCol <? toCol in
    rookFromCol ←
      (if isKingSide
       then findRookFrom bd rank pc (seqZ (fromCol + 1) (8 - (fromCol + 1)))
       else findRookFrom bd rank pc (reverse (seqZ 0 fromCol)));
    let rookToCol := if isKingSide then fromCol + 1 else fromCol - 1 in
    rook ← match rookFromCol with
           | Some i => rd bd rank i
           | None => Some Undefined
           end;
    bd1 ← wr bd rank rookToCol rook;
    bd2 ← match rookFromCol with
          | Some i => wr bd1 rank i Null
          | None => Some bd1
          end;
    Some (bd2, Some (mkCastlingEntry (rank, rookFromCol) (rank, rookToCol)))
  else Some (bd, None).

(** The block [// Update castling rights if rook moves or is captured]. *)
Definition rookRights (bd : Board) (cr : CastlingRights) (p : Piece)
           (capturedPiece : Cell) (fromRow fromCol toCol : Z) : option CastlingRights :=
  if bool_decide (type p = ROOK)
     || match capturedPiece with Obj q => bool_decide (type q = ROOK) | _ => false end
  then
    let rank := fromRow in
    let col := if truthy capturedPiece then toCol else fromCol in
    let color := match capturedPiece with Obj q => color q | _ => color p end in
    let rights := rightsOf cr color in
    if rank =? homeRank color then
      kingCol ← findKingCol bd rank color (seqZ 0 8);
      if kingCol =? -1 then Some cr
      else if kingCol <? col
           then Some (setRights cr color (mkRights false (queenSide rights)))
           else Some (setRights cr color (mkRights (kingSide rights) false))
    else Some cr
  else Some cr.

(** The body of [makeMove] from [// Store move in history] down to the
    switch of the player, before [checkGameEnd] runs. *)
Definition applyMove (g : Chess) (p : Piece) (fromRow fromCol toRow toCol : Z)
  : option Chess :=
  capturedPiece ← rd (board g) toRow toCol;
  bd1 ← wr (board g) toRow toCol (Obj p);
  bd2 ← wr bd1 fromRow fromCol Null;
  (* special moves: board, en passant target, clock, entry details *)
  sp ←
    (if bool_decide (type p = PAWN) then
       let cap := capturedPawnPos (enPassantTarget g) p fromRow toRow toCol in
       bd3 ← match cap with Some (cr, cc) => wr bd2 cr cc Null | None => Some bd2 end;
       let ep := if Z.abs (toRow - fromRow) =? 2
                 then Some ((fromRow + toRow) / 2, fromCol) else None in
       if (toRow =? 0) || (toRow =? 7) then
         bd4 ← wr bd3 toRow toCol (Obj (mkPiece QUEEN (color p)));
         Some (bd4, ep, 0, cap, Some QUEEN)
       else Some (bd3, ep, 0, cap, None)
     else
       Some (bd2, None,
             if truthy capturedPiece then 0 else halfMoveClock g + 1,
             None, None));
  let '(bd4, ep, clock, enPassant, promotion) := sp in
  (* castling *)
  ca ←
    (if bool_decide (type p = KING) then
       r ← castleRook bd4 (color p) fromCol toCol;
       Some (r.1, r.2, setRights (castlingRights g) (color p) (mkRights false false))
     else Some (bd4, None, castlingRights g));
  let '(bd5, castling, cr1) := ca in
  cr2 ← rookRights bd5 cr1 p capturedPiece fromRow fromCol toCol;
  let moveEntry :=
    mkMoveEntry p (fromRow, fromCol) (toRow, toCol) capturedPiece
                castling enPassant promotion in
  Some (mkChess bd5 (opponent (currentPlayer g)) (moveHistory g ++ [moveEntry])
                (gameOver g) (gameResult g) (startPosition g) cr2 ep clock
                (match currentPlayer g with
                 | BLACK => fullMoveNumber g + 1
                 | WHITE => fullMoveNumber g
                 end)).

Definition makeMove (g : Chess) (fromRow fromCol toRow toCol : Z) : option (Chess * bool) :=
  piece ← rd (board g) fromRow fromCol;
  match piece with
  | Obj p =>
      if bool_decide (color p ≠ currentPlayer g) then Some (g, false)
      else
        vm ← getValidMoves g fromRow fromCol;
        let isValidMove := hasMove vm.2 toRow toCol in
        if isValidMove then
          g1 ← applyMove vm.1 p fromRow fromCol toRow toCol;
          g2 ← checkGameEnd g1;
          Some (g2, true)
        else Some (vm.1, false)
  | _ => Some (g, false)
  end.

(** ** The start position *)

(** [getRandomPosition(positions)].  [randomIndex] stands for
    [Math.floor(Math.random() * positions.length)], which is some index
    below the length; the caller supplies it.  [None] when the index is not
    one [Math.random] can produce. *)
Definition getRandomPosition (positions : list nat) (randomIndex : nat) : option nat :=
  positions !! randomIndex.

(** The indices [i] in 0..7 with [backrank[i] === null], in increasing
    order (the loop that fills [emptyPositions]). *)
Definition emptyPositions (backrank : list (option PieceType)) : list nat :=
  filter (λ i, bool_decide (backrank !! i = Some None)) (seq 0 8).

Definition getRandomEmptyPosition (backrank : list (option PieceType))
           (randomIndex : nat) : option nat :=
  getRandomPosition (emptyPositions backrank) randomIndex.

(** [generateChess960Position], given the five indices drawn by its five
    calls of [Math.random], in the order of the calls. *)
Definition generateChess960Position (i1 i2 i3 i4 i5 : nat)
  : option (list (option PieceType)) :=
  let backrank := replicate 8 None in
  bishopDarkPos ← getRandomPosition [0; 2; 4; 6]%nat i1;
  bishopLightPos ← getRandomPosition [1; 3; 5; 7]%nat i2;
  let backrank := <[bishopDarkPos := Some BISHOP]> backrank in
  let backrank := <[bishopLightPos := Some BISHOP]> backrank in
  queenPos ← getRandomEmptyPosition backrank i3;
  let backrank := <[queenPos := Some QUEEN]> backrank in
  knight1Pos ← getRandomEmptyPosition backrank i4;
  let backrank := <[knight1Pos := Some KNIGHT]> backrank in
  knight2Pos ← getRandomEmptyPosition backrank i5;
  let backrank := <[knight2Pos := Some KNIGHT]> backrank in
  let emptyPositions := emptyPositions backrank in
  e0 ← emptyPositions !! 0%nat;
  e1 ← emptyPositions !! 1%nat;
  e2 ← emptyPositions !! 2%nat;
  let backrank := <[e0 := Some ROOK]> backrank in
  let backrank := <[e2 := Some ROOK]> backrank in
  let backrank := <[e1 := Some KING]> backrank in
  Some backrank.

(** The board [Array(8).fill().map(() => Array(8).fill(null))]. *)
Definition emptyBoard : Board :=
  foldr (λ rc bd, <[rc := None]> bd) ∅ squares.

(** The two set-up loops of [initializeChess960].  [None] when a file of
    the back rank holds no piece type: the piece object would have no type,
    which [Piece] does not represent. *)
Fixpoint setUp (bd : Board) (backrank : list (option PieceType))
         (c : Color) (backRow pawnRow : Z) (files : list nat) : option Board :=
  match files with
  | [] => Some bd
  | i :: files' =>
      t ← mjoin (backrank !! i);
      bd1 ← wr bd backRow (Z.of_nat i) (Obj (mkPiece t c));
      bd2 ← wr bd1 pawnRow (Z.of_nat i) (Obj (mkPiece PAWN c));
      setUp bd2 backrank c backRow pawnRow files'
  end.

(** ** FEN *)

(** How JavaScript prints an integer when it is appended to a string. *)
Definition showZ (z : Z) : string := NilZero.string_of_int (Z.to_int z).

Definition typeChar (t : PieceType) : string :=
  match t with
  | KING => "k" | QUEEN => "q" | ROOK => "r"
  | BISHOP => "b" | KNIGHT => "n" | PAWN => "p"
  end.

(** [pieceChar]: the type's letter, upper case for a white piece. *)
Definition pieceChar (p : Piece) : string :=
  match color p with
  | WHITE => match type p with
             | KING => "K" | QUEEN => "Q" | ROOK => "R"
             | BISHOP => "B" | KNIGHT => "N" | PAWN => "P"
             end
  | BLACK => typeChar (type p)
  end.

Definition showCount (emptyCount : Z) : string :=
  if 0 <? emptyCount then showZ emptyCount else "".

(** The inner loop of [generateFEN] over the files of one rank, with the
    text appended after the loop when squares were left empty. *)
Fixpoint fenRank (bd : Board) (rank : Z) (files : list Z) (emptyCount : Z) : option string :=
  match files with
  | [] => Some (showCount emptyCount)
  | file :: files' =>
      piece ← rd bd rank file;
      match piece with
      | Null => fenRank bd rank files' (emptyCount + 1)
      | Obj p =>
          rest ← fenRank bd rank files' 0;
          Some (showCount emptyCount ++ pieceChar p ++ rest)%string
      | Undefined => None
      end
  end.

(** The outer loop: the ranks, with ['/'] after each but the last. *)
Fixpoint fenBoard (bd : Board) (ranks : list Z) : option string :=
  match ranks with
  | [] => Some ""%string
  | rank :: ranks' =>
      r ← fenRank bd rank (seqZ 0 8) 0;
      rest ← fenBoard bd ranks';
      Some (r ++ (if (rank <? 7)%Z then "/" else "") ++ rest)%string
  end.

Definition colorChar (c : Color) : string :=
  match c with WHITE => "w" | BLACK => "b" end.

Definition castlingField (cr : CastlingRights) : string :=
  let castling :=
    ((if kingSide (w cr) then "K" else "") ++ (if queenSide (w cr) then "Q" else "")
     ++ (if kingSide (b cr) then "k" else "") ++ (if queenSide (b cr) then "q" else ""))%string in
  if bool_decide (castling = ""%string) then "-"%string else castling.

(** [this.enPassantTarget || '-'] appended to a string: an array prints
    as its elements joined by a comma. *)
Definition enPassantField (ep : option (Z * Z)) : string :=
  match ep with
  | Some (r, c) => (showZ r ++ "," ++ showZ c)%string
  | None => "-"%string
  end.

Definition generateFEN (g : Chess) : option string :=
  placement ← fenBoard (board g) (seqZ 0 8);
  Some (placement ++ " " ++ colorChar (currentPlayer g)
        ++ " " ++ castlingField (castlingRights g)
        ++ " " ++ enPassantField (enPassantTarget g)
        ++ " " ++ showZ (halfMoveClock g) ++ " " ++ showZ (fullMoveNumber g))%string.

(** [initializeChess960], given the indices drawn by the generator: the
    new state and the FEN it returns. *)
Definition initializeChess960 (i1 i2 i3 i4 i5 : nat) : option (Chess * string) :=
  backrank ← generateChess960Position i1 i2 i3 i4 i5;
  bd1 ← setUp emptyBoard backrank WHITE 7 6 (seq 0 8);
  bd2 ← setUp bd1 backrank BLACK 0 1 (seq 0 8);
  let g := mkChess bd2 WHITE [] false None (Some backrank)
                   (mkCastlingRights (mkRights true true) (mkRights true true))
                   None 0 1 in
  fen ← generateFEN g;
  Some (g, fen).

(** ** Playing a sequence of moves *)

(** Successive [makeMove] calls that all return [true]. *)
Fixpoint play (g : Chess) (moves : list (Z * Z * Z * Z)) : option Chess :=
  match moves with
  | [] => Some g
  | (fr, fc, tr, tc) :: moves' =>
      r ← makeMove g fr fc tr tc;
      if r.2 : bool then play r.1 moves' else None
  end.


(** A new game with the given draws, without the FEN that
    [initializeChess960] returns. *)
Definition newGame (i1 i2 i3 i4 i5 : nat) : option Chess :=
  fst <$> initializeChess960 i1 i2 i3 i4 i5.

(** The positions of a game: a start position, then successful moves.
    The game manager (class [Game]) also writes the game-over flag and the
    result into the engine's state, on resignation and on an agreed draw;
    [reach_outcome] covers those writes. *)
Inductive reachable : Chess → Prop :=
  | reach_init i1 i2 i3 i4 i5 g fen :
      initializeChess960 i1 i2 i3 i4 i5 = Some (g, fen) → reachable g
  | reach_move g fromRow fromCol toRow toCol g' :
      reachable g →
      makeMove g fromRow fromCol toRow toCol = Some (g', true) →
      reachable g'
  | reach_outcome g over res :
      reachable g → reachable (withOutcome g over res).

(** Forgetting the game-over flag and the result. *)
Abbreviation forget := (λ g, withOutcome g false None).

(** ** Games used in the properties

    Each is a start position, given by the draws of the generator, and
    the moves played from it as [(fromRow, fromCol, toRow, toCol)]. *)

(** Start [RNBKNBRQ]; 1.h4 g5 2.hxg5 h5 3.gxh6 (en passant) Qxh6 4.Nf3 a6
    5.e3 a5 6.Be2 Qxh1.  White: king d1, rook g1; Black: queen h1. *)
Definition gameQueenBehindRook : option Chess :=
  g ← newGame 1 2 5 1 2;
  play g [(6,7,4,7); (1,6,3,6); (4,7,3,6); (1,7,3,7); (3,6,2,7); (0,7,2,7);
          (7,4,5,5); (1,0,2,0); (6,4,5,4); (2,0,3,0); (7,5,6,4); (2,7,7,7)].

(** Start [RBBQKRNN]; 1.e4 b6 2.a3 Ba6.  White: king e1, rook f1; the
    black bishop on a6 bears on f1. *)
Definition gameBishopOnF1 : option Chess :=
  g ← newGame 1 0 1 3 3;
  play g [(6,4,4,4); (1,1,2,1); (6,0,5,0); (0,2,2,0)].

(** Start [RBBQNNKR] with no move played: king g1, rook h1. *)
Definition gameKingOnG : option Chess := newGame 1 0 1 1 1.

(** Start [RNBQKBNR]; 1.g3 b6 2.a3 Bb7 3.a4, Black to play Bxh1. *)
Definition gameBishopTakesRook : option Chess :=
  g ← newGame 1 2 2 1 2;
  play g [(6,6,5,6); (1,1,2,1); (6,0,5,0); (0,2,1,1); (5,0,4,0)].

(** Start [RNBQKBNR]; 1.e4. *)
Definition gameKingsPawn : option Chess :=
  g ← newGame 1 2 2 1 2; play g [(6,4,4,4)].

(** Start [RNBQKBNR]; 1.f3 e5 2.g4, then the knights b8 and b1 go out and
    back 25 times (100 plies without pawn move or capture). *)
Definition knightsOutAndBack : list (Z * Z * Z * Z) :=
  [(0,1,2,2); (7,1,5,2); (2,2,0,1); (5,2,7,1)].
Definition gameHundredPlies : option Chess :=
  g ← newGame 1 2 2 1 2;
  play g ([(6,5,5,5); (1,4,3,4); (6,6,4,6)] ++ mjoin (replicate 25 knightsOutAndBack)).

(** ** What a start position has to satisfy *)

(** How many files of the back rank hold a piece of type [t]. *)
Definition countType (t : PieceType) (backrank : list (option PieceType)) : nat :=
  length (filter (λ x, x = Some t) backrank).

Definition backrankPieces (backrank : list (option PieceType)) : Prop :=
  length backrank = 8%nat ∧
  countType ROOK backrank = 2%nat ∧ countType KNIGHT backrank = 2%nat ∧
  countType BISHOP backrank = 2%nat ∧ countType QUEEN backrank = 1%nat ∧
  countType KING backrank = 1%nat ∧ countType PAWN backrank = 0%nat.

Definition bishopsOnOppositeParity (backrank : list (option PieceType)) : Prop :=
  ∀ i j : nat, i ≠ j →
    backrank !! i = Some (Some BISHOP) → backrank !! j = Some (Some BISHOP) →
    Nat.even i ≠ Nat.even j.

Definition kingBetweenRooks (backrank : list (option PieceType)) : Prop :=
  ∀ k : nat, backrank !! k = Some (Some KING) →
    ∃ i j : nat, (i < k)%nat ∧ (k < j)%nat ∧
      backrank !! i = Some (Some ROOK) ∧ backrank !! j = Some (Some ROOK).

(** The board of a new game: the back rank on rows 7 (White) and 0
    (Black), pawns on rows 6 and 1, nothing in between. *)
Definition boardSetUp (backrank : list (option PieceType)) (bd : Board) : Prop :=
  ∀ i : nat, (i < 8)%nat →
    ∃ t, backrank !! i = Some (Some t) ∧
      rd bd 7 (Z.of_nat i) = Some (Obj (mkPiece t WHITE)) ∧
      rd bd 0 (Z.of_nat i) = Some (Obj (mkPiece t BLACK)) ∧
      rd bd 6 (Z.of_nat i) = Some (Obj (mkPiece PAWN WHITE)) ∧
      rd bd 1 (Z.of_nat i) = Some (Obj (mkPiece PAWN BLACK)) ∧
      ∀ r, 2 ≤ r ≤ 5 → rd bd r (Z.of_nat i) = Some Null.

(** The same conditions with the quantifiers bounded by the eight files,
    so that they can be decided by evaluation. *)
Definition bishopsBounded (backrank : list (option PieceType)) : Prop :=
  Forall (λ i : nat, Forall (λ j : nat, i ≠ j →
    backrank !! i = Some (Some BISHOP) → backrank !! j = Some (Some BISHOP) →
    Nat.even i ≠ Nat.even j) (seq 0 8)) (seq 0 8).

Definition kingBounded (backrank : list (option PieceType)) : Prop :=
  Forall (λ k : nat, backrank !! k = Some (Some KING) →
    Exists (λ i : nat, Exists (λ j : nat, (i < k)%nat ∧ (k < j)%nat ∧
      backrank !! i = Some (Some ROOK) ∧ backrank !! j = Some (Some ROOK))
      (seq 0 8)) (seq 0 8)) (seq 0 8).

Definition boardBounded (backrank : list (option PieceType)) (bd : Board) : Prop :=
  Forall (λ i : nat,
    rd bd 7 (Z.of_nat i) = (t ← mjoin (backrank !! i); Some (Obj (mkPiece t WHITE))) ∧
    rd bd 0 (Z.of_nat i) = (t ← mjoin (backrank !! i); Some (Obj (mkPiece t BLACK))) ∧
    rd bd 6 (Z.of_nat i) = Some (Obj (mkPiece PAWN WHITE)) ∧
    rd bd 1 (Z.of_nat i) = Some (Obj (mkPiece PAWN BLACK)) ∧
    Forall (λ r, rd bd r (Z.of_nat i) = Some Null) (seqZ 2 4)) (seq 0 8).

(** Every combination of draws [Math.random] can produce. *)
Definition allDraws : list (nat * nat * nat * nat * nat) :=
  i1 ← seq 0 4; i2 ← seq 0 4; i3 ← seq 0 6; i4 ← seq 0 5; i5 ← seq 0 4;
  [(i1, i2, i3, i4, i5)].

Definition checkStart (d : nat * nat * nat * nat * nat) : option bool :=
  let '(i1, i2, i3, i4, i5) := d in
  backrank ← generateChess960Position i1 i2 i3 i4 i5;
  r ← initializeChess960 i1 i2 i3 i4 i5;
  Some (bool_decide (backrankPieces backrank ∧ bishopsBounded backrank ∧
                     kingBounded backrank ∧ boardBounded backrank (board r.1) ∧
                     startPosition r.1 = Some backrank ∧
                     currentPlayer r.1 = WHITE)).

(** ** The en passant target and the pawn it belongs to *)

(** The row of the target square when [c] is to move: the square behind a
    pawn of the other side that has just advanced two squares. *)
Definition targetRow (c : Color) : Z :=
  match c with WHITE => 2 | BLACK => 5 end.

(** If a target is set, it lies on the target row of the side to move and
    the pawn of the other side stands right in front of it. *)
Definition targetBehindPawn (g : Chess) : Prop :=
  ∀ er ec, enPassantTarget g = Some (er, ec) →
    er = targetRow (currentPlayer g) ∧
    cellAt (board g) (er - direction (currentPlayer g)) ec
      = Obj (mkPiece PAWN (opponent (currentPlayer g))).

(** ** The verdict of the terminal evaluation *)

(** What the evaluation decides for the side to move, from whether that
    side is in check, whether it has a legal move, and the half-move clock:
    checkmate first, then stalemate, then the fifty-move draw. *)
Definition verdict (side : Color) (inCheck hasMoves : bool) (clock : Z) : option string :=
  if inCheck && negb hasMoves then
    Some (match side with WHITE => "Black wins" | BLACK => "White wins" end)%string
  else if negb inCheck && negb hasMoves then Some "Stalemate"%string
  else if 100 <=? clock then Some "Draw by fifty-move rule"%string
  else None.

(** ** Order on castling rights *)

(** [cr'] has no flag set that [cr] has not. *)
Definition rightsLe (cr' cr : CastlingRights) : Prop :=
  ∀ c, (kingSide (rightsOf cr' c) = true → kingSide (rightsOf cr c) = true) ∧
       (queenSide (rightsOf cr' c) = true → queenSide (rightsOf cr c) = true).

(** ** What the attack oracle sees of a piece of the defending side *)

(** Emptiness and colour of a cell. *)
Definition shade (x : Cell) : option (option Color) :=
  match x with
  | Undefined => None
  | Null => Some None
  | Obj p => Some (Some (color p))
  end.

(** Two boards that differ at most in the type of pieces of colour [c]
    that are not kings. *)
Definition alikeFor (c : Color) (bd bd' : Board) : Prop :=
  ∀ r k, cellAt bd r k = cellAt bd' r k ∨
         ∃ t t', t ≠ KING ∧ t' ≠ KING ∧
                 cellAt bd r k = Obj (mkPiece t c) ∧ cellAt bd' r k = Obj (mkPiece t' c).

(** ** The board a trial of the filter looks at *)

(** The board on which the filter of [getValidMoves] asks whether the
    king is safe: the piece moved, and the pawn taken en passant removed. *)
Definition trialBoard (ep : option (Z * Z)) (p : Piece) (bd : Board)
           (fromRow fromCol toRow toCol : Z) : Board :=
  let bd2 := put (put bd toRow toCol (Obj p)) fromRow fromCol Null in
  match capturedPawnPos ep p fromRow toRow toCol with
  | Some (cr, cc) => put bd2 cr cc Null
  | None => bd2
  end.

(** ** Later positions of a game *)

(** [later g g']: [g'] is reached from [g] by successful moves and by the
    game manager's writes of the game-over flag and the result. *)
Inductive later (g : Chess) : Chess → Prop :=
  | later_now : later g g
  | later_move g1 fromRow fromCol toRow toCol g2 :
      later g g1 →
      makeMove g1 fromRow fromCol toRow toCol = Some (g2, true) →
      later g g2
  | later_outcome g1 over res :
      later g g1 → later g (withOutcome g1 over res).

(** ** The board after a move that is not castling *)

(** Whether the move of [p] to [toRow] is a promotion. *)
Definition promotes (p : Piece) (toRow : Z) : bool :=
  bool_decide (type p = PAWN) && ((toRow =? 0) || (toRow =? 7)).

(** The trial board, with the pawn that reached the last row replaced by
    a queen. *)
Definition movedBoard (ep : option (Z * Z)) (p : Piece) (bd : Board)
           (fromRow fromCol toRow toCol : Z) : Board :=
  let bd3 := trialBoard ep p bd fromRow fromCol toRow toCol in
  if promotes p toRow then put bd3 toRow toCol (Obj (mkPiece QUEEN (color p))) else bd3.

(** ** The square behind the pawn *)

(** If a target is set, it is an empty square of the board. *)
Definition targetEmpty (g : Chess) : Prop :=
  ∀ er ec, enPassantTarget g = Some (er, ec) →
    isWithinBoard er ec = true ∧ cellAt (board g) er ec = Null.

(** ** Squares a piece may land on *)

(** A square of the board that is empty or holds a piece of the colour
    other than that of [piece]. *)
Definition landable (bd : Board) (piece : Cell) (r k : Z) : Prop :=
  isWithinBoard r k = true ∧
  (cellAt bd r k = Null ∨
   ∃ q pc, cellAt bd r k = Obj q ∧ colorOf piece = Some pc ∧ color q ≠ pc).

(** The squares strictly between [(row, col)] and its [n]-th square in
    direction [d] are empty squares of the board. *)
Definition clearPath (bd : Board) (row col : Z) (d : Z * Z) (n : Z) : Prop :=
  ∀ j, 1 ≤ j < n →
    isWithinBoard (row + j * d.1) (col + j * d.2) = true ∧
    cellAt bd (row + j * d.1) (col + j * d.2) = Null.

(** Start [RNBQKBNR]; 1.e4 a6 2.e5 d5, White to play exd6 en passant. *)
Definition gameEnPassant : option Chess :=
  g ← newGame 1 2 2 1 2;
  play g [(6,4,4,4); (1,0,2,0); (4,4,3,4); (1,3,3,3)].

(** ** Which start positions the generator reaches *)

(** [generateChess960Position] on a tuple of draws. *)
Definition generate5 (d : nat * nat * nat * nat * nat) : option (list (option PieceType)) :=
  let '(i1, i2, i3, i4, i5) := d in generateChess960Position i1 i2 i3 i4 i5.

(** The combinations of draws that produce [backrank]. *)
Definition drawsOf (backrank : list (option PieceType)) : list (nat * nat * nat * nat * nat) :=
  filter (λ d, generate5 d = Some backrank) allDraws.

(** The piece types of a back rank. *)
Definition backrankTypes : list (option PieceType) :=
  [Some KING; Some QUEEN; Some ROOK; Some BISHOP; Some KNIGHT].

(** [P] on every list of length [n] over [backrankTypes]. *)
Fixpoint forallLists (n : nat) (P : list (option PieceType) → bool) : bool :=
  match n with
  | O => P []
  | S n' => forallb (λ x, forallLists n' (λ l, P (x :: l))) backrankTypes
  end.

Definition countIn (backrank : list (option PieceType))
           (outs : list (option (list (option PieceType)))) : nat :=
  length (filter (λ o, o = Some backrank) outs).

Definition drawnTwice (outs : list (option (list (option PieceType))))
           (br : list (option PieceType)) : bool :=
  if bool_decide (countType KING br = 1%nat) then
    if bool_decide (countType QUEEN br = 1%nat) then
      if bool_decide (countType ROOK br = 2%nat) then
        if bool_decide (backrankPieces br) then
          if bool_decide (bishopsBounded br ∧ kingBounded br)
          then bool_decide (countIn br outs = 2%nat) else true
        else true
      else true
    else true
  else true.

(** What the generator returns on each combination of draws. *)
Definition outputs : list (option (list (option PieceType))) := map generate5 allDraws.

(** The files of a back rank that hold none of the five types. *)
Definition strays (backrank : list (option PieceType)) : nat :=
  length (filter (λ x, x ∉ backrankTypes) backrank).


(** ** When a piece bears on a square *)

(** The directions of a piece that moves along lines. *)
Definition lineDirections (t : PieceType) : list (Z * Z) :=
  match t with
  | BISHOP => bishopDirections
  | ROOK => rookDirections
  | QUEEN => queenDirections
  | _ => []
  end.

(** The piece [p] on [(r, k)] bears on [(row, col)]: a pawn on the two
    squares diagonally ahead, a king on the squares of the board next to
    it, a knight and a line piece on the squares they can move to. *)
Definition bearsOn (bd : Board) (p : Piece) (r k row col : Z) : Prop :=
  match type p with
  | PAWN => row = r + direction (color p) ∧ Z.abs (col - k) = 1
  | KNIGHT =>
      ((Z.abs (row - r) = 1 ∧ Z.abs (col - k) = 2) ∨
       (Z.abs (row - r) = 2 ∧ Z.abs (col - k) = 1)) ∧
      landable bd (Obj p) row col
  | KING =>
      Z.abs (row - r) ≤ 1 ∧ Z.abs (col - k) ≤ 1 ∧ (row, col) ≠ (r, k) ∧
      isWithinBoard row col = true
  | t =>
      ∃ d n, d ∈ lineDirections t ∧ 1 ≤ n ∧
             row = r + n * d.1 ∧ col = k + n * d.2 ∧
             clearPath bd r k d n ∧ landable bd (Obj p) row col
  end.

(** ** The position number

    [Chess960PositionToNumber] is applied to the start position of a new
    game.  A JavaScript number is an integer here, or [NaN], which
    arithmetic on [undefined] gives. *)
Inductive JsNumber := Num (z : Z) | NaN.

#[global] Instance JsNumber_eq_dec : EqDecision JsNumber.
Proof. solve_decision. Defined.

(** The indices [i] with [position[i] === t], in increasing order. *)
Definition positionsOf (t : PieceType) (position : list (option PieceType)) : list nat :=
  filter (λ i, bool_decide (position !! i = Some (Some t))) (seq 0 (length position)).

(** [a % 2 === b % 2], where an index that is [undefined] has parity
    [NaN], which is equal to nothing. *)
Definition sameParity (a b : option nat) : bool :=
  match a, b with
  | Some x, Some y => bool_decide (Z.rem (Z.of_nat x) 2 = Z.rem (Z.of_nat y) 2)
  | _, _ => false
  end.

Definition Chess960PositionToNumber (position : list (option PieceType)) : JsNumber :=
  let bishopPositions := positionsOf BISHOP position in
  if sameParity (bishopPositions !! 0%nat) (bishopPositions !! 1%nat) then Num (-1)
  else
    let queenPos := match positionsOf QUEEN position with
                    | i :: _ => Z.of_nat i
                    | [] => -1
                    end in
    let knightPositions := positionsOf KNIGHT position in
    let rookPositions := positionsOf ROOK position in
    let kingPos := match last (positionsOf KING position) with
                   | Some i => Z.of_nat i
                   | None => -1
                   end in
    (* [kingPos > rookPositions[0] && kingPos < rookPositions[1]]; a
       comparison with [undefined] is false *)
    let above := match rookPositions !! 0%nat with
                 | Some r => Z.of_nat r <? kingPos
                 | None => false
                 end in
    let below := match rookPositions !! 1%nat with
                 | Some r => kingPos <? Z.of_nat r
                 | None => false
                 end in
    if negb (above && below) then Num (-1)
    else
      match bishopPositions !! 0%nat, bishopPositions !! 1%nat,
            knightPositions !! 0%nat, knightPositions !! 1%nat,
            rookPositions !! 0%nat, rookPositions !! 1%nat with
      | Some b0, Some b1, Some n0, Some n1, Some r0, Some r1 =>
          let hash := Z.of_nat b0 * 10 + Z.of_nat b1 + queenPos * 100
                      + (Z.of_nat n0 * 1000 + Z.of_nat n1 * 10000)
                      + (Z.of_nat r0 * 100000 + kingPos * 1000000
                         + Z.of_nat r1 * 10000000) in
          Num (Z.rem hash 960)
      | _, _, _, _, _, _ => NaN
      end.

(** The back ranks the generator produces, each once. *)
Definition startPositions : list (list (option PieceType)) :=
  remove_dups (omap id outputs).

(** ** Pawns and kings on the board *)

(** No pawn stands on row 0 or 7 (nor outside the rows of the board). *)
Definition pawnsInside (bd : Board) : Prop :=
  ∀ r k p, cellAt bd r k = Obj p → type p = PAWN → 1 ≤ r ≤ 6.

(** At most one king of each colour. *)
Definition kingsUnique (bd : Board) : Prop :=
  ∀ r k r' k' p p',
    cellAt bd r k = Obj p → cellAt bd r' k' = Obj p' →
    type p = KING → type p' = KING → color p = color p' → (r, k) = (r', k').

(** Both conditions, decided on the entries of the board. *)
Definition pawnsKingsOk (bd : Board) : bool :=
  let entries := map_to_list bd in
  forallb (λ e : Z * Z * option Piece,
    match e.2 with
    | Some p =>
        match type p with
        | PAWN => (1 <=? e.1.1) && (e.1.1 <=? 6)
        | KING =>
            forallb (λ e' : Z * Z * option Piece,
              match e'.2 with
              | Some p' =>
                  if bool_decide (type p' = KING) && bool_decide (color p = color p')
                  then bool_decide (e.1 = e'.1) else true
              | None => true
              end) entries
        | _ => true
        end
    | None => true
    end) entries.

(** The draws with the last three indices below 8. *)
Definition widerDraws : list (nat * nat * nat * nat * nat) :=
  i1 ← seq 0 4; i2 ← seq 0 4; i3 ← seq 0 8; i4 ← seq 0 8; i5 ← seq 0 8;
  [(i1, i2, i3, i4, i5)].

(** ** The FEN of a start position *)

(** The letters of a back rank, for the pieces of colour [c]. *)
Definition rankText (c : Color) (backrank : list (option PieceType)) : string :=
  foldr (λ x s, match x with
                | Some t => (pieceChar (mkPiece t c) ++ s)%string
                | None => s
                end) ""%string backrank.

Definition startFEN (backrank : list (option PieceType)) : string :=
  (rankText BLACK backrank ++ "/pppppppp/8/8/8/8/PPPPPPPP/"
   ++ rankText WHITE backrank ++ " w KQkq - 0 1")%string.

(** Start [RNBQKBNR]; 1.f3 e5 2.g4 Qh4, White is mated. *)
Definition gameFoolsMate : option Chess :=
  g ← newGame 1 2 2 1 2;
  play g [(6,5,5,5); (1,4,3,4); (6,6,4,6); (0,3,4,7)].

(** ** What a call leaves behind when it raises

    The functions above give [None] for a call that raises a TypeError and
    say nothing of the state at that moment.  The functions below return
    the state the call leaves together with its result, [None] for a
    raised error: the writes made before the error stay.  The generators
    and the attack tests only read, so an error inside them leaves the
    state they were called on. *)

(** What a pair of the state left and the result gives when the call
    returns. *)
Definition returned {S A} (r : S * option A) : option (S * A) :=
  a ← r.2; Some (r.1, a).

(** The callback of [moves.filter].  Both reads and [movingPiece.type]
    come before the first write; the only later call that can raise is
    [isInCheck], between the temporary move and its undoing. *)
Definition tryMoveE (ep : option (Z * Z)) (p : Piece) (row col : Z)
           (bd : Board) (mv : Z * Z) : Board * option bool :=
  let '(toRow, toCol) := mv in
  match rd bd toRow toCol, rd bd row col with
  | Some originalPiece, Some (Obj mp) =>
      let cap := capturedPawnPos ep mp row toRow toCol in
      let bd2 := put (put bd toRow toCol (Obj mp)) row col Null in
      let bd3 := match cap with Some (cr, cc) => put bd2 cr cc Null | None => bd2 end in
      match isInCheck bd3 (color p) with
      | Some chk =>
          let bd5 := put (put bd3 row col (Obj mp)) toRow toCol originalPiece in
          let bd6 := match cap with
                     | Some (cr, cc) =>
                         put bd5 cr cc (Obj (mkPiece PAWN (opponent (color p))))
                     | None => bd5
                     end in
          (bd6, Some (negb chk))
      | None => (bd3, None)
      end
  | _, _ => (bd, None)
  end.

Fixpoint filterMovesE (ep : option (Z * Z)) (p : Piece) (row col : Z)
         (bd : Board) (moves : list (Z * Z)) : Board * option (list (Z * Z)) :=
  match moves with
  | [] => (bd, Some [])
  | mv :: moves' =>
      match tryMoveE ep p row col bd mv with
      | (bd1, Some ok) =>
          match filterMovesE ep p row col bd1 moves' with
          | (bd2, Some ms) => (bd2, Some (if ok : bool then mv :: ms else ms))
          | (bd2, None) => (bd2, None)
          end
      | (bd1, None) => (bd1, None)
      end
  end.

Definition getValidMovesE (g : Chess) (row col : Z) : Chess * option (list (Z * Z)) :=
  match rd (board g) row col with
  | None => (g, None)
  | Some (Obj p) =>
      if bool_decide (color p ≠ currentPlayer g) then (g, Some [])
      else match candidateMoves g p row col with
           | None => (g, None)
           | Some moves =>
               let r := filterMovesE (enPassantTarget g) p row col (board g) moves in
               (setBoard g r.1, r.2)
           end
  | Some _ => (g, Some [])
  end.

Fixpoint hasLegalMovesFromE (g : Chess) (c : Color) (l : list (Z * Z)) : Chess * option bool :=
  match l with
  | [] => (g, Some false)
  | (r, k) :: l' =>
      match rd (board g) r k with
      | None => (g, None)
      | Some (Obj p) =>
          if bool_decide (color p = c) then
            match getValidMovesE g r k with
            | (g1, Some []) => hasLegalMovesFromE g1 c l'
            | (g1, Some (_ :: _)) => (g1, Some true)
            | (g1, None) => (g1, None)
            end
          else hasLegalMovesFromE g c l'
      | Some _ => hasLegalMovesFromE g c l'
      end
  end.

Definition hasLegalMovesE (g : Chess) (c : Color) : Chess * option bool :=
  hasLegalMovesFromE g c squares.
#[global] Arguments hasLegalMovesE : simpl never.

Definition isInCheckmateE (g : Chess) (c : Color) : Chess * option bool :=
  match isInCheck (board g) c with
  | None => (g, None)
  | Some true => let r := hasLegalMovesE g c in (r.1, negb <$> r.2)
  | Some false => (g, Some false)
  end.

Definition isInStalemateE (g : Chess) (c : Color) : Chess * option bool :=
  match isInCheck (board g) c with
  | None => (g, None)
  | Some true => (g, Some false)
  | Some false => let r := hasLegalMovesE g c in (r.1, negb <$> r.2)
  end.

Definition checkGameEndE (g : Chess) : Chess * option unit :=
  let currentColor := currentPlayer g in
  match isInCheckmateE g currentColor with
  | (g1, None) => (g1, None)
  | (g1, Some true) =>
      (setResult g1 (match currentColor with
                     | WHITE => "Black wins" | BLACK => "White wins" end), Some tt)
  | (g1, Some false) =>
      match isInStalemateE g1 currentColor with
      | (g2, None) => (g2, None)
      | (g2, Some true) => (setResult g2 "Stalemate", Some tt)
      | (g2, Some false) =>
          (if 100 <=? halfMoveClock g2
           then setResult g2 "Draw by fifty-move rule" else g2, Some tt)
      end
  end.

(** [makeMove].  Between the validity test and [checkGameEnd] the only
    step that can raise is the read of [this.board[toRow][toCol]], which
    comes before the first write ([applyMove_raises]). *)
Definition makeMoveE (g : Chess) (fromRow fromCol toRow toCol : Z) : Chess * option bool :=
  match rd (board g) fromRow fromCol with
  | None => (g, None)
  | Some (Obj p) =>
      if bool_decide (color p ≠ currentPlayer g) then (g, Some false)
      else
        match getValidMovesE g fromRow fromCol with
        | (gv, None) => (gv, None)
        | (gv, Some ms) =>
            if hasMove ms toRow toCol then
              match applyMove gv p fromRow fromCol toRow toCol with
              | None => (gv, None)
              | Some g1 => let r := checkGameEndE g1 in (r.1, (λ _, true) <$> r.2)
              end
            else (gv, Some false)
        end
  | Some _ => (g, Some false)
  end.

(** Start [BBRNKNRQ]; 1.Ng3 b6 2.Nf5 Bb7 3.O-O Ba6.  White's king has
    castled onto the square of the rook g1; no rook was left to move, and
    the castling block has written [undefined] on f1. *)
Definition gameUndefinedF1 : option Chess :=
  g ← newGame 0 0 5 1 2;
  play g [(7,5,5,6); (1,1,2,1); (5,6,3,5); (0,0,1,1); (7,4,7,6); (1,1,2,0)].

(** Start [BBRNKNRQ]; 1.Ng3 a6, White to castle king-side with the knight
    on g3. *)
Definition gameKnightOnG3 : option Chess :=
  g ← newGame 0 0 5 1 2; play g [(7,5,5,6); (1,0,2,0)].

(** ** Boards without [undefined] *)

(** Every square of the board holds a piece or [null]. *)
Definition boardFull (bd : Board) : Prop :=
  ∀ r k, isWithinBoard r k = true → cellAt bd r k ≠ Undefined.

Definition boardFullb (bd : Board) : bool :=
  forallb (λ rk : Z * Z, negb (bool_decide (cellAt bd rk.1 rk.2 = Undefined))) squares.

(** * Properties *)

(** ** Basic facts *)

Lemma newGame_reachable i1 i2 i3 i4 i5 g :
  newGame i1 i2 i3 i4 i5 = Some g → reachable g.
Proof.
  unfold newGame. destruct (initializeChess960 i1 i2 i3 i4 i5) as [[g0 fen]|] eqn:E;
    simpl; intros H; inversion H; subst.
  eapply reach_init, E.
Qed.

Lemma play_reachable moves : ∀ g g',
  reachable g → play g moves = Some g' → reachable g'.
Proof.
  induction moves as [|[[[fr fc] tr] tc] moves IH]; simpl; intros g g' Hg H.
  - inversion H; subst; exact Hg.
  - destruct (makeMove g fr fc tr tc) as [[g1 ok]|] eqn:E; simpl in H; [|discriminate].
    destruct ok; [|discriminate].
    eapply IH; [|exact H]. eapply reach_move; eauto.
Qed.

Lemma game_reachable i1 i2 i3 i4 i5 moves g :
  (g0 ← newGame i1 i2 i3 i4 i5; play g0 moves) = Some g → reachable g.
Proof.
  destruct (newGame i1 i2 i3 i4 i5) as [g0|] eqn:E; simpl; [|discriminate].
  intros H. eapply play_reachable; [|exact H]. eapply newGame_reachable, E.
Qed.

(** ** The sliding loop ends within eight steps *)

(** Along a direction on which a quantity [φ], positive on the board,
    drops by one at every step, any two bounds that are at least [φ] give
    the same moves. *)
Lemma slide_bound (φ : Z → Z → Z) rowDir colDir bd piece :
  (∀ r c, isWithinBoard r c = true → 0 < φ r c) →
  (∀ r c, φ (r + rowDir) (c + colDir) = φ r c - 1) →
  ∀ n m r c, φ r c ≤ Z.of_nat n → φ r c ≤ Z.of_nat m →
    slide n bd piece r c rowDir colDir = slide m bd piece r c rowDir colDir.
Proof.
  intros Hpos Hstep. induction n as [|n IH]; intros m r c Hn Hm.
  - destruct m; [reflexivity|]. simpl.
    destruct (isWithinBoard r c) eqn:Hin; [|reflexivity].
    apply Hpos in Hin. lia.
  - destruct m; simpl.
    + destruct (isWithinBoard r c) eqn:Hin; [|reflexivity].
      apply Hpos in Hin. lia.
    + destruct (isWithinBoard r c); [|reflexivity].
      destruct (rd bd r c) as [[| |q]|]; try reflexivity. simpl.
      rewrite (IH m); [reflexivity|rewrite Hstep; lia..].
Qed.

(** Eight iterations are enough for each of the engine's directions: more
    would not change the result. *)
Lemma slide_fuel bd piece r c d n :
  d ∈ queenDirections →
  slide (8 + n) bd piece r c d.1 d.2 = slide 8 bd piece r c d.1 d.2.
Proof.
  intros Hd. change (8 + n)%nat with (S (7 + n)).
  destruct (isWithinBoard r c) eqn:Hin;
    [|cbn [slide]; rewrite Hin; reflexivity].
  change (S (7 + n)) with (8 + n)%nat.
  assert (Hb : 0 ≤ r < 8 ∧ 0 ≤ c < 8) by (unfold isWithinBoard in Hin; lia).
  assert (Hw : ∀ r c, isWithinBoard r c = true → 0 ≤ r < 8 ∧ 0 ≤ c < 8)
    by (intros ? ?; unfold isWithinBoard; lia).
  unfold queenDirections in Hd.
  repeat (apply elem_of_cons in Hd as [->|Hd]); [..|inversion Hd]; cbn [fst snd].
  - apply (slide_bound (λ r _, r + 1)); [intros ? ? ?%Hw|intros|..]; lia.
  - apply (slide_bound (λ r _, r + 1)); [intros ? ? ?%Hw|intros|..]; lia.
  - apply (slide_bound (λ r _, r + 1)); [intros ? ? ?%Hw|intros|..]; lia.
  - apply (slide_bound (λ _ c, c + 1)); [intros ? ? ?%Hw|intros|..]; lia.
  - apply (slide_bound (λ _ c, 8 - c)); [intros ? ? ?%Hw|intros|..]; lia.
  - apply (slide_bound (λ r _, 8 - r)); [intros ? ? ?%Hw|intros|..]; lia.
  - apply (slide_bound (λ r _, 8 - r)); [intros ? ? ?%Hw|intros|..]; lia.
  - apply (slide_bound (λ r _, 8 - r)); [intros ? ? ?%Hw|intros|..]; lia.
Qed.

(** A closed computation is checked by evaluating a decidable property of
    its result. *)
Lemma checked {A} (m : option A) (P : A → Prop) `{!∀ x, Decision (P x)} :
  (x ← m; Some (bool_decide (P x))) = Some true → ∃ x, m = Some x ∧ P x.
Proof.
  destruct m as [x|]; simpl; [|discriminate].
  intros Hx. exists x. split; [reflexivity|].
  injection Hx as Hx. exact (bool_decide_eq_true_1 _ Hx).
Qed.

Ltac by_evaluation := vm_compute; reflexivity.

Ltac unpack_run H :=
  repeat (let x := fresh "x" in let Hx := fresh "Hrun" in
          apply bind_Some in H as (x & Hx & H));
  injection H; clear H; intros; subst.

(** The squares the scans visit are the squares of the board. *)
Lemma elem_of_squares r c : (r, c) ∈ squares ↔ isWithinBoard r c = true.
Proof.
  unfold squares, isWithinBoard. rewrite list_elem_of_bind.
  split.
  - intros (r' & Hc & Hr). apply list_elem_of_bind in Hc as (c' & Hc & Hc').
    apply list_elem_of_singleton in Hc. injection Hc as -> ->.
    apply elem_of_seqZ in Hr, Hc'. lia.
  - intros H. exists r. split.
    + apply list_elem_of_bind. exists c. split; [apply list_elem_of_singleton; reflexivity|].
      apply elem_of_seqZ. lia.
    + apply elem_of_seqZ. lia.
Qed.

(** ** The start position *)

Lemma bishopsBounded_sound backrank :
  length backrank = 8%nat → bishopsBounded backrank → bishopsOnOppositeParity backrank.
Proof.
  intros Hlen HB. unfold bishopsOnOppositeParity. intros i j Hij Hi Hj.
  assert (Hi8 : i ∈ seq 0 8).
  { apply elem_of_seq. apply lookup_lt_Some in Hi. lia. }
  assert (Hj8 : j ∈ seq 0 8).
  { apply elem_of_seq. apply lookup_lt_Some in Hj. lia. }
  unfold bishopsBounded in HB. rewrite Forall_forall in HB.
  specialize (HB i Hi8). rewrite Forall_forall in HB.
  exact (HB j Hj8 Hij Hi Hj).
Qed.

Lemma kingBounded_sound backrank :
  length backrank = 8%nat → kingBounded backrank → kingBetweenRooks backrank.
Proof.
  intros Hlen HK. unfold kingBetweenRooks. intros k Hk.
  assert (Hk8 : k ∈ seq 0 8).
  { apply elem_of_seq. apply lookup_lt_Some in Hk. lia. }
  unfold kingBounded in HK. rewrite Forall_forall in HK.
  specialize (HK k Hk8 Hk). apply Exists_exists in HK as (i & _ & HK).
  apply Exists_exists in HK as (j & _ & HK). exists i, j. exact HK.
Qed.

Lemma boardBounded_sound backrank bd :
  boardBounded backrank bd → boardSetUp backrank bd.
Proof.
  intros HB. unfold boardSetUp. intros i Hi. unfold boardBounded in HB. rewrite Forall_forall in HB.
  destruct (HB i) as (H7 & H0 & H6 & H1 & Hmid); [apply elem_of_seq; lia|].
  destruct (backrank !! i) as [[t|]|] eqn:E; simpl in H7;
    try (unfold rd in H7; simpl in H7; discriminate).
  simpl in H0. exists t. split; [reflexivity|]. do 4 (split; [assumption|]).
  intros r Hr. rewrite Forall_forall in Hmid. apply Hmid, elem_of_seqZ. lia.
Qed.

Lemma allDraws_checked : Forall (λ d, checkStart d = Some true) allDraws.
Proof.
  apply (bool_decide_eq_true_1 (Forall (λ d, checkStart d = Some true) allDraws)).
  by_evaluation.
Qed.

Lemma elem_of_allDraws i1 i2 i3 i4 i5 :
  (i1 < 4)%nat → (i2 < 4)%nat → (i3 < 6)%nat → (i4 < 5)%nat → (i5 < 4)%nat →
  (i1, i2, i3, i4, i5) ∈ allDraws.
Proof.
  intros. unfold allDraws.
  apply list_elem_of_bind; exists i1; split; [|apply elem_of_seq; lia].
  apply list_elem_of_bind; exists i2; split; [|apply elem_of_seq; lia].
  apply list_elem_of_bind; exists i3; split; [|apply elem_of_seq; lia].
  apply list_elem_of_bind; exists i4; split; [|apply elem_of_seq; lia].
  apply list_elem_of_bind; exists i5; split; [|apply elem_of_seq; lia].
  apply list_elem_of_singleton. reflexivity.
Qed.

(** C5.  Whatever the five draws, [generateChess960Position] returns a
    back rank of two rooks, two knights, two bishops, a queen and a king,
    with the bishops on files of opposite parity and the king between the
    rooks, and [initializeChess960] puts that back rank on rows 7 (White)
    and 0 (Black), pawns on rows 6 and 1, and leaves rows 2 to 5 empty. *)
Theorem start_position_well_formed (i1 i2 i3 i4 i5 : nat) :
  (i1 < 4)%nat → (i2 < 4)%nat → (i3 < 6)%nat → (i4 < 5)%nat → (i5 < 4)%nat →
  ∃ backrank g fen,
    generateChess960Position i1 i2 i3 i4 i5 = Some backrank ∧
    initializeChess960 i1 i2 i3 i4 i5 = Some (g, fen) ∧
    backrankPieces backrank ∧
    bishopsOnOppositeParity backrank ∧
    kingBetweenRooks backrank ∧
    startPosition g = Some backrank ∧
    boardSetUp backrank (board g).
Proof.
  intros H1 H2 H3 H4 H5.
  pose proof (proj1 (Forall_forall _ _) allDraws_checked _
                (elem_of_allDraws _ _ _ _ _ H1 H2 H3 H4 H5)) as Hc.
  unfold checkStart in Hc.
  apply bind_Some in Hc as (backrank & Hgen & Hc).
  apply bind_Some in Hc as ([g fen] & Hinit & Hc).
  injection Hc as Hc. apply bool_decide_eq_true_1 in Hc.
  destruct Hc as (Hp & Hb & Hk & Hbd & Hsp & _).
  exists backrank, g, fen. repeat (split; [assumption|]).
  split; [apply bishopsBounded_sound; [apply Hp|assumption]|].
  split; [apply kingBounded_sound; [apply Hp|assumption]|].
  split; [assumption|]. apply boardBounded_sound; assumption.
Qed.

Lemma start_position_well_formed_witness :
  ∃ backrank g fen,
    generateChess960Position 1 2 2 1 2 = Some backrank ∧
    initializeChess960 1 2 2 1 2 = Some (g, fen) ∧
    backrankPieces backrank ∧
    bishopsOnOppositeParity backrank ∧
    kingBetweenRooks backrank ∧
    startPosition g = Some backrank ∧
    boardSetUp backrank (board g).
Proof. apply (start_position_well_formed 1 2 2 1 2); lia. Defined.

(** ** The board as a store *)

Lemma cellAt_put bd r c v r' c' :
  cellAt (put bd r c v) r' c' =
  if decide ((r', c') = (r, c)) then v else cellAt bd r' c'.
Proof.
  unfold cellAt, put. destruct (decide ((r', c') = (r, c))) as [->|Hne].
  - destruct v; [rewrite lookup_delete_eq|rewrite lookup_insert_eq..]; reflexivity.
  - destruct v; [rewrite lookup_delete_ne|rewrite lookup_insert_ne..]; congruence.
Qed.

(** Two boards that read alike everywhere are the same board. *)
Lemma board_ext (bd1 bd2 : Board) :
  (∀ r c, cellAt bd1 r c = cellAt bd2 r c) → bd1 = bd2.
Proof.
  intros H. apply map_eq. intros [r c]. specialize (H r c). unfold cellAt in H.
  destruct (bd1 !! (r, c)) as [[?|]|], (bd2 !! (r, c)) as [[?|]|]; congruence.
Qed.

Lemma rd_Some bd r c x : rd bd r c = Some x → isRow r = true ∧ x = cellAt bd r c.
Proof. unfold rd. destruct (isRow r); [|discriminate]. intros [= <-]. auto. Qed.

Lemma wr_Some bd r c v bd' : wr bd r c v = Some bd' → isRow r = true ∧ bd' = put bd r c v.
Proof. unfold wr. destruct (isRow r); [|discriminate]. intros [= <-]. auto. Qed.

Lemma setBoard_id g : setBoard g (board g) = g.
Proof. destruct g; reflexivity. Qed.

(** ** The legality filter gives the board back *)

Ltac bind_inv H :=
  let x := fresh "x" in let Hx := fresh "Hx" in
  apply bind_Some in H as (x & Hx & H).

(** One trial of the filter restores the board, provided the pawn it
    re-creates after an en passant trial is the pawn that stood there. *)
Lemma tryMove_restores ep p row col bd mv bd' ok :
  tryMove ep p row col bd mv = Some (bd', ok) →
  (∀ mp cr cc, cellAt bd row col = Obj mp →
     capturedPawnPos ep mp row mv.1 mv.2 = Some (cr, cc) →
     cellAt bd cr cc = Obj (mkPiece PAWN (opponent (color p)))) →
  bd' = bd.
Proof.
  destruct mv as [toRow toCol]. unfold tryMove. intros H Hcap.
  bind_inv H. apply rd_Some in Hx as [_ ->].
  bind_inv H. apply rd_Some in Hx as [_ ->].
  bind_inv H. rename x into mp.
  destruct (cellAt bd row col) as [| |mp'] eqn:Hfrom; try discriminate.
  injection Hx as ->.
  specialize (Hcap mp). simpl in Hcap.
  bind_inv H. apply wr_Some in Hx as [_ ->].
  bind_inv H. apply wr_Some in Hx as [_ ->].
  destruct (capturedPawnPos ep mp row toRow toCol) as [[cr cc]|].
  - specialize (Hcap cr cc eq_refl eq_refl).
    bind_inv H. apply wr_Some in Hx as [_ ->].
    bind_inv H. bind_inv H. apply wr_Some in Hx0 as [_ ->].
    bind_inv H. apply wr_Some in Hx0 as [_ ->].
    bind_inv H. apply wr_Some in Hx0 as [_ ->].
    injection H as <- _. apply board_ext. intros r c.
    rewrite !cellAt_put. repeat case_decide; simplify_eq; congruence.
  - bind_inv H. injection Hx as <-.
    bind_inv H. bind_inv H. apply wr_Some in Hx0 as [_ ->].
    bind_inv H. apply wr_Some in Hx0 as [_ ->].
    bind_inv H. injection Hx0 as <-.
    injection H as <- _. apply board_ext. intros r c.
    rewrite !cellAt_put. repeat case_decide; simplify_eq; congruence.
Qed.

(** The filter keeps a sublist of the candidates. *)
Lemma filterMoves_subset ep p row col moves : ∀ bd bd' ms mv,
  filterMoves ep p row col bd moves = Some (bd', ms) → mv ∈ ms → mv ∈ moves.
Proof.
  induction moves as [|m moves IH]; simpl; intros bd bd' ms mv H Hin.
  - injection H as <- <-. exact Hin.
  - bind_inv H. bind_inv H. injection H as <- <-.
    destruct x as [bd1 ok], x0 as [bd2 ms2]; simpl in *.
    destruct ok.
    + apply elem_of_cons in Hin as [->|Hin]; [left|right; eapply IH; eauto].
    + right; eapply IH; eauto.
Qed.

Lemma filterMoves_restores ep p row col moves : ∀ bd bd' ms,
  filterMoves ep p row col bd moves = Some (bd', ms) →
  (∀ mv mp cr cc, mv ∈ moves → cellAt bd row col = Obj mp →
     capturedPawnPos ep mp row mv.1 mv.2 = Some (cr, cc) →
     cellAt bd cr cc = Obj (mkPiece PAWN (opponent (color p)))) →
  bd' = bd.
Proof.
  induction moves as [|m moves IH]; simpl; intros bd bd' ms H Hcap.
  - injection H as <- _. reflexivity.
  - bind_inv H. bind_inv H. injection H as <- _.
    destruct x as [bd1 ok], x0 as [bd2 ms2]; simpl in *.
    assert (bd1 = bd) as ->.
    { eapply tryMove_restores; [exact Hx|]. intros mp cr cc. apply Hcap. left. }
    eapply IH; [exact Hx0|]. intros mv mp cr cc Hin. apply Hcap. right. exact Hin.
Qed.

(** ** Shape of the pawn moves *)

Lemma concatM_elem {A B} (f : A → option (list B)) l : ∀ ms y,
  concatM f l = Some ms → y ∈ ms → ∃ a ms', a ∈ l ∧ f a = Some ms' ∧ y ∈ ms'.
Proof.
  induction l as [|a l IH]; simpl; intros ms y H Hin.
  - injection H as <-. inversion Hin.
  - bind_inv H. bind_inv H. injection H as <-.
    apply elem_of_app in Hin as [Hin|Hin].
    + exists a, x. split; [left|]. auto.
    + destruct (IH _ _ Hx0 Hin) as (a' & ms' & Ha & Hf & Hy).
      exists a', ms'. split; [right; exact Ha|]. auto.
Qed.

(** A pawn move goes one row forward, or two rows straight ahead from the
    pawn's start row. *)
Lemma getPawnMoves_shape g row col ms mv :
  getPawnMoves g row col = Some ms → mv ∈ ms →
  ∃ pc, colorOf (cellAt (board g) row col) = Some pc ∧
    (mv.1 = row + direction pc ∨
     (mv = (row + 2 * direction pc, col) ∧
      row = match pc with WHITE => 6 | BLACK => 1 end)).
Proof.
  unfold getPawnMoves. intros H Hin.
  bind_inv H. apply rd_Some in Hx as [_ ->].
  bind_inv H. rename x into pc. exists pc. split; [exact Hx|].
  bind_inv H. rename x into forward, Hx0 into Hfw.
  bind_inv H. rename x into captures, Hx0 into Hcp.
  injection H as <-.
  apply elem_of_app in Hin as [Hin|Hin]; [|apply elem_of_app in Hin as [Hin|Hin]].
  - destruct (isWithinBoard (row + direction pc) col); [|injection Hfw as <-; inversion Hin].
    bind_inv Hfw. case_bool_decide; [|injection Hfw as <-; inversion Hin].
    destruct (row =? _) eqn:Hrow.
    + apply Z.eqb_eq in Hrow. bind_inv Hfw.
      case_bool_decide; injection Hfw as <-.
      * apply elem_of_cons in Hin as [->|Hin]; [left; reflexivity|].
        apply list_elem_of_singleton in Hin as ->. right. auto.
      * apply list_elem_of_singleton in Hin as ->. left; reflexivity.
    + injection Hfw as <-. apply list_elem_of_singleton in Hin as ->. left; reflexivity.
  - left. destruct (concatM_elem _ _ _ _ Hcp Hin) as (offset & ms' & _ & Hf & Hin').
    destruct (isWithinBoard _ (col + offset)); [|injection Hf as <-; inversion Hin'].
    bind_inv Hf. destruct x as [| |t]; try (injection Hf as <-; inversion Hin').
    case_bool_decide; injection Hf as <-; [|inversion Hin'].
    apply list_elem_of_singleton in Hin' as ->. reflexivity.
  - left. destruct (enPassantTarget g) as [[epRow epCol]|]; [|inversion Hin].
    destruct (_ && _) eqn:Hc; [|inversion Hin].
    apply list_elem_of_singleton in Hin as ->. simpl.
    apply andb_true_iff in Hc as [_ Hc]. apply Z.eqb_eq in Hc. exact Hc.
Qed.

(** In a position where the target lies behind the pawn that made it, the
    pawn an en passant trial removes and re-creates is that pawn. *)
Lemma pawn_trial_sound g p row col moves mv cr cc :
  targetBehindPawn g →
  cellAt (board g) row col = Obj p → color p = currentPlayer g →
  candidateMoves g p row col = Some moves → mv ∈ moves →
  capturedPawnPos (enPassantTarget g) p row mv.1 mv.2 = Some (cr, cc) →
  cellAt (board g) cr cc = Obj (mkPiece PAWN (opponent (color p))).
Proof.
  intros Hep Hp Hcol Hcand Hin Hcap. unfold capturedPawnPos in Hcap.
  destruct (enPassantTarget g) as [[er ec]|] eqn:Ht; [|discriminate].
  destruct (_ && _) eqn:Hc; [|discriminate]. injection Hcap as <- <-.
  apply andb_true_iff in Hc as [Hc Hc2]. apply andb_true_iff in Hc as [Hty Hc1].
  apply bool_decide_eq_true_1 in Hty. apply Z.eqb_eq in Hc1, Hc2.
  destruct (Hep er ec Ht) as [Her Hpawn].
  unfold candidateMoves in Hcand. rewrite Hty in Hcand.
  destruct (getPawnMoves_shape _ _ _ _ _ Hcand Hin) as (pc & Hpc & Hshape).
  rewrite Hp in Hpc. injection Hpc as <-. rewrite Hcol in *.
  destruct Hshape as [Hrow|[-> Hstart]].
  - rewrite Hc2. replace row with (er - direction (currentPlayer g)) by lia.
    exact Hpawn.
  - simpl in Hc1. exfalso. destruct (currentPlayer g); simpl in *; lia.
Qed.

(** [getValidMoves] leaves such a position as it found it. *)
Lemma getValidMoves_restores g row col g' ms :
  targetBehindPawn g → getValidMoves g row col = Some (g', ms) → g' = g.
Proof.
  intros Hep H. unfold getValidMoves in H.
  bind_inv H. apply rd_Some in Hx as [_ ->].
  destruct (cellAt (board g) row col) as [| |p] eqn:Hp; try (injection H as <- _; reflexivity).
  case_bool_decide as Hcol; [injection H as <- _; reflexivity|].
  bind_inv H. bind_inv H. injection H as <- _. destruct x0 as [bd' ms']; simpl in *.
  assert (bd' = board g) as ->; [|apply setBoard_id].
  eapply filterMoves_restores; [exact Hx0|].
  intros mv mp cr cc Hin Hmp Hcap. rewrite Hp in Hmp. injection Hmp as <-.
  eapply pawn_trial_sound; eauto.
Qed.

(** The moves [getValidMoves] returns are candidates of the piece on the
    square, which belongs to the side to move. *)
Lemma getValidMoves_candidates g row col g' ms mv :
  getValidMoves g row col = Some (g', ms) → mv ∈ ms →
  ∃ p moves, cellAt (board g) row col = Obj p ∧ color p = currentPlayer g ∧
    candidateMoves g p row col = Some moves ∧ mv ∈ moves.
Proof.
  intros H Hin. unfold getValidMoves in H.
  bind_inv H. apply rd_Some in Hx as [_ ->].
  destruct (cellAt (board g) row col) as [| |p] eqn:Hp;
    try (injection H as _ <-; inversion Hin).
  case_bool_decide as Hcol; [injection H as _ <-; inversion Hin|].
  bind_inv H. bind_inv H. injection H as _ <-. destruct x0 as [bd' ms']; simpl in *.
  exists p, x. split; [reflexivity|]. do 2 (split; [assumption|]).
  eapply filterMoves_subset; eauto.
Qed.

(** ** The terminal evaluation *)

Lemma hasLegalMovesFrom_restores c l : ∀ g g' has,
  targetBehindPawn g → hasLegalMovesFrom g c l = Some (g', has) → g' = g.
Proof.
  induction l as [|[r k] l IH]; simpl; intros g g' has Hep H.
  - injection H as <- _. reflexivity.
  - bind_inv H. destruct x as [| |p]; try exact (IH _ _ _ Hep H).
    case_bool_decide; [|exact (IH _ _ _ Hep H)].
    bind_inv H. destruct x as [g1 ms]. simpl in H.
    apply getValidMoves_restores in Hx0 as ->; [|exact Hep].
    destruct ms; [exact (IH _ _ _ Hep H)|]. injection H as <- _. reflexivity.
Qed.

(** [checkGameEnd] touches only the game-over flag and the result, and
    sets them by the verdict on the side to move. *)
Lemma checkGameEnd_verdict g g' :
  targetBehindPawn g → checkGameEnd g = Some g' →
  ∃ inCheck hasMoves,
    isInCheck (board g) (currentPlayer g) = Some inCheck ∧
    hasLegalMoves g (currentPlayer g) = Some (g, hasMoves) ∧
    g' = match verdict (currentPlayer g) inCheck hasMoves (halfMoveClock g) with
         | Some res => setResult g res
         | None => g
         end.
Proof.
  intros Hep H. unfold checkGameEnd, isInCheckmate, isInStalemate in H.
  bind_inv H. bind_inv Hx. rename x0 into inCheck. exists inCheck.
  destruct inCheck.
  - bind_inv Hx. destruct x0 as [g1 has]. injection Hx as <-. simpl in H.
    pose proof (hasLegalMovesFrom_restores _ _ _ _ _ Hep Hx1) as ->.
    exists has. split; [assumption|]. split; [assumption|].
    unfold verdict. destruct has; simpl in *.
    + rewrite Hx0 in H. simpl in H. destruct (100 <=? halfMoveClock g); congruence.
    + congruence.
  - injection Hx as <-. simpl in H. rewrite Hx0 in H. simpl in H.
    bind_inv H. bind_inv Hx. destruct x0 as [g1 has]. injection Hx as <-.
    pose proof (hasLegalMovesFrom_restores _ _ _ _ _ Hep Hx1) as ->.
    exists has. split; [assumption|]. split; [assumption|].
    unfold verdict. destruct has; simpl in *.
    + destruct (100 <=? halfMoveClock g); congruence.
    + congruence.
Qed.

(** ** What a successful [makeMove] does *)

Lemma hasMove_elem ms r c : hasMove ms r c = true ↔ (r, c) ∈ ms.
Proof.
  unfold hasMove. rewrite existsb_exists. split.
  - intros ([r' c'] & Hin & Heq). simpl in Heq.
    apply andb_true_iff in Heq as [H1 H2]. apply Z.eqb_eq in H1, H2. subst.
    apply list_elem_of_In. exact Hin.
  - intros Hin. exists (r, c). split; [apply list_elem_of_In; exact Hin|].
    simpl. rewrite !Z.eqb_refl. reflexivity.
Qed.

Lemma getValidMoves_setBoard g row col gv ms :
  getValidMoves g row col = Some (gv, ms) → ∃ bd, gv = setBoard g bd.
Proof.
  unfold getValidMoves. intros H. bind_inv H.
  destruct x as [| |p]; try (injection H as <- _; exists (board g); symmetry; apply setBoard_id).
  case_bool_decide; [injection H as <- _; exists (board g); symmetry; apply setBoard_id|].
  bind_inv H. bind_inv H. injection H as <- _. eexists; reflexivity.
Qed.

(** The steps of a call that returns [true]. *)
Lemma makeMove_true g fromRow fromCol toRow toCol g' :
  makeMove g fromRow fromCol toRow toCol = Some (g', true) →
  ∃ p gv ms g1,
    rd (board g) fromRow fromCol = Some (Obj p) ∧ color p = currentPlayer g ∧
    getValidMoves g fromRow fromCol = Some (gv, ms) ∧ (toRow, toCol) ∈ ms ∧
    applyMove gv p fromRow fromCol toRow toCol = Some g1 ∧
    checkGameEnd g1 = Some g'.
Proof.
  unfold makeMove. intros H. bind_inv H.
  destruct x as [| |p]; try discriminate.
  case_bool_decide as Hcol; [discriminate|].
  bind_inv H. destruct x as [gv ms]. simpl in H.
  destruct (hasMove ms toRow toCol) eqn:Hm; [|discriminate].
  bind_inv H. bind_inv H. injection H as <-.
  exists p, gv, ms, x. apply hasMove_elem in Hm. auto 10.
Qed.

(** The fields [applyMove] sets without looking at the board. *)
Lemma applyMove_fields g p fromRow fromCol toRow toCol g1 :
  applyMove g p fromRow fromCol toRow toCol = Some g1 →
  currentPlayer g1 = opponent (currentPlayer g) ∧
  gameOver g1 = gameOver g ∧ gameResult g1 = gameResult g ∧
  enPassantTarget g1 =
    (if bool_decide (type p = PAWN) && (Z.abs (toRow - fromRow) =? 2)
     then Some ((fromRow + toRow) / 2, fromCol) else None).
Proof.
  unfold applyMove. intros H.
  bind_inv H. bind_inv H. bind_inv H. bind_inv H.
  destruct x2 as [[[[bd4 ep] clock] enP] promo].
  bind_inv H. destruct x2 as [[bd5 cast] cr1]. bind_inv H. injection H as <-. simpl.
  repeat (split; [reflexivity|]).
  destruct (bool_decide (type p = PAWN)); simpl.
  - bind_inv Hx2. destruct (_ || _); [bind_inv Hx2|]; injection Hx2 as _ <- _ _ _; reflexivity.
  - injection Hx2 as _ <- _ _ _; reflexivity.
Qed.

(** A pawn that advances two rows stands on its target square afterwards. *)
Lemma applyMove_double_step g p fromRow fromCol toRow toCol g1 :
  applyMove g p fromRow fromCol toRow toCol = Some g1 →
  type p = PAWN → Z.abs (toRow - fromRow) = 2 → toRow ≠ 0 → toRow ≠ 7 →
  cellAt (board g1) toRow toCol = Obj p.
Proof.
  unfold applyMove. intros H Hty Habs H0 H7.
  bind_inv H. bind_inv H. apply wr_Some in Hx0 as [_ ->].
  bind_inv H. apply wr_Some in Hx0 as [_ ->]. bind_inv H.
  destruct x0 as [[[[bd4 ep] clock] enP] promo].
  bind_inv H. destruct x0 as [[bd5 cast] cr1]. bind_inv H. injection H as <-. simpl.
  rewrite (bool_decide_eq_true_2 _ Hty) in Hx0.
  assert (bool_decide (type p = KING) = false) as Hk
    by (apply bool_decide_eq_false_2; congruence).
  rewrite Hk in Hx1. injection Hx1 as <- _ _.
  bind_inv Hx0.
  assert ((toRow =? 0) || (toRow =? 7) = false) as Hpromo.
  { apply orb_false_iff. split; apply Z.eqb_neq; assumption. }
  rewrite Hpromo in Hx0. injection Hx0 as <- _ _ _ _.
  destruct (capturedPawnPos _ _ _ _ _) as [[cr cc]|] eqn:Hcap.
  - apply wr_Some in Hx1 as [_ ->].
    unfold capturedPawnPos in Hcap. destruct (enPassantTarget g) as [[er ec]|]; [|discriminate].
    destruct (_ && _); [|discriminate]. injection Hcap as <- <-.
    rewrite !cellAt_put. repeat case_decide; simplify_eq; try reflexivity; lia.
  - injection Hx1 as <-.
    rewrite !cellAt_put. repeat case_decide; simplify_eq; try reflexivity; lia.
Qed.

(** A legal pawn move over two rows is the double step from the start row. *)
Lemma double_step_shape g fromRow fromCol toRow toCol gv ms p :
  rd (board g) fromRow fromCol = Some (Obj p) →
  getValidMoves g fromRow fromCol = Some (gv, ms) → (toRow, toCol) ∈ ms →
  type p = PAWN → Z.abs (toRow - fromRow) = 2 →
  toCol = fromCol ∧ toRow = fromRow + 2 * direction (color p) ∧
  fromRow = match color p with WHITE => 6 | BLACK => 1 end.
Proof.
  intros Hp Hvm Hin Hty Habs. apply rd_Some in Hp as [_ Hp].
  destruct (getValidMoves_candidates _ _ _ _ _ _ Hvm Hin) as (p' & moves & Hp' & _ & Hc & Hin').
  rewrite <- Hp in Hp'. injection Hp' as <-.
  unfold candidateMoves in Hc. rewrite Hty in Hc.
  destruct (getPawnMoves_shape _ _ _ _ _ Hc Hin') as (pc & Hpc & Hshape).
  rewrite <- Hp in Hpc. injection Hpc as <-.
  destruct Hshape as [Hrow|[Heq Hstart]]; simpl in *.
  - destruct (color p); simpl in *; lia.
  - injection Heq as -> ->. auto.
Qed.

Lemma targetBehindPawn_setResult g res :
  targetBehindPawn g → targetBehindPawn (setResult g res).
Proof. intros H er ec. apply H. Qed.

(** After the move is applied, and before the terminal evaluation, the
    target, if any, lies behind the pawn that has just advanced. *)
Lemma applied_targetBehindPawn g fromRow fromCol toRow toCol p gv ms g1 :
  rd (board g) fromRow fromCol = Some (Obj p) → color p = currentPlayer g →
  getValidMoves g fromRow fromCol = Some (gv, ms) → (toRow, toCol) ∈ ms →
  applyMove gv p fromRow fromCol toRow toCol = Some g1 →
  targetBehindPawn g1.
Proof.
  intros Hp Hcol Hvm Hin Happ.
  destruct (applyMove_fields _ _ _ _ _ _ _ Happ) as (Hcur & _ & _ & Hep).
  destruct (getValidMoves_setBoard _ _ _ _ _ Hvm) as [bd ->].
  intros er ec Het. rewrite Het in Hep.
  destruct (bool_decide (type p = PAWN)) eqn:Hty; [|discriminate].
  destruct (Z.abs (toRow - fromRow) =? 2) eqn:Habs; [|discriminate].
  apply bool_decide_eq_true_1 in Hty. apply Z.eqb_eq in Habs.
  simpl in Hep. injection Hep as -> ->.
  destruct (double_step_shape _ _ _ _ _ _ _ _ Hp Hvm Hin Hty Habs) as (-> & Hto & Hfrom).
  rewrite Hcur. simpl. rewrite <- Hcol.
  assert (Hmid : (fromRow + toRow) `div` 2 = fromRow + direction (color p)).
  { rewrite Hto. replace (fromRow + (fromRow + 2 * direction (color p)))
      with ((fromRow + direction (color p)) * 2) by lia.
    apply Z.div_mul. lia. }
  rewrite Hmid. split.
  - destruct (color p); simpl in *; lia.
  - replace (fromRow + direction (color p) - direction (opponent (color p)))
      with toRow by (destruct (color p); simpl in *; lia).
    rewrite (applyMove_double_step _ _ _ _ _ _ _ Happ Hty Habs)
      by (destruct (color p); simpl in *; lia).
    destruct p as [t c]; simpl in *; subst t. destruct c; reflexivity.
Qed.

(** A call that returns [true], step by step: the piece moved, the move
    applied, and the verdict that sets the game-over flag and the result. *)
Lemma makeMove_anatomy g fromRow fromCol toRow toCol g' :
  makeMove g fromRow fromCol toRow toCol = Some (g', true) →
  ∃ p gv ms g1 inCheck hasMoves,
    rd (board g) fromRow fromCol = Some (Obj p) ∧ color p = currentPlayer g ∧
    getValidMoves g fromRow fromCol = Some (gv, ms) ∧ (toRow, toCol) ∈ ms ∧
    applyMove gv p fromRow fromCol toRow toCol = Some g1 ∧
    targetBehindPawn g1 ∧
    isInCheck (board g1) (currentPlayer g1) = Some inCheck ∧
    hasLegalMoves g1 (currentPlayer g1) = Some (g1, hasMoves) ∧
    g' = match verdict (currentPlayer g1) inCheck hasMoves (halfMoveClock g1) with
         | Some res => setResult g1 res
         | None => g1
         end.
Proof.
  intros H. apply makeMove_true in H as (p & gv & ms & g1 & Hp & Hcol & Hvm & Hin & Happ & Hend).
  pose proof (applied_targetBehindPawn _ _ _ _ _ _ _ _ _ Hp Hcol Hvm Hin Happ) as Hg1.
  destruct (checkGameEnd_verdict _ _ Hg1 Hend) as (inCheck & hasMoves & Hchk & Hhas & ->).
  exists p, gv, ms, g1, inCheck, hasMoves. auto 10.
Qed.

(** Every successful move leaves the target, if any, behind the pawn that
    has just advanced. *)
Lemma makeMove_targetBehindPawn g fromRow fromCol toRow toCol g' :
  makeMove g fromRow fromCol toRow toCol = Some (g', true) → targetBehindPawn g'.
Proof.
  intros H.
  apply makeMove_anatomy in H as (p & gv & ms & g1 & ic & hm & _ & _ & _ & _ & _ & Hg1 & _ & _ & ->).
  destruct (verdict _ _ _ _); [apply targetBehindPawn_setResult|]; exact Hg1.
Qed.

Lemma reachable_targetBehindPawn g : reachable g → targetBehindPawn g.
Proof.
  induction 1 as [i1 i2 i3 i4 i5 g fen Hinit|g fr fc tr tc g' _ _ Hmove|g over res _ IH].
  - unfold initializeChess960 in Hinit.
    bind_inv Hinit. bind_inv Hinit. bind_inv Hinit. bind_inv Hinit.
    injection Hinit as <- _. intros er ec Het. discriminate.
  - eapply makeMove_targetBehindPawn, Hmove.
  - intros er ec. apply IH.
Qed.

(** ** Rejected moves *)

(** In a position of a game, a call of [makeMove] that returns [false]
    leaves the whole state as it was; and the call returns [false] when
    the source square holds no piece or a piece of the side that is not to
    move, and when [getValidMoves] returns a list without the target.  A
    call that raises is another matter ([makeMoveE]). *)
Lemma rejected_move_changes_nothing g fromRow fromCol toRow toCol :
  reachable g →
  (∀ x, rd (board g) fromRow fromCol = Some x → truthy x = false →
        makeMove g fromRow fromCol toRow toCol = Some (g, false)) ∧
  (∀ p, rd (board g) fromRow fromCol = Some (Obj p) → color p ≠ currentPlayer g →
        makeMove g fromRow fromCol toRow toCol = Some (g, false)) ∧
  (∀ gv ms, getValidMoves g fromRow fromCol = Some (gv, ms) → (toRow, toCol) ∉ ms →
        makeMove g fromRow fromCol toRow toCol = Some (g, false)) ∧
  (∀ g', makeMove g fromRow fromCol toRow toCol = Some (g', false) → g' = g).
Proof.
  intros Hreach. pose proof (reachable_targetBehindPawn _ Hreach) as Hep.
  repeat split.
  - intros x Hx Hempty. unfold makeMove. rewrite Hx. simpl.
    destruct x; [reflexivity..|discriminate].
  - intros p Hp Hcol. unfold makeMove. rewrite Hp. simpl.
    rewrite bool_decide_eq_true_2 by exact Hcol. reflexivity.
  - intros gv ms Hvm Hnot.
    pose proof (getValidMoves_restores _ _ _ _ _ Hep Hvm) as ->.
    unfold makeMove.
    destruct (rd (board g) fromRow fromCol) as [x|] eqn:Hx; simpl;
      [|unfold getValidMoves in Hvm; rewrite Hx in Hvm; discriminate].
    destruct x as [| |p]; try reflexivity.
    case_bool_decide; [reflexivity|].
    rewrite Hvm. simpl.
    destruct (hasMove ms toRow toCol) eqn:Hm; [|reflexivity].
    apply hasMove_elem in Hm. contradiction.
  - intros g' H. unfold makeMove in H. bind_inv H.
    destruct x as [| |p]; try (injection H as <-; reflexivity).
    case_bool_decide; [injection H as <-; reflexivity|].
    bind_inv H. destruct x as [gv ms]. simpl in H.
    destruct (hasMove ms toRow toCol).
    + bind_inv H. bind_inv H. discriminate.
    + injection H as <-. eapply getValidMoves_restores; eauto.
Qed.

Lemma rejected_move_changes_nothing_witness :
  ∃ g, newGame 1 2 2 1 2 = Some g ∧
       makeMove g 5 0 4 0 = Some (g, false) ∧
       makeMove g 1 0 2 0 = Some (g, false) ∧
       makeMove g 6 0 3 0 = Some (g, false).
Proof.
  destruct (checked (g ← newGame 1 2 2 1 2; vm ← getValidMoves g 6 0; Some (g, vm))
    (λ x, rd (board x.1) 5 0 = Some Null ∧
          rd (board x.1) 1 0 = Some (Obj (mkPiece PAWN BLACK)) ∧
          currentPlayer x.1 = WHITE ∧ x.2.2 = [(5, 0); (4, 0)]))
    as ([g [gv ms]] & Hrun & Hempty & Hblack & Hwhite & Hms); [by_evaluation|].
  cbn [fst snd] in Hempty, Hblack, Hwhite, Hms. subst ms. unpack_run Hrun.
  destruct (rejected_move_changes_nothing g 5 0 4 0) as (H1 & _);
    [eapply newGame_reachable; eassumption|].
  destruct (rejected_move_changes_nothing g 1 0 2 0) as (_ & H2 & _);
    [eapply newGame_reachable; eassumption|].
  destruct (rejected_move_changes_nothing g 6 0 3 0) as (_ & _ & H3 & _);
    [eapply newGame_reachable; eassumption|].
  exists g. split; [assumption|].
  split; [exact (H1 _ Hempty eq_refl)|].
  split; [apply (H2 _ Hblack); rewrite Hwhite; discriminate|].
  eapply H3; [eassumption|].
  intros Hin. repeat (apply elem_of_cons in Hin as [[=]|Hin]). inversion Hin.
Defined.

(** ** The game-over flag and the result are never read *)

Lemma candidateMoves_withOutcome g over res p row col :
  candidateMoves (withOutcome g over res) p row col = candidateMoves g p row col.
Proof. reflexivity. Qed.

Lemma getValidMoves_withOutcome g over res row col :
  getValidMoves (withOutcome g over res) row col =
  (λ r, (withOutcome r.1 over res, r.2)) <$> getValidMoves g row col.
Proof.
  unfold getValidMoves.
  change (board (withOutcome g over res)) with (board g).
  change (currentPlayer (withOutcome g over res)) with (currentPlayer g).
  change (enPassantTarget (withOutcome g over res)) with (enPassantTarget g).
  destruct (rd (board g) row col) as [[| |p]|]; try reflexivity. simpl.
  case_bool_decide; [reflexivity|].
  rewrite candidateMoves_withOutcome.
  destruct (candidateMoves g p row col) as [moves|]; [|reflexivity]. simpl.
  destruct (filterMoves _ _ _ _ _ _) as [[bd ms]|]; reflexivity.
Qed.

Lemma hasLegalMovesFrom_withOutcome over res c l : ∀ g,
  hasLegalMovesFrom (withOutcome g over res) c l =
  (λ r, (withOutcome r.1 over res, r.2)) <$> hasLegalMovesFrom g c l.
Proof.
  induction l as [|[r k] l IH]; intros g; [reflexivity|]. simpl.
  change (board (withOutcome g over res)) with (board g).
  destruct (rd (board g) r k) as [[| |p]|]; simpl; try apply IH; [|reflexivity].
  case_bool_decide; [|apply IH].
  rewrite getValidMoves_withOutcome.
  destruct (getValidMoves g r k) as [[g1 [|m ms]]|]; simpl; [apply IH|reflexivity..].
Qed.

(** C8.  After a successful [makeMove] the other side is to move, and the
    game-over flag and the result are those of the evaluation of that side
    in the new position: checkmate (in check, no legal move) first, naming
    the other side as the winner, then stalemate (not in check, no legal
    move), then the fifty-move draw (a legal move exists and the half-move
    clock is at least 100); when none applies, flag and result are left as
    they were.  The four cases exclude one another. *)
Theorem terminal_evaluation_after_move g fromRow fromCol toRow toCol g' :
  makeMove g fromRow fromCol toRow toCol = Some (g', true) →
  let side := currentPlayer g' in
  side = opponent (currentPlayer g) ∧
  ∃ inCheck hasMoves,
    isInCheck (board g') side = Some inCheck ∧
    hasLegalMoves g' side = Some (g', hasMoves) ∧
    (inCheck = true → hasMoves = false →
       gameOver g' = true ∧
       gameResult g' = Some (match side with
                             | WHITE => "Black wins" | BLACK => "White wins"
                             end)%string) ∧
    (inCheck = false → hasMoves = false →
       gameOver g' = true ∧ gameResult g' = Some "Stalemate"%string) ∧
    (hasMoves = true → 100 ≤ halfMoveClock g' →
       gameOver g' = true ∧ gameResult g' = Some "Draw by fifty-move rule"%string) ∧
    (hasMoves = true → halfMoveClock g' < 100 →
       gameOver g' = gameOver g ∧ gameResult g' = gameResult g).
Proof.
  intros H.
  apply makeMove_anatomy in H
    as (p & gv & ms & g1 & inCheck & hasMoves & Hp & Hcol & Hvm & Hin & Happ & Hg1 & Hchk & Hhas & ->).
  destruct (applyMove_fields _ _ _ _ _ _ _ Happ) as (Hcur & Hover & Hres & _).
  destruct (getValidMoves_setBoard _ _ _ _ _ Hvm) as [bd ->].
  simpl in Hcur, Hover, Hres.
  assert (Hsame : ∀ res, hasLegalMoves (setResult g1 res) (currentPlayer g1)
                         = Some (setResult g1 res, hasMoves)).
  { intros res. unfold hasLegalMoves, setResult in *.
    rewrite hasLegalMovesFrom_withOutcome, Hhas. reflexivity. }
  unfold verdict.
  destruct inCheck, hasMoves; simpl.
  - destruct (100 <=? halfMoveClock g1) eqn:Hclock; simpl;
      (split; [exact Hcur|]); exists true, true;
      (split; [exact Hchk|]); (split; [auto|]);
      repeat split; intros; try discriminate; try reflexivity; try assumption;
      simpl in *; lia.
  - split; [exact Hcur|]. exists true, false.
    split; [exact Hchk|]. split; [apply Hsame|].
    repeat split; intros; try discriminate; reflexivity.
  - destruct (100 <=? halfMoveClock g1) eqn:Hclock; simpl;
      (split; [exact Hcur|]); exists false, true;
      (split; [exact Hchk|]); (split; [auto|]);
      repeat split; intros; try discriminate; try reflexivity; try assumption;
      simpl in *; lia.
  - split; [exact Hcur|]. exists false, false.
    split; [exact Hchk|]. split; [apply Hsame|].
    repeat split; intros; try discriminate; reflexivity.
Qed.

Lemma terminal_evaluation_after_move_witness :
  ∃ g g', newGame 1 2 2 1 2 = Some g ∧
          makeMove g 6 4 4 4 = Some (g', true) ∧
          currentPlayer g' = opponent (currentPlayer g) ∧
          ∃ inCheck hasMoves,
            isInCheck (board g') (currentPlayer g') = Some inCheck ∧
            hasLegalMoves g' (currentPlayer g') = Some (g', hasMoves).
Proof.
  destruct (checked (g ← newGame 1 2 2 1 2; r ← makeMove g 6 4 4 4; Some (g, r))
              (λ x, x.2.2 = true))
    as ([g [g' ok]] & Hrun & Hok); [by_evaluation|].
  cbn [fst snd] in Hok. subst ok. unpack_run Hrun.
  destruct (terminal_evaluation_after_move g 6 4 4 4 g') as (Hside & ic & hm & Hic & Hhm & _);
    [assumption|].
  exists g, g'. repeat (split; [assumption|]). exists ic, hm. split; assumption.
Defined.

(** ** The en passant target *)

(** A successful move sets the target exactly when a pawn advanced two
    rows; the move is then the double step from the pawn's start row and
    the target is the square it passed over. *)
Lemma makeMove_enPassantTarget g fromRow fromCol toRow toCol g' :
  makeMove g fromRow fromCol toRow toCol = Some (g', true) →
  ∃ p, rd (board g) fromRow fromCol = Some (Obj p) ∧
    color p = currentPlayer g ∧ currentPlayer g' = opponent (currentPlayer g) ∧
    ((type p = PAWN ∧ Z.abs (toRow - fromRow) = 2 ∧
      toCol = fromCol ∧ toRow = fromRow + 2 * direction (color p) ∧
      fromRow = match color p with WHITE => 6 | BLACK => 1 end ∧
      enPassantTarget g' = Some (fromRow + direction (color p), fromCol))
     ∨ (¬ (type p = PAWN ∧ Z.abs (toRow - fromRow) = 2) ∧ enPassantTarget g' = None)).
Proof.
  intros H.
  apply makeMove_anatomy in H
    as (p & gv & ms & g1 & inCheck & hasMoves & Hp & Hcol & Hvm & Hin & Happ & _ & _ & _ & ->).
  destruct (applyMove_fields _ _ _ _ _ _ _ Happ) as (Hcur & _ & _ & Hep).
  destruct (getValidMoves_setBoard _ _ _ _ _ Hvm) as [bd ->]. simpl in Hcur.
  assert (Hfields : ∀ g2, g2 = match verdict (currentPlayer g1) inCheck hasMoves
                                        (halfMoveClock g1) with
                               | Some res => setResult g1 res | None => g1 end →
            currentPlayer g2 = currentPlayer g1 ∧ enPassantTarget g2 = enPassantTarget g1).
  { intros g2 ->. destruct (verdict _ _ _ _); split; reflexivity. }
  destruct (Hfields _ eq_refl) as [-> ->]. clear Hfields.
  exists p. do 3 (split; [assumption|]).
  destruct (bool_decide (type p = PAWN)) eqn:Hty;
    [apply bool_decide_eq_true_1 in Hty|apply bool_decide_eq_false_1 in Hty].
  - destruct (Z.abs (toRow - fromRow) =? 2) eqn:Habs;
      [apply Z.eqb_eq in Habs|apply Z.eqb_neq in Habs]; simpl in Hep.
    + left.
      destruct (double_step_shape _ _ _ _ _ _ _ _ Hp Hvm Hin Hty Habs) as (Hc & Hto & Hfrom).
      do 5 (split; [assumption|]). rewrite Hep. do 2 f_equal.
      rewrite Hto. replace (fromRow + (fromRow + 2 * direction (color p)))
        with ((fromRow + direction (color p)) * 2) by lia.
      apply Z.div_mul. lia.
    + right. split; [tauto|assumption].
  - right. simpl in Hep. split; [tauto|assumption].
Qed.

(** C9.  After a successful [makeMove] the en passant target is set
    exactly when the move was a pawn's advance by two rows; it is then
    the square the pawn passed over.  The next successful move, whatever
    it is, leaves a target different from it or none: a target lives for
    one ply. *)
Theorem en_passant_target_lives_one_ply g fromRow fromCol toRow toCol g' :
  makeMove g fromRow fromCol toRow toCol = Some (g', true) →
  ∃ p, rd (board g) fromRow fromCol = Some (Obj p) ∧
    (enPassantTarget g' ≠ None ↔ type p = PAWN ∧ Z.abs (toRow - fromRow) = 2) ∧
    (type p = PAWN → Z.abs (toRow - fromRow) = 2 →
       toCol = fromCol ∧ toRow = fromRow + 2 * direction (color p) ∧
       enPassantTarget g' = Some (fromRow + direction (color p), fromCol)) ∧
    (∀ fromRow' fromCol' toRow' toCol' g'',
       makeMove g' fromRow' fromCol' toRow' toCol' = Some (g'', true) →
       enPassantTarget g' ≠ None → enPassantTarget g'' ≠ enPassantTarget g').
Proof.
  intros H.
  destruct (makeMove_enPassantTarget _ _ _ _ _ _ H) as (p & Hp & Hcol & Hcur & Hcase).
  exists p. split; [assumption|].
  split; [|split].
  - destruct Hcase as [(Hty & Habs & _ & _ & _ & Hep)|[Hno Hep]]; rewrite Hep.
    + split; [auto|discriminate].
    + split; [congruence|]. intros Hyes. contradiction.
  - intros Hty Habs.
    destruct Hcase as [(_ & _ & Hc & Hto & _ & Hep)|[Hno _]]; [auto|tauto].
  - intros fr' fc' tr' tc' g'' H' Hset.
    destruct Hcase as [(_ & _ & _ & _ & Hfrom & Hep)|[_ Hep]]; [|contradiction].
    destruct (makeMove_enPassantTarget _ _ _ _ _ _ H') as (q & _ & Hcolq & _ & Hcase').
    destruct Hcase' as [(_ & _ & _ & _ & Hfrom' & Hep')|[_ Hep']];
      rewrite Hep, Hep'; [|discriminate].
    rewrite Hcolq, Hcur, <- Hcol in Hfrom'. rewrite Hcolq, Hcur, <- Hcol.
    intros [= Hrow _]. destruct (color p); simpl in *; lia.
Qed.

Lemma en_passant_target_lives_one_ply_witness :
  ∃ g g', newGame 1 2 2 1 2 = Some g ∧
          makeMove g 6 4 4 4 = Some (g', true) ∧
          enPassantTarget g' = Some (5, 4) ∧
          ∀ g'', makeMove g' 1 4 3 4 = Some (g'', true) →
                 enPassantTarget g'' ≠ Some (5, 4).
Proof.
  destruct (checked (g ← newGame 1 2 2 1 2; r ← makeMove g 6 4 4 4; Some (g, r))
              (λ x, x.2.2 = true ∧
                    rd (board x.1) 6 4 = Some (Obj (mkPiece PAWN WHITE))))
    as ([g [g' ok]] & Hrun & Hok & Hpawn); [by_evaluation|].
  cbn [fst snd] in Hok, Hpawn. subst ok. unpack_run Hrun.
  destruct (en_passant_target_lives_one_ply g 6 4 4 4 g')
    as (p & Hp & _ & Hset & Hnext); [assumption|].
  rewrite Hpawn in Hp. injection Hp as <-.
  destruct (Hset eq_refl eq_refl) as (_ & _ & Hep).
  change (enPassantTarget g' = Some (5, 4)) in Hep.
  exists g, g'. do 3 (split; [assumption|]).
  intros g'' H''. rewrite <- Hep. eapply Hnext; [eassumption|]. rewrite Hep. discriminate.
Defined.

(** ** Moves after the end of the game *)

Lemma applyMove_withOutcome g over res p fromRow fromCol toRow toCol :
  applyMove (withOutcome g over res) p fromRow fromCol toRow toCol =
  (λ g1, withOutcome g1 over res) <$> applyMove g p fromRow fromCol toRow toCol.
Proof.
  unfold applyMove.
  cbn [board enPassantTarget halfMoveClock castlingRights currentPlayer
       moveHistory gameOver gameResult startPosition fullMoveNumber withOutcome].
  repeat match goal with
         | |- context [let '(_, _) := ?x in _] => destruct x
         | |- (?m ≫= _) = _ <$> (?m ≫= _) => destruct m; simpl; [|reflexivity]
         end.
  reflexivity.
Qed.

Lemma hasLegalMoves_withOutcome g over res c :
  hasLegalMoves (withOutcome g over res) c =
  (λ r, (withOutcome r.1 over res, r.2)) <$> hasLegalMoves g c.
Proof. apply hasLegalMovesFrom_withOutcome. Qed.

Lemma checkGameEnd_withOutcome g over res :
  forget <$> checkGameEnd (withOutcome g over res) = forget <$> checkGameEnd g.
Proof.
  unfold checkGameEnd, isInCheckmate, isInStalemate.
  change (board (withOutcome g over res)) with (board g).
  change (currentPlayer (withOutcome g over res)) with (currentPlayer g).
  destruct (isInCheck (board g) (currentPlayer g)) as [[|]|] eqn:Hchk;
    simpl; [| |reflexivity].
  - rewrite hasLegalMoves_withOutcome.
    destruct (hasLegalMoves g _) as [[g1 [|]]|]; simpl;
      [|reflexivity..].
    change (board (withOutcome g1 over res)) with (board g1).
    destruct (isInCheck (board g1) (currentPlayer g)) as [[|]|];
      simpl; [| |reflexivity].
    + change (halfMoveClock (withOutcome g1 over res)) with (halfMoveClock g1).
      destruct (100 <=? halfMoveClock g1); reflexivity.
    + rewrite hasLegalMoves_withOutcome.
      destruct (hasLegalMoves g1 _) as [[g2 [|]]|];
        simpl; [|reflexivity..].
      change (halfMoveClock (withOutcome g2 over res)) with (halfMoveClock g2).
      destruct (100 <=? halfMoveClock g2); reflexivity.
  - change (board (withOutcome g over res)) with (board g). rewrite Hchk.
    simpl.
    rewrite hasLegalMoves_withOutcome.
    destruct (hasLegalMoves g _) as [[g1 [|]]|];
      simpl; [|reflexivity..].
    change (halfMoveClock (withOutcome g1 over res)) with (halfMoveClock g1).
    destruct (100 <=? halfMoveClock g1); reflexivity.
Qed.

(** [makeMove] does not read the game-over flag or the result: started
    with other values of the two, it returns the same answer and leaves
    the same state, the two fields apart. *)
Lemma makeMove_withOutcome g over res fromRow fromCol toRow toCol :
  (λ r, (forget r.1, r.2)) <$> makeMove (withOutcome g over res) fromRow fromCol toRow toCol
  = (λ r, (forget r.1, r.2)) <$> makeMove g fromRow fromCol toRow toCol.
Proof.
  unfold makeMove.
  change (board (withOutcome g over res)) with (board g).
  change (currentPlayer (withOutcome g over res)) with (currentPlayer g).
  destruct (rd (board g) fromRow fromCol) as [[| |p]|]; try reflexivity. simpl.
  case_bool_decide; [reflexivity|].
  rewrite getValidMoves_withOutcome.
  destruct (getValidMoves g fromRow fromCol) as [[gv ms]|]; simpl; [|reflexivity].
  destruct (hasMove ms toRow toCol); [|reflexivity].
  rewrite applyMove_withOutcome.
  destruct (applyMove gv p fromRow fromCol toRow toCol) as [g1|]; simpl; [|reflexivity].
  pose proof (checkGameEnd_withOutcome g1 over res) as Hend.
  destruct (checkGameEnd (withOutcome g1 over res)), (checkGameEnd g1);
    simpl in *; congruence.
Qed.

(** C10.  [makeMove] never consults the game-over flag: its answer and
    the state it leaves do not depend on the flag or the stored result.
    In the game [gameHundredPlies] the fifty-move rule has ended the game
    (flag set, result "Draw by fifty-move rule") with Black to move and
    legal moves left; the next call, Qd8-h4, returns [true], changes the
    board, mates White, and the evaluation overwrites the stored result
    with "Black wins". *)
Theorem moves_accepted_after_game_over :
  (∀ g over res fromRow fromCol toRow toCol,
     (λ r, (forget r.1, r.2)) <$> makeMove (withOutcome g over res) fromRow fromCol toRow toCol
     = (λ r, (forget r.1, r.2)) <$> makeMove g fromRow fromCol toRow toCol) ∧
  ∃ g g',
    gameHundredPlies = Some g ∧ reachable g ∧
    makeMove g 0 3 4 7 = Some (g', true) ∧
    gameOver g = true ∧
    gameResult g = Some "Draw by fifty-move rule"%string ∧
    halfMoveClock g = 100 ∧
    currentPlayer g = BLACK ∧
    hasLegalMoves g BLACK = Some (g, true) ∧
    rd (board g) 0 3 = Some (Obj (mkPiece QUEEN BLACK)) ∧
    rd (board g) 4 7 = Some Null ∧
    rd (board g') 0 3 = Some Null ∧
    rd (board g') 4 7 = Some (Obj (mkPiece QUEEN BLACK)) ∧
    gameOver g' = true ∧
    gameResult g' = Some "Black wins"%string.
Proof.
  split; [intros; apply makeMove_withOutcome|].
  destruct (checked
    (g ← gameHundredPlies; r ← makeMove g 0 3 4 7; h ← hasLegalMoves g BLACK;
     Some (g, r, h))
    (λ x, let '(g, r, h) := x in
       r.2 = true ∧ h.2 = true ∧
       gameOver g = true ∧
       gameResult g = Some "Draw by fifty-move rule"%string ∧
       halfMoveClock g = 100 ∧
       currentPlayer g = BLACK ∧
       rd (board g) 0 3 = Some (Obj (mkPiece QUEEN BLACK)) ∧
       rd (board g) 4 7 = Some Null ∧
       rd (board r.1) 0 3 = Some Null ∧
       rd (board r.1) 4 7 = Some (Obj (mkPiece QUEEN BLACK)) ∧
       gameOver r.1 = true ∧
       gameResult r.1 = Some "Black wins"%string))
    as ([[g [g' ok]] [gh has]] & Hrun & Hok & Hhas & H1 & H2 & H3 & H4 & HP);
    [by_evaluation|].
  cbn [fst snd] in Hok, Hhas. subst ok has. unpack_run Hrun.
  assert (Hreach : reachable g) by (eapply game_reachable; eassumption).
  assert (gh = g) as ->.
  { eapply hasLegalMovesFrom_restores; [|eassumption].
    apply reachable_targetBehindPawn, Hreach. }
  exists g, g'. do 7 (split; [assumption|]). split; [assumption|]. exact HP.
Qed.

(** ** Castling rights are never given back *)

Lemma rightsLe_refl cr : rightsLe cr cr.
Proof. intros c. auto. Qed.

Lemma rightsLe_trans cr1 cr2 cr3 : rightsLe cr1 cr2 → rightsLe cr2 cr3 → rightsLe cr1 cr3.
Proof. intros H12 H23 c. destruct (H12 c), (H23 c). auto. Qed.

Lemma setRights_le cr c r :
  (kingSide r = true → kingSide (rightsOf cr c) = true) →
  (queenSide r = true → queenSide (rightsOf cr c) = true) →
  rightsLe (setRights cr c r) cr.
Proof.
  intros Hk Hq c'. destruct c, c', cr as [[? ?] [? ?]]; simpl in *; auto.
Qed.

Lemma rookRights_le bd cr p capturedPiece fromRow fromCol toCol cr' :
  rookRights bd cr p capturedPiece fromRow fromCol toCol = Some cr' → rightsLe cr' cr.
Proof.
  unfold rookRights. intros H.
  destruct (_ || _); [|injection H as <-; apply rightsLe_refl].
  destruct (_ =? homeRank _); [|injection H as <-; apply rightsLe_refl].
  bind_inv H. destruct (x =? -1); [injection H as <-; apply rightsLe_refl|].
  destruct (x <? _); injection H as <-; apply setRights_le; simpl; auto; discriminate.
Qed.

(** Across a successful move no castling flag goes from unset to set, and
    a king's move leaves both flags of its colour unset. *)
Lemma makeMove_rights g fromRow fromCol toRow toCol g' :
  makeMove g fromRow fromCol toRow toCol = Some (g', true) →
  rightsLe (castlingRights g') (castlingRights g) ∧
  ∀ p, rd (board g) fromRow fromCol = Some (Obj p) → type p = KING →
       rightsOf (castlingRights g') (color p) = mkRights false false.
Proof.
  intros H.
  apply makeMove_anatomy in H
    as (p & gv & ms & g1 & inCheck & hasMoves & Hp & _ & Hvm & _ & Happ & _ & _ & _ & ->).
  destruct (getValidMoves_setBoard _ _ _ _ _ Hvm) as [bd ->].
  assert (Hsame : castlingRights (match verdict (currentPlayer g1) inCheck hasMoves
                                          (halfMoveClock g1) with
                                  | Some res => setResult g1 res | None => g1 end)
                  = castlingRights g1) by (destruct (verdict _ _ _ _); reflexivity).
  rewrite Hsame. clear Hsame.
  unfold applyMove in Happ.
  bind_inv Happ. bind_inv Happ. bind_inv Happ. bind_inv Happ.
  destruct x2 as [[[[bd4 ep] clock] enP] promo].
  bind_inv Happ. destruct x2 as [[bd5 cast] cr1]. bind_inv Happ.
  injection Happ as <-. simpl.
  apply rookRights_le in Hx4.
  destruct (bool_decide (type p = KING)) eqn:Hking.
  - bind_inv Hx3. injection Hx3 as _ _ <-.
    split.
    + eapply rightsLe_trans; [exact Hx4|]. apply setRights_le; discriminate.
    + intros p' Hp' _. rewrite Hp in Hp'. injection Hp' as <-.
      destruct (Hx4 (color p)) as [Hk Hq].
      destruct (color p), x2 as [[[|] [|]] [[|] [|]]], (castlingRights g) as [? ?];
        simpl in *; try reflexivity;
        try (specialize (Hk eq_refl); discriminate);
        try (specialize (Hq eq_refl); discriminate).
  - injection Hx3 as _ _ <-. split; [exact Hx4|].
    intros p' Hp' Hty. rewrite Hp in Hp'. injection Hp' as <-.
    apply bool_decide_eq_false_1 in Hking. contradiction.
Qed.

(** C4 (the code departs from it).  No flag is ever set again and a king's
    move clears both flags of its colour ([makeMove_rights]), but a flag is
    not always cleared when its rook is captured.  In a position reached by
    play the black bishop takes the rook on h1, the rook White started with
    on the king's side, and White's king-side flag stays set: the update
    compares the row the capturing piece came from with the home rank. *)
Theorem captured_rook_keeps_castling_right :
  ∃ g g',
    gameBishopTakesRook = Some g ∧ reachable g ∧
    makeMove g 1 1 7 7 = Some (g', true) ∧
    rd (board g) 1 1 = Some (Obj (mkPiece BISHOP BLACK)) ∧
    rd (board g) 7 7 = Some (Obj (mkPiece ROOK WHITE)) ∧
    kingSide (w (castlingRights g)) = true ∧
    rd (board g') 7 7 = Some (Obj (mkPiece BISHOP BLACK)) ∧
    kingSide (w (castlingRights g')) = true.
Proof.
  destruct (checked
    (g ← gameBishopTakesRook; r ← makeMove g 1 1 7 7; Some (g, r))
    (λ x, let '(g, r) := x in
       r.2 = true ∧
       rd (board g) 1 1 = Some (Obj (mkPiece BISHOP BLACK)) ∧
       rd (board g) 7 7 = Some (Obj (mkPiece ROOK WHITE)) ∧
       kingSide (w (castlingRights g)) = true ∧
       rd (board r.1) 7 7 = Some (Obj (mkPiece BISHOP BLACK)) ∧
       kingSide (w (castlingRights r.1)) = true))
    as ([g [g' ok]] & Hrun & Hok & HP); [by_evaluation|].
  simpl in Hok; subst ok. unpack_run Hrun.
  exists g, g'. split; [assumption|].
  split; [eapply game_reachable; eassumption|]. split; [assumption|]. exact HP.
Qed.

(** ** The attack oracle and the pieces of the defending side *)

Lemma concatM_ext {A B} (f f' : A → option (list B)) l :
  (∀ a, f a = f' a) → concatM f l = concatM f' l.
Proof. intros H. induction l as [|a l IH]; simpl; [reflexivity|]. rewrite H, IH. reflexivity. Qed.

Lemma someM_ext {A} (f f' : A → option bool) l :
  (∀ a, f a = f' a) → someM f l = someM f' l.
Proof. intros H. induction l as [|a l IH]; simpl; [reflexivity|]. rewrite H, IH. reflexivity. Qed.

Lemma freeOrEnemy_shade x x' y y' :
  shade x = shade x' → shade y = shade y' → freeOrEnemy x y = freeOrEnemy x' y'.
Proof.
  destruct x as [| |p], x' as [| |p']; try discriminate; try reflexivity;
    destruct y as [| |q], y' as [| |q']; try discriminate; try reflexivity;
    simpl; intros [= ->] [= ->]; reflexivity.
Qed.

Section Alike.
Context (c0 : Color) (bd bd' : Board) (Halike : alikeFor c0 bd bd').

Lemma alike_shade r k : shade (cellAt bd r k) = shade (cellAt bd' r k).
Proof.
  destruct (Halike r k) as [->|(t & t' & _ & _ & -> & ->)]; reflexivity.
Qed.

Lemma alike_rd_shade r k : shade <$> rd bd r k = shade <$> rd bd' r k.
Proof. unfold rd. destruct (isRow r); simpl; [|reflexivity]. f_equal. apply alike_shade. Qed.

(** Reading a cell of either board: both reads succeed or both raise, and
    the cells read have the same shade. *)
Lemma alike_rd r k :
  (rd bd r k = None ∧ rd bd' r k = None) ∨
  ∃ x x', rd bd r k = Some x ∧ rd bd' r k = Some x' ∧ shade x = shade x'.
Proof.
  unfold rd. destruct (isRow r); [right|left; auto].
  eexists _, _. repeat split. apply alike_shade.
Qed.

Lemma alike_getKnightMoves r k : getKnightMoves bd r k = getKnightMoves bd' r k.
Proof.
  unfold getKnightMoves.
  destruct (alike_rd r k) as [[-> ->]|(x & x' & -> & -> & Hx)];
    [cbn [mbind option_bind]; reflexivity|].
  cbn [mbind option_bind].
  apply concatM_ext. intros [dr dc]. cbn [fst snd].
  destruct (isWithinBoard _ _); [|reflexivity].
  destruct (alike_rd (r + dr) (k + dc)) as [[-> ->]|(y & y' & -> & -> & Hy)];
    [cbn [mbind option_bind]; reflexivity|].
  simpl. rewrite (freeOrEnemy_shade _ _ _ _ Hy Hx). reflexivity.
Qed.

Lemma alike_slide x x' rowDir colDir : shade x = shade x' →
  ∀ n r k, slide n bd x r k rowDir colDir = slide n bd' x' r k rowDir colDir.
Proof.
  intros Hx. induction n as [|n IH]; intros r k; [reflexivity|]. simpl.
  destruct (isWithinBoard r k); [|reflexivity].
  destruct (alike_rd r k) as [[-> ->]|(y & y' & -> & -> & Hy)];
    [cbn [mbind option_bind]; reflexivity|]. simpl.
  destruct y as [| |p], y' as [| |p']; try discriminate; try reflexivity.
  - rewrite IH. reflexivity.
  - injection Hy as Hy. simpl. rewrite Hy.
    destruct x as [| |q], x' as [| |q']; try discriminate; try reflexivity.
    injection Hx as Hx. simpl. rewrite Hx. reflexivity.
Qed.

Lemma alike_getSlidingMoves r k dirs :
  getSlidingMoves bd r k dirs = getSlidingMoves bd' r k dirs.
Proof.
  unfold getSlidingMoves.
  destruct (alike_rd r k) as [[-> ->]|(x & x' & -> & -> & Hx)];
    [cbn [mbind option_bind]; reflexivity|].
  cbn [mbind option_bind].
  apply concatM_ext. intros d. apply alike_slide, Hx.
Qed.

Lemma alike_attacksFrom row col rc :
  attacksFrom bd row col (opponent c0) rc = attacksFrom bd' row col (opponent c0) rc.
Proof.
  destruct rc as [r k]. unfold attacksFrom, rd.
  destruct (isRow r); [|reflexivity]. simpl.
  destruct (Halike r k) as [<-|(t & t' & _ & _ & -> & ->)].
  - destruct (cellAt bd r k) as [| |p]; try reflexivity.
    case_bool_decide; [|reflexivity].
    unfold getBishopMoves, getRookMoves, getQueenMoves.
    destruct (type p);
      rewrite ?alike_getKnightMoves, ?alike_getSlidingMoves; reflexivity.
  - simpl. rewrite !bool_decide_eq_false_2 by (destruct c0; discriminate). reflexivity.
Qed.

Lemma alike_isSquareUnderAttack row col :
  isSquareUnderAttack bd row col c0 = isSquareUnderAttack bd' row col c0.
Proof. unfold isSquareUnderAttack. apply someM_ext. apply alike_attacksFrom. Qed.

Lemma alike_findKing l : findKing bd c0 l = findKing bd' c0 l.
Proof.
  induction l as [|[r k] l IH]; [reflexivity|]. simpl. unfold rd.
  destruct (isRow r); [|reflexivity]. simpl.
  destruct (Halike r k) as [<-|(t & t' & Ht & Ht' & -> & ->)].
  - rewrite IH. reflexivity.
  - simpl. rewrite !(bool_decide_eq_false_2 (_ = KING)) by assumption. simpl. exact IH.
Qed.

(** Whether [c0] is in check does not depend on the types of its own
    pieces other than the king. *)
Lemma alike_isInCheck : isInCheck bd c0 = isInCheck bd' c0.
Proof.
  unfold isInCheck. rewrite alike_findKing.
  destruct (findKing bd' c0 squares) as [k|]; [|reflexivity]. simpl.
  apply alike_isSquareUnderAttack.
Qed.
End Alike.

(** ** Moves other than castling leave the mover's king safe *)

Lemma tryMove_verdict ep p row col bd mv bd' ok mp :
  tryMove ep p row col bd mv = Some (bd', ok) → cellAt bd row col = Obj mp →
  isInCheck (trialBoard ep mp bd row col mv.1 mv.2) (color p) = Some (negb ok).
Proof.
  destruct mv as [toRow toCol]. unfold tryMove, trialBoard. intros H Hmp.
  bind_inv H. bind_inv H. apply rd_Some in Hx0 as [_ ->]. rewrite Hmp in H.
  bind_inv H. injection Hx0 as <-.
  bind_inv H. apply wr_Some in Hx0 as [_ ->].
  bind_inv H. apply wr_Some in Hx0 as [_ ->].
  bind_inv H. bind_inv H. bind_inv H. bind_inv H. bind_inv H.
  injection H as _ <-. rewrite negb_involutive. cbn [fst snd].
  destruct (capturedPawnPos ep mp row toRow toCol) as [[cr cc]|].
  - apply wr_Some in Hx0 as [_ ->]. exact Hx1.
  - injection Hx0 as <-. exact Hx1.
Qed.

Lemma filterMoves_kept ep p row col mp moves : ∀ bd bd' ms mv,
  filterMoves ep p row col bd moves = Some (bd', ms) →
  cellAt bd row col = Obj mp →
  (∀ mv cr cc, mv ∈ moves →
     capturedPawnPos ep mp row mv.1 mv.2 = Some (cr, cc) →
     cellAt bd cr cc = Obj (mkPiece PAWN (opponent (color p)))) →
  mv ∈ ms →
  isInCheck (trialBoard ep mp bd row col mv.1 mv.2) (color p) = Some false.
Proof.
  induction moves as [|m moves IH]; simpl; intros bd bd' ms mv H Hmp Hcap Hin.
  - injection H as _ <-. inversion Hin.
  - bind_inv H. bind_inv H. injection H as _ <-.
    destruct x as [bd1 ok], x0 as [bd2 ms2]; cbn [fst snd] in *.
    assert (bd1 = bd) as ->.
    { eapply tryMove_restores; [exact Hx|].
      intros mp' cr cc Hmp'. rewrite Hmp in Hmp'. injection Hmp' as <-.
      apply Hcap. left. }
    assert (Hrest : mv ∈ ms2 →
              isInCheck (trialBoard ep mp bd row col mv.1 mv.2) (color p) = Some false).
    { intros Hin'. eapply IH; [exact Hx0|exact Hmp| |exact Hin'].
      intros mv' cr cc Hin''. apply Hcap. right. exact Hin''. }
    destruct ok; [|auto].
    apply elem_of_cons in Hin as [->|Hin]; [|auto].
    exact (tryMove_verdict _ _ _ _ _ _ _ _ _ Hx Hmp).
Qed.

(** After a move that is not a king's move over two files, the board
    is the trial board, up to the queen a promoted pawn has become. *)
Lemma applyMove_board g p fromRow fromCol toRow toCol g1 :
  applyMove g p fromRow fromCol toRow toCol = Some g1 →
  ¬ (type p = KING ∧ Z.abs (toCol - fromCol) = 2) →
  (type p = PAWN → toRow ≠ fromRow) →
  alikeFor (color p) (board g1)
           (trialBoard (enPassantTarget g) p (board g) fromRow fromCol toRow toCol).
Proof.
  unfold applyMove, trialBoard. intros H Hno Hrow.
  bind_inv H. bind_inv H. apply wr_Some in Hx0 as [_ ->].
  bind_inv H. apply wr_Some in Hx0 as [_ ->]. bind_inv H.
  destruct x0 as [[[[bd4 ep] clock] enP] promo].
  bind_inv H. destruct x0 as [[bd5 cast] cr1]. bind_inv H. injection H as <-. simpl.
  assert (bd5 = bd4) as ->.
  { destruct (bool_decide (type p = KING)) eqn:Hk; [|injection Hx1 as <- _ _; reflexivity].
    apply bool_decide_eq_true_1 in Hk. bind_inv Hx1. injection Hx1 as <- _ _.
    unfold castleRook in Hx3.
    destruct (Z.abs (toCol - fromCol) =? 2) eqn:Habs;
      [apply Z.eqb_eq in Habs; tauto|]. injection Hx3 as <-. reflexivity. }
  clear Hx1.
  destruct (bool_decide (type p = PAWN)) eqn:Hty.
  - apply bool_decide_eq_true_1 in Hty. specialize (Hrow Hty).
    apply bind_Some in Hx0 as (bd3 & Hbd3 & Hx0).
    assert (bd3 = match capturedPawnPos (enPassantTarget g) p fromRow toRow toCol with
                  | Some (cr, cc) =>
                      put (put (put (board g) toRow toCol (Obj p)) fromRow fromCol Null) cr cc Null
                  | None => put (put (board g) toRow toCol (Obj p)) fromRow fromCol Null
                  end) as Hb3.
    { destruct (capturedPawnPos _ _ _ _ _) as [[cr cc]|];
        [apply wr_Some in Hbd3 as [_ ->]|injection Hbd3 as <-]; reflexivity. }
    rewrite <- Hb3.
    destruct ((toRow =? 0) || (toRow =? 7)).
    + apply bind_Some in Hx0 as (bdq & Hbdq & Hx0).
      apply wr_Some in Hbdq as [_ ->]. injection Hx0 as <- _ _ _ _.
      intros r k. rewrite cellAt_put.
      destruct (decide ((r, k) = (toRow, toCol))) as [Heq|Hne]; [|left; reflexivity].
      injection Heq as -> ->. right. exists QUEEN, PAWN.
      do 2 (split; [discriminate|]). split; [reflexivity|].
      rewrite Hb3. unfold capturedPawnPos.
      destruct p as [t c]; simpl in *; subst t.
      destruct (enPassantTarget g) as [[er ec]|];
        [destruct (_ && _)|]; rewrite !cellAt_put;
        repeat case_decide; simplify_eq; reflexivity.
    + injection Hx0 as <- _ _ _ _. intros r k. left. reflexivity.
  - injection Hx0 as <- _ _ _ _. apply bool_decide_eq_false_1 in Hty.
    unfold capturedPawnPos. rewrite (bool_decide_eq_false_2 _ Hty).
    intros r k. left. destruct (enPassantTarget g) as [[? ?]|]; reflexivity.
Qed.

(** X1.  In a position of a game, every move [makeMove] accepts, castling
    apart, leaves the mover's king unattacked. *)
Lemma ordinary_move_keeps_king_safe g fromRow fromCol toRow toCol g' p :
  reachable g →
  makeMove g fromRow fromCol toRow toCol = Some (g', true) →
  rd (board g) fromRow fromCol = Some (Obj p) →
  ¬ (type p = KING ∧ Z.abs (toCol - fromCol) = 2) →
  isInCheck (board g') (color p) = Some false.
Proof.
  intros Hreach H Hp Hno. pose proof (reachable_targetBehindPawn _ Hreach) as Hep.
  apply makeMove_anatomy in H
    as (p' & gv & ms & g1 & inCheck & hasMoves & Hp' & Hcol & Hvm & Hin & Happ & _ & _ & _ & ->).
  rewrite Hp in Hp'. injection Hp' as <-.
  pose proof (getValidMoves_restores _ _ _ _ _ Hep Hvm) as ->.
  assert (Hboard : board (match verdict (currentPlayer g1) inCheck hasMoves
                                  (halfMoveClock g1) with
                          | Some res => setResult g1 res | None => g1 end) = board g1)
    by (destruct (verdict _ _ _ _); reflexivity).
  rewrite Hboard. clear Hboard.
  apply rd_Some in Hp as [_ Hp]. symmetry in Hp.
  assert (Hrow : type p = PAWN → toRow ≠ fromRow).
  { intros Hty.
    destruct (getValidMoves_candidates _ _ _ _ _ _ Hvm Hin) as (q & moves & Hq & _ & Hc & Hin').
    rewrite Hp in Hq. injection Hq as <-.
    unfold candidateMoves in Hc. rewrite Hty in Hc.
    destruct (getPawnMoves_shape _ _ _ _ _ Hc Hin') as (pc & _ & [Hs|[Hs _]]);
      [|injection Hs as -> _]; simpl in *; destruct pc; simpl in *; lia. }
  rewrite (alike_isInCheck _ _ _ (applyMove_board _ _ _ _ _ _ _ Happ Hno Hrow)).
  unfold getValidMoves in Hvm. unfold rd in Hvm.
  destruct (isRow fromRow); [|discriminate]. simpl in Hvm. rewrite Hp in Hvm.
  rewrite bool_decide_eq_false_2 in Hvm by (intros Hne; exact (Hne Hcol)).
  bind_inv Hvm. bind_inv Hvm. injection Hvm as _ <-.
  destruct x0 as [bd' ms']; cbn [fst snd] in *.
  apply (filterMoves_kept _ _ _ _ p _ _ _ _ (toRow, toCol) Hx0 Hp); [|exact Hin].
  intros mv cr cc Hin' Hcap. eapply pawn_trial_sound; eauto.
Qed.

(** C1 (the code departs from it).  For castling the property fails: the
    filter tries the king's step alone, and [makeMove] then moves the rook
    as well.  In a position reached by play, White castles king-side with a
    black queen behind the castling rook: [getValidMoves] offers the move,
    [makeMove] accepts it and moves the rook away, and White's own king is
    in check in the position that results.  For every other move the
    property holds ([ordinary_move_keeps_king_safe]). *)
Theorem castling_uncovers_own_king :
  ∃ g vm g',
    gameQueenBehindRook = Some g ∧ reachable g ∧
    getValidMoves g 7 3 = Some vm ∧
    makeMove g 7 3 7 5 = Some (g', true) ∧
    currentPlayer g = WHITE ∧
    rd (board g) 7 3 = Some (Obj (mkPiece KING WHITE)) ∧
    (7, 5) ∈ vm.2 ∧
    rd (board g') 7 5 = Some (Obj (mkPiece KING WHITE)) ∧
    rd (board g') 7 4 = Some (Obj (mkPiece ROOK WHITE)) ∧
    isInCheck (board g') WHITE = Some true.
Proof.
  destruct (checked
    (g ← gameQueenBehindRook; vm ← getValidMoves g 7 3;
     r ← makeMove g 7 3 7 5; Some (g, vm, r))
    (λ x, let '(g, vm, r) := x in
       r.2 = true ∧ currentPlayer g = WHITE ∧
       rd (board g) 7 3 = Some (Obj (mkPiece KING WHITE)) ∧
       (7, 5) ∈ vm.2 ∧
       rd (board r.1) 7 5 = Some (Obj (mkPiece KING WHITE)) ∧
       rd (board r.1) 7 4 = Some (Obj (mkPiece ROOK WHITE)) ∧
       isInCheck (board r.1) WHITE = Some true))
    as ([[g vm] [g' ok]] & Hrun & Hok & HP); [by_evaluation|].
  simpl in Hok; subst ok.
  apply bind_Some in Hrun as (g0 & Hg & Hrun).
  apply bind_Some in Hrun as (vm0 & Hvm & Hrun).
  apply bind_Some in Hrun as (r0 & Hmv & Hrun).
  injection Hrun as -> -> ->.
  exists g, vm, g'. split; [exact Hg|].
  split; [exact (game_reachable _ _ _ _ _ _ _ Hg)|]. split; [exact Hvm|].
  split; [exact Hmv|]. exact HP.
Qed.

(** ** What the castling block does test *)

Lemma allM_true {A} (f : A → option bool) l :
  allM f l = Some true → ∀ x, x ∈ l → f x = Some true.
Proof.
  induction l as [|a l IH]; simpl; intros H x Hin; [inversion Hin|].
  bind_inv H. destruct x0; [|discriminate].
  apply elem_of_cons in Hin as [->|Hin]; auto.
Qed.

Lemma castleSquareOk_true bd rank c i :
  castleSquareOk bd rank c i = Some true →
  rd bd rank i = Some Null ∧ isSquareUnderAttack bd rank i c = Some false.
Proof.
  unfold castleSquareOk. intros H. bind_inv H.
  case_bool_decide as Hnull; [discriminate|].
  subst x. split; [assumption|].
  bind_inv H. destruct x; [discriminate|assumption].
Qed.

(** The columns [findRooks] returns hold rooks of the colour, on the
    proper side of the king. *)
Lemma findRooks_rooks bd rank k c cols : ∀ ks qs ks' qs',
  findRooks bd rank k c cols ks qs = Some (ks', qs') →
  (ks = -1 ∨ (k < ks ∧ isPiece (cellAt bd rank ks) ROOK c = true)) →
  (qs = -1 ∨ (qs < k ∧ isPiece (cellAt bd rank qs) ROOK c = true)) →
  (ks' = -1 ∨ (k < ks' ∧ isPiece (cellAt bd rank ks') ROOK c = true)) ∧
  (qs' = -1 ∨ (qs' < k ∧ isPiece (cellAt bd rank qs') ROOK c = true)).
Proof.
  induction cols as [|i cols IH]; simpl; intros ks qs ks' qs' H Hks Hqs.
  - injection H as <- <-. auto.
  - bind_inv H. apply rd_Some in Hx as [_ ->].
    destruct (isPiece (cellAt bd rank i) ROOK c) eqn:Hrook; [|eapply IH; eauto].
    destruct ((k <? i) && (ks =? -1)) eqn:Hk.
    + apply andb_true_iff in Hk as [Hk _]. apply Z.ltb_lt in Hk.
      eapply IH; eauto.
    + destruct (i <? k) eqn:Hq; [apply Z.ltb_lt in Hq|]; eapply IH; eauto.
Qed.

(** A castling move is produced only if the flag of that side is set,
    the king is not in check, a rook of the colour stands on the home rank
    on that side, and every square strictly between king and rook is empty
    and not attacked.  Nothing is tested about the rook's own square or
    the squares beyond it. *)
Lemma castlingMoves_tested g pc col ms :
  castlingMoves g pc col = Some ms →
  ((homeRank pc, col + 2) ∈ ms →
     isInCheck (board g) pc = Some false ∧
     kingSide (rightsOf (castlingRights g) pc) = true ∧
     ∃ rookCol, col < rookCol ∧
       isPiece (cellAt (board g) (homeRank pc) rookCol) ROOK pc = true ∧
       ∀ i, col < i < rookCol →
         rd (board g) (homeRank pc) i = Some Null ∧
         isSquareUnderAttack (board g) (homeRank pc) i pc = Some false) ∧
  ((homeRank pc, col - 2) ∈ ms →
     isInCheck (board g) pc = Some false ∧
     queenSide (rightsOf (castlingRights g) pc) = true ∧
     ∃ rookCol, rookCol < col ∧
       isPiece (cellAt (board g) (homeRank pc) rookCol) ROOK pc = true ∧
       ∀ i, rookCol < i < col →
         rd (board g) (homeRank pc) i = Some Null ∧
         isSquareUnderAttack (board g) (homeRank pc) i pc = Some false).
Proof.
  unfold castlingMoves. intros H.
  bind_inv H. destruct x; [injection H as <-; split; intros Hin; inversion Hin|].
  bind_inv H. destruct x as [ks qs]. cbn [fst snd] in H.
  destruct (findRooks_rooks _ _ _ _ _ _ _ _ _ Hx0) as [Hks Hqs]; [auto..|].
  bind_inv H. bind_inv H. injection H as <-.
  split; intros Hin.
  - assert (x = true) as ->.
    { destruct x; [reflexivity|]. destruct x0; simpl in Hin;
        [apply list_elem_of_singleton in Hin; injection Hin; lia|inversion Hin]. }
    unfold canCastleKingSide in Hx1.
    destruct (kingSide _) eqn:Hflag; [|discriminate].
    destruct (ks =? -1) eqn:Hks1; [discriminate|]. apply Z.eqb_neq in Hks1.
    simpl in Hx1. destruct Hks as [?|[Hlt Hrook]]; [contradiction|].
    split; [assumption|]. split; [reflexivity|]. exists ks. do 2 (split; [assumption|]).
    intros i Hi. apply castleSquareOk_true. eapply allM_true; [exact Hx1|].
    apply elem_of_seqZ. lia.
  - assert (x0 = true) as ->.
    { destruct x0; [reflexivity|]. destruct x; simpl in Hin;
        [apply list_elem_of_singleton in Hin; injection Hin; lia|inversion Hin]. }
    unfold canCastleQueenSide in Hx2.
    destruct (queenSide _) eqn:Hflag; [|discriminate].
    destruct (qs =? -1) eqn:Hqs1; [discriminate|]. apply Z.eqb_neq in Hqs1.
    simpl in Hx2. destruct Hqs as [?|[Hlt Hrook]]; [contradiction|].
    split; [assumption|]. split; [reflexivity|]. exists qs. do 2 (split; [assumption|]).
    intros i Hi. apply castleSquareOk_true. eapply allM_true; [exact Hx2|].
    apply elem_of_seqZ. lia.
Qed.

(** C2 (the code departs from it).  The flag, the check and the squares
    between king and rook are tested ([castlingMoves_tested]); the squares
    of the king's path that are not between king and rook are not.  In a
    position reached by play, with the white rook next to the king, the
    king-side castling move is produced by the castling block of
    [getKingMoves] and kept by [getValidMoves] although f1, the square the
    king passes through, is attacked by Black. *)
Theorem castling_through_attacked_square :
  ∃ g km vm,
    gameBishopOnF1 = Some g ∧ reachable g ∧
    getKingMoves g 7 4 = Some km ∧
    getValidMoves g 7 4 = Some vm ∧
    currentPlayer g = WHITE ∧
    rd (board g) 7 4 = Some (Obj (mkPiece KING WHITE)) ∧
    rd (board g) 7 5 = Some (Obj (mkPiece ROOK WHITE)) ∧
    castlingMoves g WHITE 4 = Some [(7, 6)] ∧
    (7, 6) ∈ km ∧ (7, 6) ∈ vm.2 ∧
    isSquareUnderAttack (board g) 7 5 WHITE = Some true.
Proof.
  destruct (checked
    (g ← gameBishopOnF1; km ← getKingMoves g 7 4;
     vm ← getValidMoves g 7 4; Some (g, km, vm))
    (λ x, let '(g, km, vm) := x in
       currentPlayer g = WHITE ∧
       rd (board g) 7 4 = Some (Obj (mkPiece KING WHITE)) ∧
       rd (board g) 7 5 = Some (Obj (mkPiece ROOK WHITE)) ∧
       castlingMoves g WHITE 4 = Some [(7, 6)] ∧
       (7, 6) ∈ km ∧ (7, 6) ∈ vm.2 ∧
       isSquareUnderAttack (board g) 7 5 WHITE = Some true))
    as ([[g km] vm] & Hrun & HP); [by_evaluation|].
  unpack_run Hrun.
  exists g, km, vm. split; [assumption|].
  split; [eapply game_reachable; eassumption|]. split; [assumption|].
  split; [assumption|]. exact HP.
Qed.

(** ** Castling beyond the edge of the board *)

(** C3 (the code departs from it).  From the start position [RBBQNNKR]
    the first move [makeMove(7, 6, 7, 8)] succeeds: the king-side castling
    target is two files right of the king, off the board.  In the position
    reached the white king stands on column 8, the rook of h1 is gone and
    no white king is left on the 64 squares. *)
Theorem castling_puts_king_off_board :
  ∃ g vm g',
    gameKingOnG = Some g ∧ reachable g ∧
    getValidMoves g 7 6 = Some vm ∧
    makeMove g 7 6 7 8 = Some (g', true) ∧ reachable g' ∧
    vm.2 = [(7, 8)] ∧
    rd (board g) 7 6 = Some (Obj (mkPiece KING WHITE)) ∧
    rd (board g) 7 7 = Some (Obj (mkPiece ROOK WHITE)) ∧
    rd (board g') 7 8 = Some (Obj (mkPiece KING WHITE)) ∧
    rd (board g') 7 7 = Some Null ∧
    (∀ r c, isWithinBoard r c = true →
            rd (board g') r c ≠ Some (Obj (mkPiece KING WHITE))).
Proof.
  destruct (checked
    (g ← gameKingOnG; vm ← getValidMoves g 7 6;
     r ← makeMove g 7 6 7 8; Some (g, vm, r))
    (λ x, let '(g, vm, r) := x in
       r.2 = true ∧ vm.2 = [(7, 8)] ∧
       rd (board g) 7 6 = Some (Obj (mkPiece KING WHITE)) ∧
       rd (board g) 7 7 = Some (Obj (mkPiece ROOK WHITE)) ∧
       rd (board r.1) 7 8 = Some (Obj (mkPiece KING WHITE)) ∧
       rd (board r.1) 7 7 = Some Null ∧
       Forall (λ rc, rd (board r.1) rc.1 rc.2 ≠ Some (Obj (mkPiece KING WHITE)))
              squares))
    as ([[g vm] [g' ok]] & Hrun & Hok & H1 & H2 & H3 & H4 & H5 & H6);
    [by_evaluation|].
  simpl in Hok; subst ok. unpack_run Hrun.
  assert (Hr : reachable g) by (eapply newGame_reachable; eassumption).
  exists g, vm, g'. repeat (split; [eassumption|]).
  split; [eapply reach_move; eassumption|].
  repeat (split; [assumption|]).
  intros r c Hin. apply elem_of_squares in Hin.
  exact (proj1 (Forall_forall _ _) H6 (r, c) Hin).
Qed.

(** ** FEN *)

(** C7 (the code departs from it).  After 1.e4 from the start position
    [RNBQKBNR] the en passant target is e3, row 5 and column 4, and the
    fourth field of the FEN is the text [5,4]. *)
Theorem fen_en_passant_field_not_algebraic :
  ∃ g,
    gameKingsPawn = Some g ∧ reachable g ∧
    enPassantTarget g = Some (5, 4) ∧
    generateFEN g =
      Some "rnbqkbnr/pppppppp/8/8/4P3/8/PPPP1PPP/RNBQKBNR b KQkq 5,4 0 1"%string.
Proof.
  destruct (checked gameKingsPawn
    (λ g, enPassantTarget g = Some (5, 4) ∧
          generateFEN g =
            Some "rnbqkbnr/pppppppp/8/8/4P3/8/PPPP1PPP/RNBQKBNR b KQkq 5,4 0 1"%string))
    as (g & Hrun & HP); [by_evaluation|].
  exists g. split; [assumption|].
  split; [eapply game_reachable; eassumption|]. exact HP.
Qed.

(** * Further properties of the engine *)

(** ** The legal-move query *)

Lemma ordinary_move_keeps_king_safe_witness :
  ∃ g g', newGame 1 2 2 1 2 = Some g ∧
          makeMove g 6 4 4 4 = Some (g', true) ∧
          isInCheck (board g') WHITE = Some false.
Proof.
  destruct (checked (g ← newGame 1 2 2 1 2; r ← makeMove g 6 4 4 4; Some (g, r))
              (λ x, x.2.2 = true ∧
                    rd (board x.1) 6 4 = Some (Obj (mkPiece PAWN WHITE))))
    as ([g [g' ok]] & Hrun & Hok & Hpawn); [by_evaluation|].
  cbn [fst snd] in Hok, Hpawn. subst ok. unpack_run Hrun.
  exists g, g'. do 2 (split; [assumption|]).
  apply (ordinary_move_keeps_king_safe g 6 4 4 4 g' (mkPiece PAWN WHITE));
    [eapply newGame_reachable; eassumption|assumption..|].
  intros [Hk _]. discriminate.
Defined.

(** ** Castling: when it is offered, and when never again *)

(** What [freeOrEnemy] accepts: an empty square or a piece of the other
    colour. *)
Lemma freeOrEnemy_true x y :
  freeOrEnemy x y = Some true →
  x = Null ∨ ∃ q pc, x = Obj q ∧ colorOf y = Some pc ∧ color q ≠ pc.
Proof.
  unfold freeOrEnemy. destruct x as [| |q]; [discriminate|auto|].
  simpl. destruct (colorOf y) as [pc|]; [|discriminate]. simpl.
  intros [= H]. apply bool_decide_eq_true_1 in H. right. eauto.
Qed.

(** The moves of a king are steps to a neighbouring square of the board
    that is free or the enemy's and not attacked, followed by the castling
    moves. *)
Lemma getKingMoves_elem g row col ms mv :
  getKingMoves g row col = Some ms → mv ∈ ms →
  ∃ pc, colorOf (cellAt (board g) row col) = Some pc ∧
    ((∃ d, d ∈ queenDirections ∧ mv = (row + d.1, col + d.2) ∧
           isWithinBoard mv.1 mv.2 = true ∧
           freeOrEnemy (cellAt (board g) mv.1 mv.2) (cellAt (board g) row col) = Some true ∧
           isSquareUnderAttack (board g) mv.1 mv.2 pc = Some false) ∨
     (∃ castles, castlingMoves g pc col = Some castles ∧ mv ∈ castles)).
Proof.
  unfold getKingMoves. intros H Hin.
  bind_inv H. apply rd_Some in Hx as [_ ->].
  apply bind_Some in H as (steps & Hsteps & H).
  apply bind_Some in H as (pc & Hpc & H).
  apply bind_Some in H as (castles & Hcastles & H). injection H as <-.
  exists pc. split; [assumption|].
  apply elem_of_app in Hin as [Hin|Hin]; [left|right; eauto].
  destruct (concatM_elem _ _ _ _ Hsteps Hin) as (d & ms' & Hd & Hf & Hin').
  exists d. split; [assumption|].
  destruct (isWithinBoard (row + d.1) (col + d.2)) eqn:Hw; [|injection Hf as <-; inversion Hin'].
  apply bind_Some in Hf as (t & Ht & Hf). apply rd_Some in Ht as [_ ->].
  apply bind_Some in Hf as (ok & Hok & Hf).
  destruct ok; [|injection Hf as <-; inversion Hin'].
  apply bind_Some in Hf as (pc' & Hpc' & Hf). rewrite Hpc in Hpc'. injection Hpc' as <-.
  apply bind_Some in Hf as (att & Hatt & Hf).
  destruct att; injection Hf as <-; [inversion Hin'|].
  apply list_elem_of_singleton in Hin' as ->. cbn [fst snd]. auto.
Qed.

(** The castling moves are at most the two squares two files from the
    king on the home rank. *)
Lemma castlingMoves_elem g pc col ms mv :
  castlingMoves g pc col = Some ms → mv ∈ ms →
  mv = (homeRank pc, col + 2) ∨ mv = (homeRank pc, col - 2).
Proof.
  unfold castlingMoves. intros H Hin.
  bind_inv H. destruct x; [injection H as <-; inversion Hin|].
  bind_inv H. bind_inv H. bind_inv H. injection H as <-.
  apply elem_of_app in Hin as [Hin|Hin].
  - destruct x0; [|inversion Hin]. apply list_elem_of_singleton in Hin. auto.
  - destruct x1; [|inversion Hin]. apply list_elem_of_singleton in Hin. auto.
Qed.

(** X2.  A move of the king by two files that [getValidMoves] returns is
    a castling move: it goes to the home rank, the castling flag of that
    side is set, the king is not in check, a rook of the colour stands on
    the home rank on that side, and every square strictly between king and
    rook is empty and not attacked. *)
Theorem castling_offered_only_when_tested g row col g' ms p mv :
  getValidMoves g row col = Some (g', ms) →
  rd (board g) row col = Some (Obj p) → type p = KING →
  mv ∈ ms → Z.abs (mv.2 - col) = 2 →
  mv.1 = homeRank (color p) ∧
  isInCheck (board g) (color p) = Some false ∧
  (if col <? mv.2 then kingSide (rightsOf (castlingRights g) (color p))
   else queenSide (rightsOf (castlingRights g) (color p))) = true ∧
  ∃ rookCol,
    (if col <? mv.2 then col < rookCol else rookCol < col) ∧
    isPiece (cellAt (board g) (homeRank (color p)) rookCol) ROOK (color p) = true ∧
    ∀ i, Z.min col rookCol < i < Z.max col rookCol →
      rd (board g) (homeRank (color p)) i = Some Null ∧
      isSquareUnderAttack (board g) (homeRank (color p)) i (color p) = Some false.
Proof.
  intros Hvm Hp Hking Hin Habs. apply rd_Some in Hp as [_ Hp]. symmetry in Hp.
  destruct (getValidMoves_candidates _ _ _ _ _ _ Hvm Hin) as (q & moves & Hq & _ & Hc & Hin').
  rewrite Hp in Hq. injection Hq as <-.
  unfold candidateMoves in Hc. rewrite Hking in Hc.
  destruct (getKingMoves_elem _ _ _ _ _ Hc Hin') as (pc & Hpc & Hcase).
  rewrite Hp in Hpc. injection Hpc as <-.
  destruct Hcase as [(d & Hd & -> & _)|(castles & Hcastles & Hin'')].
  - exfalso. unfold queenDirections in Hd.
    repeat (apply elem_of_cons in Hd as [->|Hd]); [..|inversion Hd]; simpl in Habs; lia.
  - destruct (castlingMoves_tested _ _ _ _ Hcastles) as [Hks Hqs].
    destruct (castlingMoves_elem _ _ _ _ _ Hcastles Hin'') as [-> | ->]; cbn [fst snd].
    + destruct (Hks Hin'') as (Hchk & Hflag & rookCol & Hlt & Hrook & Hbetween).
      rewrite (proj2 (Z.ltb_lt col (col + 2))) by lia.
      split; [reflexivity|]. do 2 (split; [assumption|]). exists rookCol. do 2 (split; [assumption|]).
      intros i Hi. apply Hbetween. lia.
    + destruct (Hqs Hin'') as (Hchk & Hflag & rookCol & Hlt & Hrook & Hbetween).
      rewrite (proj2 (Z.ltb_ge col (col - 2))) by lia.
      split; [reflexivity|]. do 2 (split; [assumption|]). exists rookCol. do 2 (split; [assumption|]).
      intros i Hi. apply Hbetween. lia.
Qed.

Lemma castling_offered_only_when_tested_witness :
  ∃ g ms, gameBishopOnF1 = Some g ∧ getValidMoves g 7 4 = Some (g, ms) ∧
          (7, 6) ∈ ms ∧
          isInCheck (board g) WHITE = Some false ∧
          kingSide (rightsOf (castlingRights g) WHITE) = true.
Proof.
  destruct (checked (g ← gameBishopOnF1; vm ← getValidMoves g 7 4; Some (g, vm))
              (λ x, (7, 6) ∈ x.2.2 ∧
                    rd (board x.1) 7 4 = Some (Obj (mkPiece KING WHITE))))
    as ([g [g' ms]] & Hrun & Hin & Hking); [by_evaluation|].
  cbn [fst snd] in Hin, Hking. unpack_run Hrun.
  assert (g' = g) as ->.
  { eapply getValidMoves_restores; [|eassumption].
    eapply reachable_targetBehindPawn, game_reachable. eassumption. }
  destruct (castling_offered_only_when_tested g 7 4 g ms (mkPiece KING WHITE) (7, 6))
    as (_ & Hchk & Hflag & _);
    [assumption|assumption|reflexivity|assumption|reflexivity|].
  exists g, ms. do 3 (split; [assumption|]). split; assumption.
Defined.

(** X3.  Along a game no castling flag that has been cleared is ever set
    again: in every later position each of the four flags is set only if
    it was set before. *)
Theorem castling_rights_never_restored g g' :
  later g g' → rightsLe (castlingRights g') (castlingRights g).
Proof.
  induction 1 as [|g1 fr fc tr tc g2 _ IH Hmove|g1 over res _ IH].
  - apply rightsLe_refl.
  - eapply rightsLe_trans; [|exact IH]. apply (makeMove_rights _ _ _ _ _ _ Hmove).
  - exact IH.
Qed.

Lemma castling_rights_never_restored_witness :
  ∃ g g1 g2, newGame 1 2 2 1 2 = Some g ∧
             makeMove g 6 4 4 4 = Some (g1, true) ∧
             makeMove g1 1 4 3 4 = Some (g2, true) ∧
             rightsLe (castlingRights g2) (castlingRights g).
Proof.
  destruct (checked (g ← newGame 1 2 2 1 2; r1 ← makeMove g 6 4 4 4;
                     r2 ← makeMove r1.1 1 4 3 4; Some (g, r1, r2))
              (λ x, x.1.2.2 = true ∧ x.2.2 = true))
    as ([[g [g1 ok1]] [g2 ok2]] & Hrun & Hok1 & Hok2); [by_evaluation|].
  cbn [fst snd] in Hok1, Hok2. subst ok1 ok2. unpack_run Hrun.
  cbn [fst snd] in *.
  exists g, g1, g2. do 3 (split; [assumption|]).
  apply castling_rights_never_restored.
  eapply later_move; [eapply later_move; [apply later_now|eassumption]|eassumption].
Defined.

(** X11.  Once a king has moved, castling is never offered to its colour
    again: in every later position each move [getValidMoves] returns for a
    king of that colour goes to a neighbouring square. *)
Theorem no_castling_after_king_move g fromRow fromCol toRow toCol g1 p g2 row col gv ms q mv :
  makeMove g fromRow fromCol toRow toCol = Some (g1, true) →
  rd (board g) fromRow fromCol = Some (Obj p) → type p = KING →
  later g1 g2 →
  getValidMoves g2 row col = Some (gv, ms) →
  rd (board g2) row col = Some (Obj q) → type q = KING → color q = color p →
  mv ∈ ms →
  Z.abs (mv.1 - row) ≤ 1 ∧ Z.abs (mv.2 - col) ≤ 1.
Proof.
  intros Hmove Hp Hking Hlater Hvm Hq Hqking Hcol Hin.
  assert (Hflags : rightsOf (castlingRights g2) (color p) = mkRights false false).
  { pose proof (proj2 (makeMove_rights _ _ _ _ _ _ Hmove) p Hp Hking) as H1.
    assert (Hle : rightsLe (castlingRights g2) (castlingRights g1)).
    { clear -Hlater. induction Hlater as [|g3 fr fc tr tc g4 _ IH Hm|g3 over res _ IH].
      - apply rightsLe_refl.
      - eapply rightsLe_trans; [|exact IH]. apply (makeMove_rights _ _ _ _ _ _ Hm).
      - exact IH. }
    destruct (Hle (color p)) as [Hk Hqs]. rewrite H1 in Hk, Hqs. simpl in Hk, Hqs.
    destruct (rightsOf (castlingRights g2) (color p)) as [[|] [|]]; simpl in *;
      try reflexivity; try (specialize (Hk eq_refl); discriminate);
      specialize (Hqs eq_refl); discriminate. }
  apply rd_Some in Hq as [_ Hq]. symmetry in Hq.
  destruct (getValidMoves_candidates _ _ _ _ _ _ Hvm Hin) as (q' & moves & Hq' & _ & Hc & Hin').
  rewrite Hq in Hq'. injection Hq' as <-.
  unfold candidateMoves in Hc. rewrite Hqking in Hc.
  destruct (getKingMoves_elem _ _ _ _ _ Hc Hin') as (pc & Hpc & Hcase).
  rewrite Hq in Hpc. injection Hpc as <-.
  destruct Hcase as [(d & Hd & -> & _)|(castles & Hcastles & Hin'')].
  - unfold queenDirections in Hd.
    repeat (apply elem_of_cons in Hd as [->|Hd]); [..|inversion Hd]; simpl; lia.
  - exfalso. rewrite Hcol in Hcastles.
    destruct (castlingMoves_tested _ _ _ _ Hcastles) as [Hks Hqs].
    destruct (castlingMoves_elem _ _ _ _ _ Hcastles Hin'') as [-> | ->].
    + destruct (Hks Hin'') as (_ & Hflag & _). rewrite Hflags in Hflag. discriminate.
    + destruct (Hqs Hin'') as (_ & Hflag & _). rewrite Hflags in Hflag. discriminate.
Qed.

Lemma no_castling_after_king_move_witness :
  ∃ g g1 g2 gv ms,
    makeMove g 7 4 6 4 = Some (g1, true) ∧
    makeMove g1 1 0 2 0 = Some (g2, true) ∧
    getValidMoves g2 6 4 = Some (gv, ms) ∧ (7, 4) ∈ ms ∧
    Z.abs (7 - 6) ≤ 1 ∧ Z.abs (4 - 4) ≤ 1.
Proof.
  destruct (checked (g0 ← newGame 1 2 2 1 2; g ← play g0 [(6, 4, 4, 4); (1, 4, 3, 4)];
                     r1 ← makeMove g 7 4 6 4; r2 ← makeMove r1.1 1 0 2 0;
                     vm ← getValidMoves r2.1 6 4; Some (g, r1, r2, vm))
              (λ x, let '(g, r1, r2, vm) := x in
                 r1.2 = true ∧ r2.2 = true ∧
                 rd (board g) 7 4 = Some (Obj (mkPiece KING WHITE)) ∧
                 rd (board r2.1) 6 4 = Some (Obj (mkPiece KING WHITE)) ∧
                 (7, 4) ∈ vm.2))
    as ([[[g [g1 ok1]] [g2 ok2]] [gv ms]] & Hrun & Hok1 & Hok2 & Hk & Hk2 & Hin);
    [by_evaluation|].
  cbn [fst snd] in Hok1, Hok2, Hk, Hk2, Hin. subst ok1 ok2. unpack_run Hrun.
  cbn [fst snd] in *.
  exists g, g1, g2, gv, ms. do 4 (split; [assumption|]).
  apply (no_castling_after_king_move g 7 4 6 4 g1 (mkPiece KING WHITE) g2 6 4 gv ms
           (mkPiece KING WHITE) (7, 4));
    try assumption; try reflexivity.
  eapply later_move; [apply later_now|eassumption].
Defined.

(** ** The board after a move *)

(** After a move that is not a king's move over two files the board is
    the trial board of the filter, with the promoted pawn replaced. *)
Lemma applyMove_movedBoard g p fromRow fromCol toRow toCol g1 :
  applyMove g p fromRow fromCol toRow toCol = Some g1 →
  ¬ (type p = KING ∧ Z.abs (toCol - fromCol) = 2) →
  board g1 = movedBoard (enPassantTarget g) p (board g) fromRow fromCol toRow toCol.
Proof.
  unfold applyMove, movedBoard, promotes, trialBoard. intros H Hno.
  bind_inv H. bind_inv H. apply wr_Some in Hx0 as [_ ->].
  bind_inv H. apply wr_Some in Hx0 as [_ ->]. bind_inv H.
  destruct x0 as [[[[bd4 ep] clock] enP] promo].
  bind_inv H. destruct x0 as [[bd5 cast] cr1]. bind_inv H. injection H as <-. simpl.
  assert (bd5 = bd4) as ->.
  { destruct (bool_decide (type p = KING)) eqn:Hk; [|injection Hx1 as <- _ _; reflexivity].
    apply bool_decide_eq_true_1 in Hk. bind_inv Hx1. injection Hx1 as <- _ _.
    unfold castleRook in Hx3.
    destruct (Z.abs (toCol - fromCol) =? 2) eqn:Habs;
      [apply Z.eqb_eq in Habs; tauto|]. injection Hx3 as <-. reflexivity. }
  clear Hx1.
  destruct (bool_decide (type p = PAWN)) eqn:Hty; simpl.
  - apply bind_Some in Hx0 as (bd3 & Hbd3 & Hx0).
    assert (bd3 = match capturedPawnPos (enPassantTarget g) p fromRow toRow toCol with
                  | Some (cr, cc) =>
                      put (put (put (board g) toRow toCol (Obj p)) fromRow fromCol Null) cr cc Null
                  | None => put (put (board g) toRow toCol (Obj p)) fromRow fromCol Null
                  end) as Hb3.
    { destruct (capturedPawnPos _ _ _ _ _) as [[cr cc]|];
        [apply wr_Some in Hbd3 as [_ ->]|injection Hbd3 as <-]; reflexivity. }
    rewrite <- Hb3.
    destruct ((toRow =? 0) || (toRow =? 7)).
    + apply bind_Some in Hx0 as (bdq & Hbdq & Hx0).
      apply wr_Some in Hbdq as [_ ->]. injection Hx0 as <- _ _ _ _. reflexivity.
    + injection Hx0 as <- _ _ _ _. reflexivity.
  - injection Hx0 as <- _ _ _ _. apply bool_decide_eq_false_1 in Hty.
    unfold capturedPawnPos. rewrite (bool_decide_eq_false_2 _ Hty).
    destruct (enPassantTarget g) as [[? ?]|]; reflexivity.
Qed.

(** The terminal evaluation of a successful move leaves the board, the
    side to move, the target, the clocks and the history as the applied
    move made them. *)
Lemma makeMove_applied g fromRow fromCol toRow toCol g' :
  makeMove g fromRow fromCol toRow toCol = Some (g', true) →
  ∃ p gv ms g1,
    rd (board g) fromRow fromCol = Some (Obj p) ∧ color p = currentPlayer g ∧
    getValidMoves g fromRow fromCol = Some (gv, ms) ∧ (toRow, toCol) ∈ ms ∧
    applyMove gv p fromRow fromCol toRow toCol = Some g1 ∧
    forget g' = forget g1.
Proof.
  intros H.
  apply makeMove_anatomy in H
    as (p & gv & ms & g1 & inCheck & hasMoves & Hp & Hcol & Hvm & Hin & Happ & _ & _ & _ & ->).
  exists p, gv, ms, g1. do 5 (split; [assumption|]).
  destruct (verdict _ _ _ _); reflexivity.
Qed.

Lemma forget_fields g g1 :
  forget g = forget g1 →
  board g = board g1 ∧ currentPlayer g = currentPlayer g1 ∧
  moveHistory g = moveHistory g1 ∧ castlingRights g = castlingRights g1 ∧
  enPassantTarget g = enPassantTarget g1 ∧ halfMoveClock g = halfMoveClock g1 ∧
  fullMoveNumber g = fullMoveNumber g1 ∧ startPosition g = startPosition g1.
Proof. destruct g, g1. unfold withOutcome. simpl. intros [= -> -> -> -> -> -> -> ->]. auto 10. Qed.

(** ** The en passant target in the positions of a game *)

(** The double step is offered only over an empty square of the board. *)
Lemma getPawnMoves_double g row col ms pc :
  getPawnMoves g row col = Some ms →
  colorOf (cellAt (board g) row col) = Some pc →
  (row + 2 * direction pc, col) ∈ ms →
  isWithinBoard (row + direction pc) col = true ∧
  cellAt (board g) (row + direction pc) col = Null.
Proof.
  unfold getPawnMoves. intros H Hpc Hin.
  bind_inv H. apply rd_Some in Hx as [_ ->]. rewrite Hpc in H. cbn [mbind option_bind] in H.
  apply bind_Some in H as (forward & Hfw & H).
  apply bind_Some in H as (captures & Hcp & H). injection H as <-.
  assert (Hd : direction pc ≠ 0) by (destruct pc; discriminate).
  apply elem_of_app in Hin as [Hin|Hin]; [|apply elem_of_app in Hin as [Hin|Hin]].
  - destruct (isWithinBoard (row + direction pc) col); [|injection Hfw as <-; inversion Hin].
    apply bind_Some in Hfw as (t1 & Ht1 & Hfw). apply rd_Some in Ht1 as [_ ->].
    case_bool_decide as Hnull; [|injection Hfw as <-; inversion Hin]. auto.
  - exfalso. destruct (concatM_elem _ _ _ _ Hcp Hin) as (offset & ms' & _ & Hf & Hin').
    destruct (isWithinBoard _ (col + offset)); [|injection Hf as <-; inversion Hin'].
    bind_inv Hf. destruct x as [| |t]; try (injection Hf as <-; inversion Hin').
    case_bool_decide; injection Hf as <-; [|inversion Hin'].
    apply list_elem_of_singleton in Hin'. injection Hin'. lia.
  - exfalso. destruct (enPassantTarget g) as [[epRow epCol]|]; [|inversion Hin].
    destruct (_ && _) eqn:Hc; [|inversion Hin].
    apply list_elem_of_singleton in Hin. injection Hin as <- <-.
    apply andb_true_iff in Hc as [_ Hc]. apply Z.eqb_eq in Hc. lia.
Qed.

Lemma makeMove_targetEmpty g fromRow fromCol toRow toCol g' :
  reachable g →
  makeMove g fromRow fromCol toRow toCol = Some (g', true) → targetEmpty g'.
Proof.
  intros Hreach H.
  destruct (makeMove_applied _ _ _ _ _ _ H)
    as (p & gv & ms & g1 & Hp & Hcol & Hvm & Hin & Happ & Hsame).
  apply forget_fields in Hsame as (Hb & _ & _ & _ & He & _).
  pose proof (getValidMoves_restores _ _ _ _ _ (reachable_targetBehindPawn _ Hreach) Hvm) as ->.
  destruct (applyMove_fields _ _ _ _ _ _ _ Happ) as (_ & _ & _ & Hep).
  intros er ec Het. rewrite He, Hep in Het. rewrite Hb.
  destruct (bool_decide (type p = PAWN)) eqn:Hty; [|discriminate].
  destruct (Z.abs (toRow - fromRow) =? 2) eqn:Habs; [|discriminate].
  apply bool_decide_eq_true_1 in Hty. apply Z.eqb_eq in Habs.
  simpl in Het. injection Het as <- <-.
  destruct (double_step_shape _ _ _ _ _ _ _ _ Hp Hvm Hin Hty Habs) as (-> & Hto & Hfrom).
  assert (Hmid : (fromRow + toRow) `div` 2 = fromRow + direction (color p)).
  { rewrite Hto. replace (fromRow + (fromRow + 2 * direction (color p)))
      with ((fromRow + direction (color p)) * 2) by lia.
    apply Z.div_mul. lia. }
  rewrite Hmid.
  destruct (getValidMoves_candidates _ _ _ _ _ _ Hvm Hin) as (q & moves & Hq & _ & Hc & Hin').
  apply rd_Some in Hp as [_ Hp]. rewrite <- Hp in Hq. injection Hq as <-.
  unfold candidateMoves in Hc. rewrite Hty in Hc. rewrite Hto in Hin'.
  destruct (getPawnMoves_double _ _ _ _ (color p) Hc) as [Hw Hnull];
    [rewrite <- Hp; reflexivity|exact Hin'|].
  split; [exact Hw|].
  rewrite (applyMove_movedBoard _ _ _ _ _ _ _ Happ) by (rewrite Hty; intros [? _]; discriminate).
  unfold movedBoard, promotes, trialBoard, capturedPawnPos.
  assert (Hpromo : (toRow =? 0) || (toRow =? 7) = false).
  { apply orb_false_iff. split; apply Z.eqb_neq; destruct (color p); simpl in *; lia. }
  rewrite Hpromo, andb_false_r.
  assert (Hd : direction (color p) ≠ 0) by (destruct (color p); discriminate).
  clear Hep.
  destruct (enPassantTarget g) as [[er ec]|];
    [destruct (bool_decide (type p = PAWN) && (toRow =? er) && (fromCol =? ec))|];
    rewrite !cellAt_put; repeat case_decide; simplify_eq; try exact Hnull; lia.
Qed.

Lemma reachable_targetEmpty g : reachable g → targetEmpty g.
Proof.
  induction 1 as [i1 i2 i3 i4 i5 g fen Hinit|g fr fc tr tc g' Hreach _ Hmove|g over res _ IH].
  - unfold initializeChess960 in Hinit.
    bind_inv Hinit. bind_inv Hinit. bind_inv Hinit. bind_inv Hinit.
    injection Hinit as <- _. intros er ec Het. discriminate.
  - eapply makeMove_targetEmpty; eassumption.
  - intros er ec. apply IH.
Qed.

(** X5.  In every position of a game the en passant target, when set, is
    an empty square of the board on the third row seen from the side that
    has just moved (row 2 when White is to move, row 5 when Black is), and
    the pawn of that side that has just advanced stands right in front of
    it. *)
Theorem en_passant_target_behind_advanced_pawn g er ec :
  reachable g → enPassantTarget g = Some (er, ec) →
  er = targetRow (currentPlayer g) ∧ isWithinBoard er ec = true ∧
  rd (board g) er ec = Some Null ∧
  rd (board g) (er - direction (currentPlayer g)) ec
    = Some (Obj (mkPiece PAWN (opponent (currentPlayer g)))).
Proof.
  intros Hreach Het.
  destruct (reachable_targetBehindPawn _ Hreach er ec Het) as [Hrow Hpawn].
  destruct (reachable_targetEmpty _ Hreach er ec Het) as [Hw Hnull].
  split; [assumption|]. split; [assumption|].
  assert (isRow er = true ∧ isRow (er - direction (currentPlayer g)) = true) as [H1 H2].
  { rewrite Hrow. destruct (currentPlayer g); split; reflexivity. }
  unfold rd. rewrite H1, H2, Hnull, Hpawn. auto.
Qed.

Lemma en_passant_target_behind_advanced_pawn_witness :
  ∃ g, gameKingsPawn = Some g ∧ enPassantTarget g = Some (5, 4) ∧
       rd (board g) 5 4 = Some Null ∧
       rd (board g) 4 4 = Some (Obj (mkPiece PAWN WHITE)).
Proof.
  destruct (checked gameKingsPawn
              (λ g, enPassantTarget g = Some (5, 4) ∧ currentPlayer g = BLACK))
    as (g & Hrun & Hep & Hcur); [by_evaluation|].
  destruct (en_passant_target_behind_advanced_pawn g 5 4) as (_ & _ & Hnull & Hpawn);
    [eapply game_reachable; eassumption|assumption|].
  rewrite Hcur in Hpawn. exists g. auto.
Defined.

(** ** Geometry of the knight and of the sliding pieces *)

Lemma concatM_intro {A B} (f : A → option (list B)) l : ∀ ms a ms' y,
  concatM f l = Some ms → a ∈ l → f a = Some ms' → y ∈ ms' → y ∈ ms.
Proof.
  induction l as [|b l IH]; simpl; intros ms a ms' y H Ha Hf Hy; [inversion Ha|].
  bind_inv H. bind_inv H. injection H as <-.
  apply elem_of_app. apply elem_of_cons in Ha as [->|Ha].
  - left. rewrite Hf in Hx. injection Hx as <-. exact Hy.
  - right. eapply IH; eauto.
Qed.

Lemma concatM_elem_total {A B} (f : A → option (list B)) l : ∀ ms,
  concatM f l = Some ms → ∀ a, a ∈ l → ∃ ms', f a = Some ms'.
Proof.
  induction l as [|b l IH]; simpl; intros ms H a Ha; [inversion Ha|].
  bind_inv H. bind_inv H.
  apply elem_of_cons in Ha as [->|Ha]; [eauto|]. eapply IH; eauto.
Qed.

Lemma freeOrEnemy_landable bd piece r k :
  isWithinBoard r k = true →
  (freeOrEnemy (cellAt bd r k) piece = Some true ↔ landable bd piece r k).
Proof.
  intros Hw. unfold landable. split.
  - intros H. split; [assumption|]. apply freeOrEnemy_true in H. exact H.
  - intros [_ [->|(q & pc & -> & Hpc & Hne)]]; [reflexivity|].
    simpl. rewrite Hpc. simpl. rewrite bool_decide_eq_true_2 by assumption. reflexivity.
Qed.

Lemma getKnightMoves_iff bd row col ms mv :
  getKnightMoves bd row col = Some ms →
  (mv ∈ ms ↔
   ∃ off, off ∈ knightOffsets ∧ mv = (row + off.1, col + off.2) ∧
          landable bd (cellAt bd row col) mv.1 mv.2).
Proof.
  unfold getKnightMoves. intros H. bind_inv H. apply rd_Some in Hx as [_ ->].
  split.
  - intros Hin. destruct (concatM_elem _ _ _ _ H Hin) as (off & ms' & Hoff & Hf & Hin').
    cbn zeta in Hf.
    destruct (isWithinBoard (row + off.1) (col + off.2)) eqn:Hw;
      [|injection Hf as <-; inversion Hin'].
    apply bind_Some in Hf as (t & Ht & Hf). apply rd_Some in Ht as [_ ->].
    apply bind_Some in Hf as (ok & Hok & Hf). injection Hf as <-.
    destruct ok; [|inversion Hin']. apply list_elem_of_singleton in Hin' as ->.
    exists off. do 2 (split; [auto|]). apply freeOrEnemy_landable; assumption.
  - intros (off & Hoff & -> & Hland). cbn [fst snd] in Hland.
    pose proof Hland as [Hw _]. apply freeOrEnemy_landable in Hland; [|assumption].
    assert (Hrow : isRow (row + off.1) = true).
    { unfold isWithinBoard in Hw. unfold isRow. lia. }
    eapply concatM_intro; [exact H|exact Hoff| |apply list_elem_of_singleton; reflexivity].
    cbn beta zeta. rewrite Hw. unfold rd. rewrite Hrow. cbn [mbind option_bind].
    rewrite Hland. reflexivity.
Qed.

(** The squares the loop of [getSlidingMoves] returns from [(r, k)] on:
    those reached over empty squares of the board. *)
Lemma slide_elem bd piece rowDir colDir mv : ∀ n r k ms,
  slide n bd piece r k rowDir colDir = Some ms → mv ∈ ms →
  ∃ j : nat, (j < n)%nat ∧
    mv = (r + Z.of_nat j * rowDir, k + Z.of_nat j * colDir) ∧
    (∀ i : nat, (i < j)%nat →
       isWithinBoard (r + Z.of_nat i * rowDir) (k + Z.of_nat i * colDir) = true ∧
       cellAt bd (r + Z.of_nat i * rowDir) (k + Z.of_nat i * colDir) = Null) ∧
    landable bd piece mv.1 mv.2.
Proof.
  induction n as [|n IH]; simpl; intros r k ms H Hin; [injection H as <-; inversion Hin|].
  destruct (isWithinBoard r k) eqn:Hw; [|injection H as <-; inversion Hin].
  bind_inv H. apply rd_Some in Hx as [_ ->].
  assert (Hhere : mv = (r, k) → freeOrEnemy (cellAt bd r k) piece = Some true →
            ∃ j : nat, (j < S n)%nat ∧
              mv = (r + Z.of_nat j * rowDir, k + Z.of_nat j * colDir) ∧
              (∀ i : nat, (i < j)%nat →
                 isWithinBoard (r + Z.of_nat i * rowDir) (k + Z.of_nat i * colDir) = true ∧
                 cellAt bd (r + Z.of_nat i * rowDir) (k + Z.of_nat i * colDir) = Null) ∧
              landable bd piece mv.1 mv.2).
  { intros -> Hok. exists 0%nat. split; [lia|]. split; [f_equal; lia|].
    split; [intros i Hi; lia|]. apply freeOrEnemy_landable; assumption. }
  destruct (cellAt bd r k) as [| |q] eqn:Hcell.
  - discriminate.
  - bind_inv H. injection H as <-.
    apply elem_of_cons in Hin as [->|Hin]; [apply Hhere; reflexivity|].
    destruct (IH _ _ _ Hx Hin) as (j & Hj & -> & Hpath & Hland).
    exists (S j). split; [lia|]. split; [f_equal; lia|]. split.
    + intros [|i] Hi.
      * replace (r + Z.of_nat 0 * rowDir) with r by lia.
        replace (k + Z.of_nat 0 * colDir) with k by lia. auto.
      * destruct (Hpath i) as [H1 H2]; [lia|].
        replace (r + Z.of_nat (S i) * rowDir) with (r + rowDir + Z.of_nat i * rowDir) by lia.
        replace (k + Z.of_nat (S i) * colDir) with (k + colDir + Z.of_nat i * colDir) by lia.
        auto.
    + cbn [fst snd] in *.
      replace (r + Z.of_nat (S j) * rowDir) with (r + rowDir + Z.of_nat j * rowDir) by lia.
      replace (k + Z.of_nat (S j) * colDir) with (k + colDir + Z.of_nat j * colDir) by lia.
      exact Hland.
  - simpl in H. destruct (colorOf piece) as [pc|] eqn:Hpc; [|discriminate].
    simpl in H. injection H as <-.
    case_bool_decide as Hne; [|inversion Hin].
    apply list_elem_of_singleton in Hin. apply Hhere; [assumption|].
    simpl. rewrite Hpc. simpl. rewrite bool_decide_eq_true_2 by assumption. reflexivity.
Qed.

Lemma slide_intro bd piece rowDir colDir : ∀ n r k ms (j : nat),
  slide n bd piece r k rowDir colDir = Some ms → (j < n)%nat →
  (∀ i : nat, (i < j)%nat →
     isWithinBoard (r + Z.of_nat i * rowDir) (k + Z.of_nat i * colDir) = true ∧
     cellAt bd (r + Z.of_nat i * rowDir) (k + Z.of_nat i * colDir) = Null) →
  landable bd piece (r + Z.of_nat j * rowDir) (k + Z.of_nat j * colDir) →
  (r + Z.of_nat j * rowDir, k + Z.of_nat j * colDir) ∈ ms.
Proof.
  induction n as [|n IH]; intros r k ms j H Hj Hpath Hland; [lia|]. simpl in H.
  destruct j as [|j].
  - replace (r + Z.of_nat 0 * rowDir) with r in * by lia.
    replace (k + Z.of_nat 0 * colDir) with k in * by lia.
    pose proof Hland as [Hw _]. rewrite Hw in H.
    apply freeOrEnemy_landable in Hland; [|assumption].
    bind_inv H. apply rd_Some in Hx as [_ ->].
    destruct (cellAt bd r k) as [| |q]; [discriminate| |].
    + bind_inv H. injection H as <-. left.
    + simpl in Hland, H. destruct (colorOf piece) as [pc|]; [|discriminate].
      simpl in Hland, H. injection Hland as Hland. rewrite Hland in H.
      injection H as <-. left.
  - destruct (Hpath 0%nat) as [Hw Hnull]; [lia|].
    replace (r + Z.of_nat 0 * rowDir) with r in * by lia.
    replace (k + Z.of_nat 0 * colDir) with k in * by lia.
    rewrite Hw in H. bind_inv H. apply rd_Some in Hx as [_ ->]. rewrite Hnull in H.
    bind_inv H. injection H as <-. right.
    replace (r + Z.of_nat (S j) * rowDir) with (r + rowDir + Z.of_nat j * rowDir) in * by lia.
    replace (k + Z.of_nat (S j) * colDir) with (k + colDir + Z.of_nat j * colDir) in * by lia.
    eapply IH; [exact Hx|lia| |exact Hland].
    intros i Hi. destruct (Hpath (S i)) as [H1 H2]; [lia|].
    replace (r + Z.of_nat (S i) * rowDir) with (r + rowDir + Z.of_nat i * rowDir) in * by lia.
    replace (k + Z.of_nat (S i) * colDir) with (k + colDir + Z.of_nat i * colDir) in * by lia.
    auto.
Qed.

Lemma getSlidingMoves_elem bd row col dirs ms mv :
  getSlidingMoves bd row col dirs = Some ms → mv ∈ ms →
  ∃ d n, d ∈ dirs ∧ 1 ≤ n ∧ mv = (row + n * d.1, col + n * d.2) ∧
         clearPath bd row col d n ∧ landable bd (cellAt bd row col) mv.1 mv.2.
Proof.
  unfold getSlidingMoves. intros H Hin. bind_inv H. apply rd_Some in Hx as [_ ->].
  destruct (concatM_elem _ _ _ _ H Hin) as (d & ms' & Hd & Hs & Hin').
  cbn beta in Hs.
  destruct (slide_elem _ _ _ _ _ _ _ _ _ Hs Hin') as (j & _ & -> & Hpath & Hland).
  exists d, (Z.of_nat j + 1). split; [assumption|]. split; [lia|].
  split; [f_equal; lia|]. split.
  - intros i Hi. destruct (Hpath (Z.to_nat (i - 1))) as [H1 H2]; [lia|].
    rewrite Z2Nat.id in H1, H2 by lia.
    replace (row + d.1 + (i - 1) * d.1) with (row + i * d.1) in * by lia.
    replace (col + d.2 + (i - 1) * d.2) with (col + i * d.2) in * by lia.
    auto.
  - exact Hland.
Qed.

Lemma getSlidingMoves_intro bd row col dirs ms d n :
  getSlidingMoves bd row col dirs = Some ms →
  (∀ d, d ∈ dirs → d ∈ queenDirections) →
  d ∈ dirs → 1 ≤ n → clearPath bd row col d n →
  landable bd (cellAt bd row col) (row + n * d.1) (col + n * d.2) →
  (row + n * d.1, col + n * d.2) ∈ ms.
Proof.
  unfold getSlidingMoves. intros H Hdirs Hd Hn Hpath Hland.
  bind_inv H. apply rd_Some in Hx as [_ ->].
  destruct (concatM_elem_total _ _ _ H d Hd) as (ms' & Hs).
  eapply concatM_intro; [exact H|exact Hd|exact Hs|].
  cbn beta in Hs. rewrite <- (slide_fuel _ _ _ _ _ (Z.to_nat n)) in Hs by auto.
  replace (row + n * d.1) with (row + d.1 + Z.of_nat (Z.to_nat (n - 1)) * d.1) in *
    by (rewrite Z2Nat.id by lia; lia).
  replace (col + n * d.2) with (col + d.2 + Z.of_nat (Z.to_nat (n - 1)) * d.2) in *
    by (rewrite Z2Nat.id by lia; lia).
  eapply slide_intro; [exact Hs|lia| |exact Hland].
  intros i Hi. destruct (Hpath (Z.of_nat i + 1)) as [H1 H2]; [lia|].
  replace (row + (Z.of_nat i + 1) * d.1) with (row + d.1 + Z.of_nat i * d.1) in * by lia.
  replace (col + (Z.of_nat i + 1) * d.2) with (col + d.2 + Z.of_nat i * d.2) in * by lia.
  auto.
Qed.

Lemma getKnightMoves_jump bd row col ms r k :
  getKnightMoves bd row col = Some ms →
  ((r, k) ∈ ms ↔
   ((Z.abs (r - row) = 1 ∧ Z.abs (k - col) = 2) ∨
    (Z.abs (r - row) = 2 ∧ Z.abs (k - col) = 1)) ∧
   landable bd (cellAt bd row col) r k).
Proof.
  intros H. rewrite (getKnightMoves_iff _ _ _ _ (r, k) H). cbn [fst snd]. split.
  - intros (off & Hoff & [= -> ->] & Hland). split; [|exact Hland].
    unfold knightOffsets in Hoff.
    repeat (apply elem_of_cons in Hoff as [->|Hoff]; [cbn [fst snd]; lia|]).
    inversion Hoff.
  - intros [Hjump Hland]. exists (r - row, k - col). cbn [fst snd].
    split; [|split; [f_equal; lia|]].
    + assert (Hcases :
        (r - row, k - col) = (-2, -1) ∨ (r - row, k - col) = (-2, 1) ∨
        (r - row, k - col) = (-1, -2) ∨ (r - row, k - col) = (-1, 2) ∨
        (r - row, k - col) = (1, -2) ∨ (r - row, k - col) = (1, 2) ∨
        (r - row, k - col) = (2, -1) ∨ (r - row, k - col) = (2, 1)).
      { assert (r - row = -2 ∨ r - row = -1 ∨ r - row = 1 ∨ r - row = 2) as Hr by lia.
        assert (k - col = -2 ∨ k - col = -1 ∨ k - col = 1 ∨ k - col = 2) as Hk by lia.
        destruct Hr as [Hr|[Hr|[Hr|Hr]]], Hk as [Hk|[Hk|[Hk|Hk]]];
          rewrite Hr, Hk in *; try lia; auto 10. }
      unfold knightOffsets.
      repeat (destruct Hcases as [-> | Hcases]; [repeat constructor|]).
      rewrite Hcases. repeat constructor.
    + replace (row + (r - row)) with r by lia. replace (col + (k - col)) with k by lia.
      exact Hland.
Qed.

(** X6.  [getKnightMoves] returns exactly the squares a knight's jump away
    (one row and two columns, or two rows and one column) that lie on the
    board and are empty or hold a piece of the other colour. *)
Theorem knight_moves_exact bd row col ms r k :
  getKnightMoves bd row col = Some ms →
  ((r, k) ∈ ms ↔
   ((Z.abs (r - row) = 1 ∧ Z.abs (k - col) = 2) ∨
    (Z.abs (r - row) = 2 ∧ Z.abs (k - col) = 1)) ∧
   landable bd (cellAt bd row col) r k).
Proof. apply getKnightMoves_jump. Qed.

Lemma knight_moves_exact_witness :
  ∃ g, newGame 1 2 2 1 2 = Some g ∧
       landable (board g) (cellAt (board g) 7 1) 5 2.
Proof.
  destruct (checked (g ← newGame 1 2 2 1 2; ms ← getKnightMoves (board g) 7 1; Some (g, ms))
              (λ x, x.2 = [(5, 0); (5, 2)]))
    as ([g ms] & Hrun & Hms); [by_evaluation|].
  cbn [fst snd] in Hms. subst ms. unpack_run Hrun.
  exists g. split; [assumption|].
  apply (proj1 (knight_moves_exact (board g) 7 1 [(5, 0); (5, 2)] 5 2 ltac:(eassumption))).
  right. left.
Defined.

(** X7.  [getSlidingMoves] returns exactly the squares that lie [n ≥ 1]
    steps away in one of the given directions, with only empty squares of
    the board in between, and that are on the board and empty or held by
    a piece of the other colour.  The directions are those of the rook,
    the bishop or the queen. *)
Theorem sliding_moves_exact bd row col dirs ms r k :
  getSlidingMoves bd row col dirs = Some ms →
  (∀ d, d ∈ dirs → d ∈ queenDirections) →
  ((r, k) ∈ ms ↔
   ∃ d n, d ∈ dirs ∧ 1 ≤ n ∧ r = row + n * d.1 ∧ k = col + n * d.2 ∧
          clearPath bd row col d n ∧ landable bd (cellAt bd row col) r k).
Proof.
  intros H Hdirs. split.
  - intros Hin.
    destruct (getSlidingMoves_elem _ _ _ _ _ _ H Hin) as (d & n & Hd & Hn & [= -> ->] & Hp & Hl).
    exists d, n. auto 10.
  - intros (d & n & Hd & Hn & -> & -> & Hp & Hl).
    eapply getSlidingMoves_intro; eauto.
Qed.

Lemma sliding_moves_exact_witness :
  ∃ g, gameKingsPawn = Some g ∧
       ((3, 1) ∈ [(6, 4); (5, 3); (4, 2); (3, 1); (2, 0)] ↔
        ∃ d n, d ∈ bishopDirections ∧ 1 ≤ n ∧ 3 = 7 + n * d.1 ∧ 1 = 5 + n * d.2 ∧
               clearPath (board g) 7 5 d n ∧
               landable (board g) (cellAt (board g) 7 5) 3 1).
Proof.
  destruct (checked (g ← gameKingsPawn; ms ← getBishopMoves (board g) 7 5; Some (g, ms))
              (λ x, x.2 = [(6, 4); (5, 3); (4, 2); (3, 1); (2, 0)]))
    as ([g ms] & Hrun & Hms); [by_evaluation|].
  cbn [fst snd] in Hms. subst ms. unpack_run Hrun.
  exists g. split; [assumption|].
  apply (sliding_moves_exact (board g) 7 5 bishopDirections); [assumption|].
  intros d Hd. unfold bishopDirections in Hd. unfold queenDirections.
  repeat (apply elem_of_cons in Hd as [-> | Hd]; [repeat constructor|]).
  inversion Hd.
Defined.

(** ** Where a move may end *)

Lemma getPawnMoves_landable g row col ms mv :
  targetEmpty g → getPawnMoves g row col = Some ms → mv ∈ ms →
  landable (board g) (cellAt (board g) row col) mv.1 mv.2.
Proof.
  intros Hte H Hin. unfold getPawnMoves in H.
  apply bind_Some in H as (piece & Hp & H). apply rd_Some in Hp as [_ ->].
  apply bind_Some in H as (pc & Hpc & H). cbn zeta in H.
  apply bind_Some in H as (fwd & Hf & H).
  apply bind_Some in H as (caps & Hc & H). injection H as <-.
  apply elem_of_app in Hin as [Hin|Hin]; [|apply elem_of_app in Hin as [Hin|Hin]].
  - destruct (isWithinBoard (row + direction pc) col) eqn:Hw;
      [|injection Hf as <-; inversion Hin].
    apply bind_Some in Hf as (t1 & Ht1 & Hf). apply rd_Some in Ht1 as [_ ->].
    case_bool_decide as Hn1; [|injection Hf as <-; inversion Hin].
    assert (Hone : landable (board g) (cellAt (board g) row col) (row + direction pc) col)
      by (split; [assumption|left; assumption]).
    destruct (row =? match pc with WHITE => 6 | BLACK => 1 end) eqn:Hstart.
    + apply bind_Some in Hf as (t2 & Ht2 & Hf). apply rd_Some in Ht2 as [_ ->].
      case_bool_decide as Hn2; injection Hf as <-.
      * apply elem_of_cons in Hin as [-> | Hin]; [exact Hone|].
        apply list_elem_of_singleton in Hin as ->.
        split; [|left; exact Hn2]. cbn [fst snd].
        unfold isWithinBoard in *. destruct pc; simpl in *; lia.
      * apply list_elem_of_singleton in Hin as ->. exact Hone.
    + injection Hf as <-. apply list_elem_of_singleton in Hin as ->. exact Hone.
  - destruct (concatM_elem _ _ _ _ Hc Hin) as (off & ms' & Hoff & Hf' & Hin').
    cbn beta zeta in Hf'.
    destruct (isWithinBoard (row + direction pc) (col + off)) eqn:Hw;
      [|injection Hf' as <-; inversion Hin'].
    apply bind_Some in Hf' as (t & Ht & Hf'). apply rd_Some in Ht as [_ ->].
    destruct (cellAt (board g) (row + direction pc) (col + off)) as [| |t] eqn:Hcell;
      try (injection Hf' as <-; inversion Hin').
    case_bool_decide as Hne; injection Hf' as <-; [|inversion Hin'].
    apply list_elem_of_singleton in Hin' as ->. cbn [fst snd].
    split; [assumption|]. right. exists t, pc. auto.
  - destruct (enPassantTarget g) as [[er ec]|] eqn:Hep; [|inversion Hin].
    destruct ((row =? match pc with WHITE => 3 | BLACK => 4 end)
              && (Z.abs (col - ec) =? 1) && (er =? row + direction pc));
      [|inversion Hin].
    apply list_elem_of_singleton in Hin as ->. destruct (Hte _ _ Hep) as [Hw Hnull].
    split; [assumption|left; assumption].
Qed.

Lemma candidateMoves_landable g p row col moves mv :
  targetEmpty g → cellAt (board g) row col = Obj p →
  candidateMoves g p row col = Some moves → mv ∈ moves →
  landable (board g) (Obj p) mv.1 mv.2 ∨
  (type p = KING ∧ mv.1 = homeRank (color p) ∧ Z.abs (mv.2 - col) = 2).
Proof.
  intros Hte Hp Hc Hin. unfold candidateMoves in Hc. rewrite <- Hp.
  destruct (type p) eqn:Ht.
  - destruct (getKingMoves_elem _ _ _ _ _ Hc Hin) as (pc & Hpc & Hcase).
    rewrite Hp in Hpc. injection Hpc as <-.
    destruct Hcase as [(d & _ & _ & Hw & Hok & _)|(castles & Hcs & Hin')].
    + left. apply freeOrEnemy_landable; assumption.
    + right. split; [reflexivity|].
      apply (castlingMoves_elem _ _ _ _ _ Hcs) in Hin' as [-> | ->]; cbn [fst snd]; lia.
  - left. destruct (getSlidingMoves_elem _ _ _ _ _ _ Hc Hin) as (d & n & _ & _ & _ & _ & Hl).
    exact Hl.
  - left. destruct (getSlidingMoves_elem _ _ _ _ _ _ Hc Hin) as (d & n & _ & _ & _ & _ & Hl).
    exact Hl.
  - left. destruct (getSlidingMoves_elem _ _ _ _ _ _ Hc Hin) as (d & n & _ & _ & _ & _ & Hl).
    exact Hl.
  - left. apply (getKnightMoves_iff _ _ _ _ mv Hc) in Hin as (off & _ & _ & Hl). exact Hl.
  - left. eapply getPawnMoves_landable; eauto.
Qed.

Lemma landable_elsewhere bd p row col r k :
  cellAt bd row col = Obj p → landable bd (Obj p) r k → (r, k) ≠ (row, col).
Proof.
  intros Hp [_ Hl] [= -> ->]. rewrite Hp in Hl.
  destruct Hl as [?|(q & pc & [= <-] & [= <-] & Hne)]; [discriminate|]. contradiction.
Qed.

Lemma getValidMoves_landable g row col g' ms mv :
  reachable g → getValidMoves g row col = Some (g', ms) → mv ∈ ms →
  ∃ p, rd (board g) row col = Some (Obj p) ∧ color p = currentPlayer g ∧
    (landable (board g) (Obj p) mv.1 mv.2 ∨
     (type p = KING ∧ mv.1 = homeRank (color p) ∧ Z.abs (mv.2 - col) = 2)).
Proof.
  intros Hreach H Hin.
  destruct (getValidMoves_candidates _ _ _ _ _ mv H Hin) as (p & moves & Hp & Hcol & Hc & Hin').
  exists p.
  assert (Hrow : isRow row = true).
  { unfold getValidMoves, rd in H. destruct (isRow row); [reflexivity|discriminate]. }
  split; [unfold rd; rewrite Hrow, Hp; reflexivity|]. split; [assumption|].
  eapply candidateMoves_landable; eauto using reachable_targetEmpty.
Qed.

(** X8.  In a position of a game, every move [getValidMoves] returns ends
    on a square of the board other than the start square, empty or held by
    a piece of the other side; the only exception is the king's castling
    move, two columns to the side on its home row (whose target the code
    does not test). *)
Theorem valid_move_ends_on_free_or_enemy_square g row col g' ms r k :
  reachable g → getValidMoves g row col = Some (g', ms) → (r, k) ∈ ms →
  ∃ p, rd (board g) row col = Some (Obj p) ∧ color p = currentPlayer g ∧
    ((landable (board g) (Obj p) r k ∧ (r, k) ≠ (row, col)) ∨
     (type p = KING ∧ r = homeRank (color p) ∧ Z.abs (k - col) = 2)).
Proof.
  intros Hreach H Hin.
  destruct (getValidMoves_landable _ _ _ _ _ _ Hreach H Hin) as (p & Hp & Hcol & Hcase).
  exists p. do 2 (split; [assumption|]). cbn [fst snd] in Hcase.
  destruct Hcase as [Hl|Hk]; [left|right; exact Hk].
  split; [exact Hl|]. apply rd_Some in Hp as [_ Hp].
  eapply landable_elsewhere; eauto.
Qed.

Lemma valid_move_ends_on_free_or_enemy_square_witness :
  ∃ g, gameBishopTakesRook = Some g ∧
    ∃ p, rd (board g) 1 1 = Some (Obj p) ∧ color p = currentPlayer g ∧
      ((landable (board g) (Obj p) 7 7 ∧ (7, 7) ≠ (1, 1)) ∨
       (type p = KING ∧ 7 = homeRank (color p) ∧ Z.abs (7 - 1) = 2)).
Proof.
  destruct (checked (g ← gameBishopTakesRook; vm ← getValidMoves g 1 1; Some (g, vm))
              (λ x, (7, 7) ∈ x.2.2))
    as ([g [g' ms]] & Hrun & Hms); [by_evaluation|].
  cbn [fst snd] in Hms. unpack_run Hrun.
  exists g. split; [assumption|].
  apply (valid_move_ends_on_free_or_enemy_square g 1 1 g' ms 7 7);
    [eapply game_reachable; eassumption|assumption|assumption].
Defined.

(** ** What a successful move writes *)

Lemma makeMove_from_here g fromRow fromCol toRow toCol g' :
  reachable g → makeMove g fromRow fromCol toRow toCol = Some (g', true) →
  ∃ p ms g1,
    rd (board g) fromRow fromCol = Some (Obj p) ∧ color p = currentPlayer g ∧
    getValidMoves g fromRow fromCol = Some (g, ms) ∧ (toRow, toCol) ∈ ms ∧
    applyMove g p fromRow fromCol toRow toCol = Some g1 ∧
    forget g' = forget g1.
Proof.
  intros Hreach H.
  destruct (makeMove_applied _ _ _ _ _ _ H)
    as (p & gv & ms & g1 & Hp & Hcol & Hvm & Hin & Happ & Hsame).
  pose proof (getValidMoves_restores _ _ _ _ _ (reachable_targetBehindPawn _ Hreach) Hvm) as ->.
  exists p, ms, g1. auto 10.
Qed.

Lemma applyMove_entry g p fromRow fromCol toRow toCol g1 :
  applyMove g p fromRow fromCol toRow toCol = Some g1 →
  isRow toRow = true ∧ isRow fromRow = true ∧
  ∃ e, moveHistory g1 = moveHistory g ++ [e] ∧
    piece e = p ∧ from e = (fromRow, fromCol) ∧ to e = (toRow, toCol) ∧
    captured e = cellAt (board g) toRow toCol ∧
    enPassant e = capturedPawnPos (enPassantTarget g) p fromRow toRow toCol ∧
    promotion e = (if promotes p toRow then Some QUEEN else None) ∧
    halfMoveClock g1 =
      (if bool_decide (type p = PAWN) || truthy (cellAt (board g) toRow toCol)
       then 0 else halfMoveClock g + 1) ∧
    fullMoveNumber g1 =
      match currentPlayer g with
      | BLACK => fullMoveNumber g + 1
      | WHITE => fullMoveNumber g
      end ∧
    startPosition g1 = startPosition g.
Proof.
  unfold applyMove. intros H.
  apply bind_Some in H as (cp & Hcp & H). apply rd_Some in Hcp as [Hrow ->].
  apply bind_Some in H as (bd1 & Hbd1 & H).
  apply bind_Some in H as (bd2 & Hbd2 & H). apply wr_Some in Hbd2 as [Hrow2 _].
  apply bind_Some in H as (sp & Hsp & H).
  destruct sp as [[[[bd4 ep] clock] enP] promo].
  apply bind_Some in H as (ca & Hca & H). destruct ca as [[bd5 cast] cr1].
  apply bind_Some in H as (cr2 & Hcr2 & H). injection H as <-.
  do 2 (split; [assumption|]). eexists. split; [reflexivity|].
  cbn [piece from to captured enPassant promotion halfMoveClock fullMoveNumber
       startPosition currentPlayer].
  do 4 (split; [reflexivity|]).
  unfold promotes. destruct (bool_decide (type p = PAWN)) eqn:Hty; cbn [orb andb].
  - apply bind_Some in Hsp as (bd3 & _ & Hsp).
    destruct ((toRow =? 0) || (toRow =? 7)); [apply bind_Some in Hsp as (bdq & _ & Hsp)|];
      injection Hsp as _ _ <- <- <-; auto.
  - injection Hsp as _ _ <- <- <-. split; [|auto].
    unfold capturedPawnPos. rewrite Hty. destruct (enPassantTarget g) as [[? ?]|]; reflexivity.
Qed.

(** X9.  What a successful move of a game records: the side to move
    changes; the history grows by one entry that holds the piece, the two
    squares and what stood on the target square; the half-move clock is
    set to zero by a pawn move or a capture and grows by one otherwise;
    the move number grows after Black's move; the start position stays. *)
Theorem successful_move_bookkeeping g fromRow fromCol toRow toCol g' :
  reachable g → makeMove g fromRow fromCol toRow toCol = Some (g', true) →
  ∃ p e, rd (board g) fromRow fromCol = Some (Obj p) ∧
    currentPlayer g' = opponent (currentPlayer g) ∧
    moveHistory g' = moveHistory g ++ [e] ∧
    piece e = p ∧ from e = (fromRow, fromCol) ∧ to e = (toRow, toCol) ∧
    captured e = cellAt (board g) toRow toCol ∧
    halfMoveClock g' =
      (if bool_decide (type p = PAWN) || truthy (cellAt (board g) toRow toCol)
       then 0 else halfMoveClock g + 1) ∧
    fullMoveNumber g' =
      match currentPlayer g with
      | BLACK => fullMoveNumber g + 1
      | WHITE => fullMoveNumber g
      end ∧
    startPosition g' = startPosition g.
Proof.
  intros Hreach H.
  destruct (makeMove_from_here _ _ _ _ _ _ Hreach H)
    as (p & ms & g1 & Hp & Hcol & Hvm & Hin & Happ & Hsame).
  apply forget_fields in Hsame as (_ & -> & -> & _ & _ & -> & -> & ->).
  destruct (applyMove_fields _ _ _ _ _ _ _ Happ) as (Hside & _).
  destruct (applyMove_entry _ _ _ _ _ _ _ Happ)
    as (_ & _ & e & Hh & He1 & He2 & He3 & He4 & _ & _ & Hclock & Hnum & Hstart).
  exists p, e. auto 12.
Qed.

Lemma successful_move_bookkeeping_witness :
  ∃ g g', gameBishopTakesRook = Some g ∧ makeMove g 1 1 7 7 = Some (g', true) ∧
          halfMoveClock g' = 0 ∧ fullMoveNumber g' = fullMoveNumber g + 1.
Proof.
  destruct (checked (g ← gameBishopTakesRook; r ← makeMove g 1 1 7 7; Some (g, r))
              (λ x, x.2.2 = true ∧ currentPlayer x.1 = BLACK ∧
                    cellAt (board x.1) 1 1 = Obj (mkPiece BISHOP BLACK) ∧
                    truthy (cellAt (board x.1) 7 7) = true))
    as ([g [g' ok]] & Hrun & Hok & Hside & Hb & Hcap); [by_evaluation|].
  cbn [fst snd] in Hok, Hside, Hb, Hcap. subst ok. unpack_run Hrun.
  exists g, g'. do 2 (split; [assumption|]).
  destruct (successful_move_bookkeeping g 1 1 7 7 g')
    as (p & e & Hp & _ & _ & _ & _ & _ & _ & Hclock & Hnum & _);
    [eapply game_reachable; eassumption|assumption|].
  rewrite Hside in Hnum. rewrite Hcap, orb_true_r in Hclock. auto.
Defined.

Lemma applyMove_board_here g fromRow fromCol toRow toCol g' p :
  reachable g → makeMove g fromRow fromCol toRow toCol = Some (g', true) →
  rd (board g) fromRow fromCol = Some (Obj p) →
  ¬ (type p = KING ∧ Z.abs (toCol - fromCol) = 2) →
  board g' = movedBoard (enPassantTarget g) p (board g) fromRow fromCol toRow toCol ∧
  isRow toRow = true ∧ isRow fromRow = true ∧
  landable (board g) (Obj p) toRow toCol ∧
  (∀ cr cc, capturedPawnPos (enPassantTarget g) p fromRow toRow toCol = Some (cr, cc) →
     type p = PAWN ∧ enPassantTarget g = Some (toRow, toCol) ∧ (cr, cc) = (fromRow, toCol) ∧
     cellAt (board g) toRow toCol = Null ∧
     cellAt (board g) cr cc = Obj (mkPiece PAWN (opponent (color p)))).
Proof.
  intros Hreach H Hp Hno.
  destruct (makeMove_from_here _ _ _ _ _ _ Hreach H)
    as (p' & ms & g1 & Hp' & Hcol & Hvm & Hin & Happ & Hsame).
  rewrite Hp in Hp'. injection Hp' as <-.
  apply forget_fields in Hsame as (-> & _).
  destruct (applyMove_entry _ _ _ _ _ _ _ Happ) as (Hr1 & Hr2 & _).
  split; [eapply applyMove_movedBoard; eassumption|]. do 2 (split; [assumption|]).
  destruct (getValidMoves_landable _ _ _ _ _ _ Hreach Hvm Hin) as (p' & Hp' & _ & Hcase).
  rewrite Hp in Hp'. injection Hp' as <-. cbn [fst snd] in Hcase.
  split; [destruct Hcase as [Hl|(Hk & _ & Habs)]; [exact Hl|tauto]|].
  intros cr cc Hcap.
  destruct (getValidMoves_candidates _ _ _ _ _ _ Hvm Hin) as (q & moves & Hq & _ & Hc & Hin').
  apply rd_Some in Hp as [_ Hp]. rewrite <- Hp in Hq. injection Hq as <-.
  pose proof (pawn_trial_sound _ _ _ _ _ _ _ _ (reachable_targetBehindPawn _ Hreach)
                (eq_sym Hp) Hcol Hc Hin' Hcap) as Hpawn.
  unfold capturedPawnPos in Hcap.
  destruct (enPassantTarget g) as [[er ec]|] eqn:Hep; [|discriminate].
  destruct (bool_decide (type p = PAWN)) eqn:Hty; [|discriminate].
  destruct (toRow =? er) eqn:H1; [|discriminate].
  destruct (toCol =? ec) eqn:H2; [|discriminate].
  apply bool_decide_eq_true_1 in Hty. apply Z.eqb_eq in H1, H2. subst er ec.
  cbn [andb] in Hcap. injection Hcap as <- <-.
  destruct (reachable_targetEmpty _ Hreach _ _ Hep) as [_ Hnull]. auto.
Qed.

(** X10.  The board after a successful move of a game that is not
    castling: the moved piece stands on the target square, as a queen of
    its colour if it is a pawn that reached row 0 or 7; the start square is
    empty; a pawn taken en passant is gone; every other square is as it
    was. *)
Theorem ordinary_move_board_effect g fromRow fromCol toRow toCol g' p :
  reachable g → makeMove g fromRow fromCol toRow toCol = Some (g', true) →
  rd (board g) fromRow fromCol = Some (Obj p) →
  ¬ (type p = KING ∧ Z.abs (toCol - fromCol) = 2) →
  rd (board g') toRow toCol
    = Some (Obj (if promotes p toRow then mkPiece QUEEN (color p) else p)) ∧
  rd (board g') fromRow fromCol = Some Null ∧
  ∀ r k, (r, k) ≠ (toRow, toCol) → (r, k) ≠ (fromRow, fromCol) →
    cellAt (board g') r k =
      if decide (capturedPawnPos (enPassantTarget g) p fromRow toRow toCol = Some (r, k))
      then Null else cellAt (board g) r k.
Proof.
  intros Hreach H Hp Hno.
  destruct (applyMove_board_here _ _ _ _ _ _ _ Hreach H Hp Hno)
    as (-> & Hr1 & Hr2 & Hland & Hcap).
  apply rd_Some in Hp as [_ Hp].
  pose proof (landable_elsewhere _ _ _ _ _ _ (eq_sym Hp) Hland) as Hne.
  unfold rd. rewrite Hr1, Hr2. unfold movedBoard, trialBoard.
  destruct (capturedPawnPos (enPassantTarget g) p fromRow toRow toCol) as [[cr cc]|] eqn:Hc.
  - destruct (Hcap _ _ eq_refl) as (Hty & Hep & [= -> ->] & Hnull & Hpawn).
    assert (Hrows : toRow ≠ fromRow) by (intros ->; rewrite Hnull in Hpawn; discriminate).
    assert (Hcols : toCol ≠ fromCol).
    { intros ->. rewrite <- Hp in Hpawn. injection Hpawn as Hpp.
      apply (f_equal color) in Hpp. simpl in Hpp. destruct (color p); discriminate. }
    split; [|split].
    + destruct (promotes p toRow); rewrite !cellAt_put;
        repeat (case_decide; try congruence); reflexivity.
    + destruct (promotes p toRow); rewrite !cellAt_put;
        repeat (case_decide; try congruence); reflexivity.
    + intros r k Hn1 Hn2.
      destruct (promotes p toRow); rewrite !cellAt_put;
        repeat (case_decide; try congruence); reflexivity.
  - split; [|split].
    + destruct (promotes p toRow); rewrite !cellAt_put;
        repeat (case_decide; try congruence); reflexivity.
    + destruct (promotes p toRow); rewrite !cellAt_put;
        repeat (case_decide; try congruence); reflexivity.
    + intros r k Hn1 Hn2.
      destruct (promotes p toRow); rewrite !cellAt_put;
        repeat (case_decide; try congruence); reflexivity.
Qed.

Lemma ordinary_move_board_effect_witness :
  ∃ g g', gameBishopTakesRook = Some g ∧ makeMove g 1 1 7 7 = Some (g', true) ∧
          rd (board g') 7 7 = Some (Obj (mkPiece BISHOP BLACK)) ∧
          rd (board g') 1 1 = Some Null.
Proof.
  destruct (checked (g ← gameBishopTakesRook; r ← makeMove g 1 1 7 7; Some (g, r))
              (λ x, x.2.2 = true ∧
                    rd (board x.1) 1 1 = Some (Obj (mkPiece BISHOP BLACK))))
    as ([g [g' ok]] & Hrun & Hok & Hb); [by_evaluation|].
  cbn [fst snd] in Hok, Hb. subst ok. unpack_run Hrun.
  exists g, g'. do 2 (split; [assumption|]).
  destruct (ordinary_move_board_effect g 1 1 7 7 g' (mkPiece BISHOP BLACK))
    as (Hto & Hfrom & _);
    [eapply game_reachable; eassumption|assumption|assumption
    |intros [? _]; discriminate|].
  split; [exact Hto|exact Hfrom].
Defined.

Lemma getPawnMoves_cols g row col ms mv :
  getPawnMoves g row col = Some ms → mv ∈ ms → Z.abs (mv.2 - col) ≤ 1.
Proof.
  intros H Hin. unfold getPawnMoves in H.
  apply bind_Some in H as (piece & Hp & H).
  apply bind_Some in H as (pc & Hpc & H). cbn zeta in H.
  apply bind_Some in H as (fwd & Hf & H).
  apply bind_Some in H as (caps & Hc & H). injection H as <-.
  apply elem_of_app in Hin as [Hin|Hin]; [|apply elem_of_app in Hin as [Hin|Hin]].
  - destruct (isWithinBoard (row + direction pc) col);
      [|injection Hf as <-; inversion Hin].
    apply bind_Some in Hf as (t1 & Ht1 & Hf).
    case_bool_decide as Hn1; [|injection Hf as <-; inversion Hin].
    destruct (row =? match pc with WHITE => 6 | BLACK => 1 end).
    + apply bind_Some in Hf as (t2 & Ht2 & Hf).
      case_bool_decide as Hn2; injection Hf as <-;
        repeat (apply elem_of_cons in Hin as [-> | Hin]; [cbn [snd]; lia|]); inversion Hin.
    + injection Hf as <-. apply list_elem_of_singleton in Hin as ->. cbn [snd]. lia.
  - destruct (concatM_elem _ _ _ _ Hc Hin) as (off & ms' & Hoff & Hf' & Hin').
    cbn beta zeta in Hf'.
    assert (Hmv : mv ∈ [(row + direction pc, col + off)]).
    { destruct (isWithinBoard (row + direction pc) (col + off));
        [|injection Hf' as <-; inversion Hin'].
      apply bind_Some in Hf' as (t & Ht & Hf').
      destruct t as [| |t]; try (injection Hf' as <-; inversion Hin').
      case_bool_decide; injection Hf' as <-; [exact Hin'|inversion Hin']. }
    apply list_elem_of_singleton in Hmv as ->. cbn [snd].
    repeat (apply elem_of_cons in Hoff as [-> | Hoff]; [lia|]). inversion Hoff.
  - destruct (enPassantTarget g) as [[er ec]|] eqn:Hep; [|inversion Hin].
    destruct (row =? match pc with WHITE => 3 | BLACK => 4 end); [|inversion Hin].
    destruct (Z.abs (col - ec) =? 1) eqn:Habs; [|inversion Hin].
    destruct (er =? row + direction pc); [|inversion Hin].
    apply list_elem_of_singleton in Hin as ->. cbn [snd]. apply Z.eqb_eq in Habs. lia.
Qed.

(** X12.  The en passant capture in a game.  A pawn that moves to the en
    passant target comes from the row of the pawn that just advanced two
    rows, one column to the side; that pawn, beside it, is removed; the
    capturing pawn stands on the target; and the history entry of the move
    records no captured piece, only the square of the removed pawn. *)
Theorem en_passant_capture_removes_advanced_pawn g fromRow fromCol er ec g' p :
  reachable g → enPassantTarget g = Some (er, ec) →
  rd (board g) fromRow fromCol = Some (Obj p) → type p = PAWN →
  makeMove g fromRow fromCol er ec = Some (g', true) →
  fromRow = er - direction (color p) ∧ Z.abs (ec - fromCol) = 1 ∧
  rd (board g) fromRow ec = Some (Obj (mkPiece PAWN (opponent (color p)))) ∧
  rd (board g') fromRow ec = Some Null ∧
  rd (board g') er ec = Some (Obj p) ∧
  rd (board g') fromRow fromCol = Some Null ∧
  ∃ e, last (moveHistory g') = Some e ∧
       captured e = Null ∧ enPassant e = Some (fromRow, ec).
Proof.
  intros Hreach Hep Hp Hty H.
  assert (Hno : ¬ (type p = KING ∧ Z.abs (ec - fromCol) = 2))
    by (intros [Hk _]; congruence).
  destruct (applyMove_board_here _ _ _ _ _ _ _ Hreach H Hp Hno)
    as (Hbd & Hr1 & Hr2 & Hland & Hcap).
  assert (Hc : capturedPawnPos (enPassantTarget g) p fromRow er ec = Some (fromRow, ec)).
  { unfold capturedPawnPos. rewrite Hep, (bool_decide_eq_true_2 _ Hty), !Z.eqb_refl.
    reflexivity. }
  destruct (Hcap _ _ Hc) as (_ & _ & _ & Hnull & Hpawn).
  destruct (makeMove_from_here _ _ _ _ _ _ Hreach H)
    as (p' & ms & g1 & Hp' & Hcol & Hvm & Hin & Happ & Hsame).
  rewrite Hp in Hp'. injection Hp' as <-.
  apply forget_fields in Hsame as (_ & _ & Hhist & _).
  destruct (applyMove_entry _ _ _ _ _ _ _ Happ)
    as (_ & _ & e & Hh & _ & _ & _ & He4 & He5 & _).
  destruct (getValidMoves_candidates _ _ _ _ _ _ Hvm Hin) as (q & moves & Hq & _ & Hcand & Hin').
  pose proof Hp as Hp0. apply rd_Some in Hp0 as [_ Hp0].
  rewrite <- Hp0 in Hq. injection Hq as <-.
  unfold candidateMoves in Hcand. rewrite Hty in Hcand.
  destruct (reachable_targetBehindPawn _ Hreach _ _ Hep) as [Her Hbehind].
  assert (Hfrom : fromRow = er - direction (color p)).
  { destruct (getPawnMoves_shape _ _ _ _ _ Hcand Hin') as (pc & Hpc & Hshape).
    rewrite <- Hp0 in Hpc. injection Hpc as <-. cbn [fst snd] in Hshape.
    destruct Hshape as [Hs|[[= Hs _] Hstart]]; [lia|].
    rewrite Hcol in *. unfold targetRow in Her.
    destruct (currentPlayer g); simpl in *; lia. }
  assert (Hside : Z.abs (ec - fromCol) = 1).
  { pose proof (getPawnMoves_cols _ _ _ _ _ Hcand Hin') as Hle. cbn [snd] in Hle.
    assert (ec ≠ fromCol); [|lia]. intros ->.
    rewrite Hcol in Hfrom. rewrite <- Hfrom, <- Hp0 in Hbehind. injection Hbehind as Hpp.
    apply (f_equal color) in Hpp. simpl in Hpp. rewrite Hcol in Hpp.
    destruct (currentPlayer g); discriminate. }
  assert (Hnp : promotes p er = false).
  { unfold promotes. rewrite Her. unfold targetRow.
    destruct (currentPlayer g); rewrite andb_false_r; reflexivity. }
  assert (Hrows : er ≠ fromRow) by (destruct (color p); simpl in Hfrom; lia).
  assert (Hcols : ec ≠ fromCol) by lia.
  split; [assumption|]. split; [assumption|].
  unfold rd. rewrite Hr1, Hr2. split; [rewrite Hpawn; reflexivity|].
  rewrite Hbd. unfold movedBoard, trialBoard. rewrite Hnp, Hc.
  split; [|split; [|split]].
  - rewrite !cellAt_put; repeat (case_decide; try congruence); reflexivity.
  - rewrite !cellAt_put; repeat (case_decide; try congruence); reflexivity.
  - rewrite !cellAt_put; repeat (case_decide; try congruence); reflexivity.
  - exists e. rewrite Hhist, Hh, last_snoc. rewrite He4, He5. auto.
Qed.

Lemma en_passant_capture_removes_advanced_pawn_witness :
  ∃ g g', gameEnPassant = Some g ∧ makeMove g 3 4 2 3 = Some (g', true) ∧
          rd (board g) 3 3 = Some (Obj (mkPiece PAWN BLACK)) ∧
          rd (board g') 3 3 = Some Null.
Proof.
  destruct (checked (g ← gameEnPassant; r ← makeMove g 3 4 2 3; Some (g, r))
              (λ x, x.2.2 = true ∧ enPassantTarget x.1 = Some (2, 3) ∧
                    rd (board x.1) 3 4 = Some (Obj (mkPiece PAWN WHITE))))
    as ([g [g' ok]] & Hrun & Hok & Hep & Hb); [by_evaluation|].
  cbn [fst snd] in Hok, Hep, Hb. subst ok. unpack_run Hrun.
  exists g, g'. do 2 (split; [assumption|]).
  destruct (en_passant_capture_removes_advanced_pawn g 3 4 2 3 g' (mkPiece PAWN WHITE))
    as (_ & _ & Hbefore & Hafter & _);
    [eapply game_reachable; eassumption|assumption|assumption|reflexivity|assumption|].
  split; [exact Hbefore|exact Hafter].
Defined.

(** ** Which start positions the generator reaches *)

Lemma allDrawnTwice_checked : forallLists 8 (drawnTwice outputs) = true.
Proof. vm_cast_no_check (eq_refl true). Qed.

Lemma forallLists_spec n : ∀ P l,
  forallLists n P = true → length l = n → Forall (λ x, x ∈ backrankTypes) l → P l = true.
Proof.
  induction n as [|n IH]; intros P l H Hlen Hall.
  - destruct l; [exact H|discriminate].
  - destruct l as [|x l]; [discriminate|]. cbn [forallLists] in H.
    apply Forall_cons in Hall as [Hx Hall].
    rewrite forallb_forall in H. specialize (H x).
    apply (IH (λ l, P (x :: l)) l); [|simpl in Hlen; lia|assumption].
    apply H. apply list_elem_of_In. exact Hx.
Qed.

Lemma length_counts l :
  length l = (countType KING l + countType QUEEN l + countType ROOK l +
              countType BISHOP l + countType KNIGHT l + strays l)%nat.
Proof.
  unfold countType, strays. induction l as [|x l IH]; [reflexivity|].
  rewrite !filter_cons. simpl length at 1. rewrite IH.
  assert (Hx : x ∈ backrankTypes ∨ x ∉ backrankTypes)
    by (destruct (decide (x ∈ backrankTypes)); auto).
  destruct Hx as [Hx|Hx].
  - rewrite (decide_False (P := x ∉ backrankTypes)) by auto.
    unfold backrankTypes in Hx.
    repeat (apply elem_of_cons in Hx as [-> | Hx];
            [repeat (case_decide; try congruence); simpl; lia|]).
    inversion Hx.
  - rewrite (decide_True (P := x ∉ backrankTypes)) by auto.
    repeat (case_decide; [subst x; exfalso; apply Hx; unfold backrankTypes; repeat constructor|]).
    simpl. lia.
Qed.

Lemma strays_none l : strays l = 0%nat → Forall (λ x, x ∈ backrankTypes) l.
Proof.
  unfold strays. induction l as [|x l IH]; intros H; [constructor|].
  rewrite filter_cons in H. destruct (decide (x ∉ backrankTypes)) as [Hx|Hx]; [discriminate|].
  constructor; [|auto]. destruct (decide (x ∈ backrankTypes)); [assumption|contradiction].
Qed.

Lemma backrankPieces_types br :
  backrankPieces br → Forall (λ x, x ∈ backrankTypes) br.
Proof.
  intros (Hlen & HR & HN & HB & HQ & HK & _). apply strays_none.
  pose proof (length_counts br). lia.
Qed.

Lemma bishopsBounded_complete backrank :
  bishopsOnOppositeParity backrank → bishopsBounded backrank.
Proof.
  intros H. unfold bishopsBounded. apply Forall_forall. intros i _.
  apply Forall_forall. intros j _. apply H.
Qed.

Lemma kingBounded_complete backrank :
  length backrank = 8%nat → kingBetweenRooks backrank → kingBounded backrank.
Proof.
  intros Hlen H. unfold kingBounded. apply Forall_forall. intros k _ Hk.
  destruct (H k Hk) as (i & j & Hik & Hkj & Hi & Hj).
  apply Exists_exists. exists i. split.
  { apply elem_of_seq. apply lookup_lt_Some in Hi. lia. }
  apply Exists_exists. exists j. split.
  { apply elem_of_seq. apply lookup_lt_Some in Hj. lia. }
  auto.
Qed.

Lemma countIn_map br (ds : list (nat * nat * nat * nat * nat)) :
  countIn br (map generate5 ds) = length (filter (λ d, generate5 d = Some br) ds).
Proof.
  unfold countIn. induction ds as [|d ds IH]; [reflexivity|].
  simpl map. rewrite !filter_cons. case_decide; simpl; rewrite IH; reflexivity.
Qed.

(** X13.  Every back rank allowed by the rules of Chess960 - two rooks,
    two knights, two bishops, a queen and a king, the bishops on files of
    opposite parity, the king between the rooks - is produced by exactly
    two of the 1920 combinations of draws.  So the generator reaches all
    start positions, each with the same number of combinations. *)
Theorem every_start_position_drawn_twice backrank :
  backrankPieces backrank → bishopsOnOppositeParity backrank →
  kingBetweenRooks backrank →
  length (drawsOf backrank) = 2%nat.
Proof.
  intros Hp Hb Hk.
  pose proof (forallLists_spec 8 (drawnTwice outputs) backrank allDrawnTwice_checked (proj1 Hp)
                (backrankPieces_types _ Hp)) as Hc.
  unfold drawnTwice in Hc. pose proof Hp as (Hlen & HR & _ & _ & HQ & HK & _).
  rewrite (bool_decide_eq_true_2 _ HK), (bool_decide_eq_true_2 _ HQ),
    (bool_decide_eq_true_2 _ HR), (bool_decide_eq_true_2 _ Hp) in Hc.
  rewrite bool_decide_eq_true_2 in Hc
    by (split; [apply bishopsBounded_complete|apply kingBounded_complete]; assumption).
  apply bool_decide_eq_true_1 in Hc. unfold outputs in Hc. rewrite countIn_map in Hc. exact Hc.
Qed.

Lemma every_start_position_drawn_twice_witness :
  length (drawsOf [Some ROOK; Some KNIGHT; Some BISHOP; Some QUEEN;
                   Some KING; Some BISHOP; Some KNIGHT; Some ROOK]) = 2%nat.
Proof.
  apply every_start_position_drawn_twice.
  - repeat split; reflexivity.
  - apply bishopsBounded_sound; [reflexivity|].
    apply (bool_decide_eq_true_1 (bishopsBounded _)). vm_compute. reflexivity.
  - apply kingBounded_sound; [reflexivity|].
    apply (bool_decide_eq_true_1 (kingBounded _)). vm_compute. reflexivity.
Defined.

(** ** Legal moves of a side *)

Lemma getValidMoves_other_side g row col p :
  rd (board g) row col = Some (Obj p) → color p ≠ currentPlayer g →
  getValidMoves g row col = Some (g, []).
Proof.
  intros Hp Hne. unfold getValidMoves. rewrite Hp. cbn [mbind option_bind].
  rewrite bool_decide_eq_true_2 by assumption. reflexivity.
Qed.

Lemma hasLegalMovesFrom_other_side g c l :
  c ≠ currentPlayer g → (∀ rk, rk ∈ l → isRow rk.1 = true) →
  hasLegalMovesFrom g c l = Some (g, false).
Proof.
  intros Hne. induction l as [|[r k] l IH]; intros Hrows; [reflexivity|].
  assert (Hr : isRow r = true) by (apply (Hrows (r, k)); left).
  assert (IH' : hasLegalMovesFrom g c l = Some (g, false))
    by (apply IH; intros rk Hin; apply Hrows; right; exact Hin).
  cbn [hasLegalMovesFrom].
  assert (Hrd : rd (board g) r k = Some (cellAt (board g) r k))
    by (unfold rd; rewrite Hr; reflexivity).
  rewrite Hrd. cbn [mbind option_bind].
  destruct (cellAt (board g) r k) as [| |p] eqn:Hcell; try exact IH'.
  case_bool_decide as Hc; [|exact IH'].
  rewrite (getValidMoves_other_side g r k p) by (rewrite ?Hrd; congruence).
  cbn [mbind option_bind fst snd]. exact IH'.
Qed.

Lemma squares_rows rk : rk ∈ squares → isRow rk.1 = true.
Proof.
  destruct rk as [r k]. intros Hin. apply elem_of_squares in Hin.
  unfold isWithinBoard in Hin. unfold isRow. cbn [fst]. lia.
Qed.

(** X14.  For the side that is not to move, [hasLegalMoves] answers
    [false] whatever the position, because [getValidMoves] returns no move
    for a piece of that side.  So for that side [isInCheckmate] is just
    [isInCheck], and [isInStalemate] is its negation. *)
Theorem side_not_to_move_has_no_legal_moves g :
  let side := opponent (currentPlayer g) in
  hasLegalMoves g side = Some (g, false) ∧
  isInCheckmate g side = (chk ← isInCheck (board g) side; Some (g, chk)) ∧
  isInStalemate g side = (chk ← isInCheck (board g) side; Some (g, negb chk)).
Proof.
  intros side.
  assert (Hno : hasLegalMoves g side = Some (g, false)).
  { unfold hasLegalMoves. apply hasLegalMovesFrom_other_side; [|apply squares_rows].
    unfold side. destruct (currentPlayer g); discriminate. }
  split; [exact Hno|]. unfold isInCheckmate, isInStalemate. rewrite Hno.
  split; destruct (isInCheck (board g) side) as [[|]|]; reflexivity.
Qed.

Lemma hasLegalMovesFrom_iff g l : ∀ b,
  targetBehindPawn g → (∀ rk, rk ∈ l → isRow rk.1 = true) →
  hasLegalMovesFrom g (currentPlayer g) l = Some (g, b) →
  (b = true ↔
   ∃ r k m ms, (r, k) ∈ l ∧ getValidMoves g r k = Some (g, m :: ms)).
Proof.
  intros b Hep. revert b. induction l as [|[r k] l IH]; intros b Hrows H.
  - injection H as <-. split; [discriminate|]. intros (r & k & m & ms & Hin & _). inversion Hin.
  - assert (Hr : isRow r = true) by (apply (Hrows (r, k)); left).
    assert (Hrows' : ∀ rk, rk ∈ l → isRow rk.1 = true)
      by (intros rk Hin; apply Hrows; right; exact Hin).
    assert (Hrd : rd (board g) r k = Some (cellAt (board g) r k))
      by (unfold rd; rewrite Hr; reflexivity).
    assert (Hskip : getValidMoves g r k = Some (g, []) →
                    hasLegalMovesFrom g (currentPlayer g) l = Some (g, b) →
                    b = true ↔ ∃ r0 k0 m ms, (r0, k0) ∈ (r, k) :: l ∧
                                   getValidMoves g r0 k0 = Some (g, m :: ms)).
    { intros Hnone Hrest. rewrite (IH b Hrows' Hrest). split.
      - intros (r0 & k0 & m & ms & Hin & Hvm). exists r0, k0, m, ms. split; [right|]; assumption.
      - intros (r0 & k0 & m & ms & Hin & Hvm). exists r0, k0, m, ms. split; [|assumption].
        apply elem_of_cons in Hin as [[= -> ->]|Hin]; [congruence|assumption]. }
    cbn [hasLegalMovesFrom] in H. rewrite Hrd in H. cbn [mbind option_bind] in H.
    destruct (cellAt (board g) r k) as [| |p] eqn:Hcell.
    + apply Hskip; [|exact H]. unfold getValidMoves. rewrite Hrd. reflexivity.
    + apply Hskip; [|exact H]. unfold getValidMoves. rewrite Hrd. reflexivity.
    + case_bool_decide as Hc.
      * apply bind_Some in H as ([g1 ms] & Hvm & H). cbn [fst snd] in H.
        pose proof (getValidMoves_restores _ _ _ _ _ Hep Hvm) as ->.
        destruct ms as [|m ms]; [apply Hskip; assumption|].
        injection H as <-. split; [|reflexivity]. intros _.
        exists r, k, m, ms. split; [left|assumption].
      * apply Hskip; [|exact H]. apply (getValidMoves_other_side g r k p); [|assumption].
        rewrite Hrd. reflexivity.
Qed.

(** X15.  In a position of a game, [hasLegalMoves] for the side to move
    leaves the state as it was and answers [true] exactly when
    [getValidMoves] returns at least one move for some square of the
    board. *)
Theorem has_legal_moves_iff_some_valid_move g g' b :
  reachable g → hasLegalMoves g (currentPlayer g) = Some (g', b) →
  g' = g ∧
  (b = true ↔
   ∃ r k m ms, isWithinBoard r k = true ∧ getValidMoves g r k = Some (g, m :: ms)).
Proof.
  intros Hreach H. pose proof (reachable_targetBehindPawn _ Hreach) as Hep.
  unfold hasLegalMoves in H.
  pose proof (hasLegalMovesFrom_restores _ _ _ _ _ Hep H) as ->.
  split; [reflexivity|].
  rewrite (hasLegalMovesFrom_iff g squares b Hep squares_rows H).
  split; intros (r & k & m & ms & Hin & Hvm); exists r, k, m, ms;
    (split; [apply elem_of_squares; exact Hin|exact Hvm]).
Qed.

Lemma has_legal_moves_iff_some_valid_move_witness :
  ∃ g, newGame 1 2 2 1 2 = Some g ∧
       ∃ r k m ms, isWithinBoard r k = true ∧ getValidMoves g r k = Some (g, m :: ms).
Proof.
  destruct (checked (g ← newGame 1 2 2 1 2; r ← hasLegalMoves g (currentPlayer g); Some (g, r))
              (λ x, x.2.2 = true))
    as ([g [g' b]] & Hrun & Hb); [by_evaluation|].
  cbn [fst snd] in Hb. subst b. unpack_run Hrun.
  exists g. split; [assumption|].
  destruct (has_legal_moves_iff_some_valid_move g g' true) as [_ Hiff];
    [eapply newGame_reachable; eassumption|assumption|].
  apply Hiff. reflexivity.
Defined.

(** ** The attack oracle *)

Lemma someM_true {A} (f : A → option bool) l :
  someM f l = Some true → ∃ x, x ∈ l ∧ f x = Some true.
Proof.
  induction l as [|a l IH]; simpl; intros H; [discriminate|].
  bind_inv H. destruct x.
  - exists a. split; [left|assumption].
  - destruct (IH H) as (y & Hin & Hy). exists y. split; [right|]; assumption.
Qed.

Lemma someM_false {A} (f : A → option bool) l :
  someM f l = Some false → ∀ x, x ∈ l → f x = Some false.
Proof.
  induction l as [|a l IH]; simpl; intros H x Hin; [inversion Hin|].
  bind_inv H. destruct x0; [discriminate|].
  apply elem_of_cons in Hin as [-> | Hin]; auto.
Qed.

Lemma lineDirections_queen t d : d ∈ lineDirections t → d ∈ queenDirections.
Proof.
  destruct t; simpl; intros Hd; try (inversion Hd; fail);
    unfold bishopDirections, rookDirections, queenDirections in *;
    repeat (apply elem_of_cons in Hd as [-> | Hd]; [repeat constructor|]);
    inversion Hd.
Qed.

Lemma line_attack bd p r k row col ms :
  cellAt bd r k = Obj p →
  getSlidingMoves bd r k (lineDirections (type p)) = Some ms →
  (hasMove ms row col = true ↔
   ∃ d n, d ∈ lineDirections (type p) ∧ 1 ≤ n ∧
          row = r + n * d.1 ∧ col = k + n * d.2 ∧
          clearPath bd r k d n ∧ landable bd (Obj p) row col).
Proof.
  intros Hp Hs. rewrite hasMove_elem, <- Hp. split.
  - intros Hin.
    destruct (getSlidingMoves_elem _ _ _ _ _ _ Hs Hin) as (d & n & Hd & Hn & [= -> ->] & Hc & Hl).
    exists d, n. auto 10.
  - intros (d & n & Hd & Hn & -> & -> & Hc & Hl).
    eapply getSlidingMoves_intro; eauto using lineDirections_queen.
Qed.

Lemma king_attack r k row col :
  hasMove (flat_map (λ d : Z * Z,
             if isWithinBoard (r + d.1) (k + d.2) then [(r + d.1, k + d.2)] else [])
             queenDirections) row col = true ↔
  Z.abs (row - r) ≤ 1 ∧ Z.abs (col - k) ≤ 1 ∧ (row, col) ≠ (r, k) ∧
  isWithinBoard row col = true.
Proof.
  rewrite hasMove_elem, list_elem_of_In, in_flat_map. split.
  - intros (d & Hd & Hin). apply list_elem_of_In in Hd.
    destruct (isWithinBoard (r + d.1) (k + d.2)) eqn:Hw; [|inversion Hin].
    destruct Hin as [[= <- <-]|[]]. unfold queenDirections in Hd.
    repeat (apply elem_of_cons in Hd as [-> | Hd];
            [cbn [fst snd] in *; repeat split; try lia; try assumption;
             intros [= ? ?]; lia|]).
    inversion Hd.
  - intros (Hr & Hc & Hne & Hw). exists (row - r, col - k). cbn [fst snd].
    replace (r + (row - r)) with row by lia. replace (k + (col - k)) with col by lia.
    rewrite Hw. split; [|left; reflexivity]. apply list_elem_of_In.
    assert (Hr' : row - r = -1 ∨ row - r = 0 ∨ row - r = 1) by lia.
    assert (Hc' : col - k = -1 ∨ col - k = 0 ∨ col - k = 1) by lia.
    unfold queenDirections.
    destruct Hr' as [Hr'|[Hr'|Hr']], Hc' as [Hc'|[Hc'|Hc']]; rewrite Hr', Hc';
      try (repeat constructor; fail).
    exfalso. apply Hne. f_equal; lia.
Qed.

Lemma attacksFrom_iff bd row col ac r k x :
  attacksFrom bd row col ac (r, k) = Some x →
  (x = true ↔ ∃ p, cellAt bd r k = Obj p ∧ color p = ac ∧ bearsOn bd p r k row col).
Proof.
  unfold attacksFrom. intros H. bind_inv H. apply rd_Some in Hx as [_ ->].
  destruct (cellAt bd r k) as [| |p] eqn:Hcell;
    try (injection H as <-; split; [discriminate|intros (q & [=] & _)]).
  case_bool_decide as Hcol;
    [|injection H as <-; split; [discriminate|intros (q & [= <-] & Hq & _); contradiction]].
  assert (Hgoal : (x = true ↔ bearsOn bd p r k row col) →
                  (x = true ↔ ∃ q, Obj p = Obj q ∧ color q = ac ∧ bearsOn bd q r k row col)).
  { intros ->. split; [intros Hb; exists p; auto|intros (q & [= <-] & _ & Hb); exact Hb]. }
  apply Hgoal. clear Hgoal. unfold bearsOn.
  destruct (type p) eqn:Hty.
  - injection H as <-. apply king_attack.
  - bind_inv H. injection H as <-.
    pose proof (line_attack bd p r k row col x0 Hcell) as Hl. rewrite Hty in Hl.
    apply Hl. exact Hx.
  - bind_inv H. injection H as <-.
    pose proof (line_attack bd p r k row col x0 Hcell) as Hl. rewrite Hty in Hl.
    apply Hl. exact Hx.
  - bind_inv H. injection H as <-.
    pose proof (line_attack bd p r k row col x0 Hcell) as Hl. rewrite Hty in Hl.
    apply Hl. exact Hx.
  - bind_inv H. injection H as <-.
    rewrite hasMove_elem, (getKnightMoves_jump _ _ _ _ row col Hx), Hcell. reflexivity.
  - injection H as <-. rewrite andb_true_iff, orb_true_iff, !Z.eqb_eq. lia.
Qed.

Lemma isSquareUnderAttack_iff bd row col defendingColor b :
  isSquareUnderAttack bd row col defendingColor = Some b →
  (b = true ↔
   ∃ r k p, isWithinBoard r k = true ∧ cellAt bd r k = Obj p ∧
            color p = opponent defendingColor ∧ bearsOn bd p r k row col).
Proof.
  unfold isSquareUnderAttack. cbn zeta. intros H. destruct b.
  - split; [intros _|reflexivity].
    apply someM_true in H as ([r k] & Hin & Hatt).
    destruct (proj1 (attacksFrom_iff _ _ _ _ _ _ _ Hatt) eq_refl) as (p & Hp1 & Hp2 & Hp3).
    exists r, k, p. split; [apply elem_of_squares; exact Hin|auto].
  - split; [discriminate|]. intros (r & k & p & Hw & Hp1 & Hp2 & Hp3).
    apply elem_of_squares in Hw.
    pose proof (someM_false _ _ H _ Hw) as Hatt.
    apply (attacksFrom_iff _ _ _ _ _ _ _ Hatt). eauto.
Qed.

(** X16.  [isSquareUnderAttack] answers [true] exactly when a piece of the
    other colour on a square of the board bears on the square: a pawn
    diagonally ahead of it, a king next to it, a knight or a line piece
    that could move there (so a square held by a piece of the attackers'
    own colour counts as attacked by pawns and kings only). *)
Theorem attack_oracle_exact bd row col defendingColor b :
  isSquareUnderAttack bd row col defendingColor = Some b →
  (b = true ↔
   ∃ r k p, isWithinBoard r k = true ∧ cellAt bd r k = Obj p ∧
            color p = opponent defendingColor ∧ bearsOn bd p r k row col).
Proof. apply isSquareUnderAttack_iff. Qed.

Lemma attack_oracle_exact_witness :
  ∃ g, gameBishopOnF1 = Some g ∧
    ∃ r k p, isWithinBoard r k = true ∧ cellAt (board g) r k = Obj p ∧
             color p = opponent WHITE ∧ bearsOn (board g) p r k 7 5.
Proof.
  destruct (checked (g ← gameBishopOnF1; b ← isSquareUnderAttack (board g) 7 5 WHITE;
                     Some (g, b))
              (λ x, x.2 = true))
    as ([g b] & Hrun & Hb); [by_evaluation|].
  cbn [fst snd] in Hb. subst b. unpack_run Hrun.
  exists g. split; [assumption|].
  apply (attack_oracle_exact (board g) 7 5 WHITE true); [assumption|reflexivity].
Defined.

(** ** The position number of a start position *)

Lemma startPositions_numbered d :
  d ∈ allDraws →
  ∃ br n, generate5 d = Some br ∧ Chess960PositionToNumber br = Num n ∧ 0 ≤ n ≤ 959.
Proof.
  assert (Hc : forallb (λ d, match generate5 d with
                             | Some br => match Chess960PositionToNumber br with
                                          | Num n => (0 <=? n) && (n <=? 959)
                                          | NaN => false
                                          end
                             | None => false
                             end) allDraws = true) by by_evaluation.
  rewrite forallb_forall in Hc. intros Hd. apply list_elem_of_In in Hd.
  specialize (Hc d Hd). cbn beta in Hc.
  destruct (generate5 d) as [br|]; [|discriminate].
  destruct (Chess960PositionToNumber br) as [n|] eqn:Hn; [|discriminate].
  exists br, n. split; [reflexivity|]. split; [exact Hn|]. lia.
Qed.

(** X17.  For every start position the generator can produce,
    [Chess960PositionToNumber] returns a number from 0 to 959 (never -1,
    never [NaN]).  The number does not identify the position: the 960
    start positions share 112 numbers. *)
Theorem position_number_in_range_not_unique :
  (∀ i1 i2 i3 i4 i5 backrank,
     (i1 < 4)%nat → (i2 < 4)%nat → (i3 < 6)%nat → (i4 < 5)%nat → (i5 < 4)%nat →
     generateChess960Position i1 i2 i3 i4 i5 = Some backrank →
     ∃ n, Chess960PositionToNumber backrank = Num n ∧ 0 ≤ n ≤ 959) ∧
  length startPositions = 960%nat ∧
  length (remove_dups (map Chess960PositionToNumber startPositions)) = 112%nat.
Proof.
  split.
  - intros i1 i2 i3 i4 i5 backrank H1 H2 H3 H4 H5 Hgen.
    destruct (startPositions_numbered _ (elem_of_allDraws _ _ _ _ _ H1 H2 H3 H4 H5))
      as (br & n & Hbr & Hn).
    cbn in Hbr. rewrite Hgen in Hbr. injection Hbr as <-. exists n. exact Hn.
  - split; by_evaluation.
Qed.

(** ** The square a piece has left *)

Lemma castleRook_column bd pc fromCol toCol bd' e r :
  castleRook bd pc fromCol toCol = Some (bd', e) →
  cellAt bd r fromCol = Null → cellAt bd' r fromCol = Null.
Proof.
  unfold castleRook. intros H Hnull.
  destruct (Z.abs (toCol - fromCol) =? 2); [|injection H as <- _; exact Hnull].
  apply bind_Some in H as (rookFromCol & _ & H).
  apply bind_Some in H as (rook & _ & H).
  apply bind_Some in H as (bd1 & Hbd1 & H). apply wr_Some in Hbd1 as [_ ->].
  apply bind_Some in H as (bd2 & Hbd2 & H). injection H as <- _.
  assert (H1 : cellAt (put bd (homeRank pc) (if fromCol <? toCol then fromCol + 1 else fromCol - 1)
                          rook) r fromCol = Null).
  { rewrite cellAt_put. case_decide as Heq; [|exact Hnull].
    injection Heq as _ Heq. destruct (fromCol <? toCol); lia. }
  destruct rookFromCol as [i|]; [|injection Hbd2 as <-; exact H1].
  apply wr_Some in Hbd2 as [_ ->]. rewrite cellAt_put. case_decide; [reflexivity|exact H1].
Qed.

Lemma applyMove_from_empty g p fromRow fromCol toRow toCol g1 :
  applyMove g p fromRow fromCol toRow toCol = Some g1 →
  (type p = PAWN → toRow ≠ fromRow) →
  rd (board g1) fromRow fromCol = Some Null.
Proof.
  unfold applyMove. intros H Hpawn.
  apply bind_Some in H as (cp & _ & H).
  apply bind_Some in H as (bd1 & Hbd1 & H). apply wr_Some in Hbd1 as [_ ->].
  apply bind_Some in H as (bd2 & Hbd2 & H). apply wr_Some in Hbd2 as [Hrow ->].
  apply bind_Some in H as (sp & Hsp & H).
  destruct sp as [[[[bd4 ep] clock] enP] promo].
  apply bind_Some in H as (ca & Hca & H). destruct ca as [[bd5 cast] cr1].
  apply bind_Some in H as (cr2 & _ & H). injection H as <-. cbn [board].
  unfold rd. rewrite Hrow. f_equal.
  assert (H2 : cellAt (put (put (board g) toRow toCol (Obj p)) fromRow fromCol Null)
                      fromRow fromCol = Null)
    by (rewrite cellAt_put, decide_True by reflexivity; reflexivity).
  assert (H4 : cellAt bd4 fromRow fromCol = Null).
  { destruct (bool_decide (type p = PAWN)) eqn:Hty; [|injection Hsp as <- _ _ _ _; exact H2].
    apply bool_decide_eq_true_1 in Hty. specialize (Hpawn Hty).
    apply bind_Some in Hsp as (bd3 & Hbd3 & Hsp).
    assert (H3 : cellAt bd3 fromRow fromCol = Null).
    { destruct (capturedPawnPos (enPassantTarget g) p fromRow toRow toCol) as [[cr cc]|];
        [|injection Hbd3 as <-; exact H2].
      apply wr_Some in Hbd3 as [_ ->]. rewrite cellAt_put.
      destruct (decide ((fromRow, fromCol) = (cr, cc))); [reflexivity|exact H2]. }
    destruct ((toRow =? 0) || (toRow =? 7)); [|injection Hsp as <- _ _ _ _; exact H3].
    apply bind_Some in Hsp as (bdq & Hbdq & Hsp). apply wr_Some in Hbdq as [_ ->].
    injection Hsp as <- _ _ _ _. rewrite cellAt_put.
    destruct (decide ((fromRow, fromCol) = (toRow, toCol))) as [Heq|_];
      [injection Heq as Heq _; congruence|exact H3]. }
  destruct (bool_decide (type p = KING)); [|injection Hca as <- _ _; exact H4].
  apply bind_Some in Hca as ([bdc e] & Hc & Hca). injection Hca as <- _ _.
  eapply castleRook_column; eassumption.
Qed.

(** X18.  After a successful move the start square is empty, so the same
    call cannot succeed twice in a row: a second [makeMove] from that
    square, whatever the target, returns [false] and changes nothing.
    (The simulated socket hands each sent move back to [onReceivedMove]
    of the same game, which calls [makeMove] with it again.) *)
Theorem repeated_move_is_rejected g fromRow fromCol toRow toCol g' :
  makeMove g fromRow fromCol toRow toCol = Some (g', true) →
  rd (board g') fromRow fromCol = Some Null ∧
  ∀ r k, makeMove g' fromRow fromCol r k = Some (g', false).
Proof.
  intros H.
  destruct (makeMove_applied _ _ _ _ _ _ H)
    as (p & gv & ms & g1 & Hp & Hcol & Hvm & Hin & Happ & Hsame).
  apply forget_fields in Hsame as (Hb & _).
  assert (Hnull : rd (board g') fromRow fromCol = Some Null).
  { rewrite Hb. eapply applyMove_from_empty; [exact Happ|]. intros Hty.
    destruct (getValidMoves_candidates _ _ _ _ _ _ Hvm Hin) as (q & moves & Hq & _ & Hc & Hin').
    apply rd_Some in Hp as [_ Hp]. rewrite <- Hp in Hq. injection Hq as <-.
    unfold candidateMoves in Hc. rewrite Hty in Hc.
    destruct (getPawnMoves_shape _ _ _ _ _ Hc Hin') as (pc & _ & Hshape).
    cbn [fst] in Hshape. destruct Hshape as [Hs|[[= Hs _] _]]; destruct pc; simpl in Hs; lia. }
  split; [exact Hnull|]. intros r k. unfold makeMove. rewrite Hnull. reflexivity.
Qed.

Lemma repeated_move_is_rejected_witness :
  ∃ g g', newGame 1 2 2 1 2 = Some g ∧ makeMove g 6 4 4 4 = Some (g', true) ∧
          makeMove g' 6 4 4 4 = Some (g', false).
Proof.
  destruct (checked (g ← newGame 1 2 2 1 2; r ← makeMove g 6 4 4 4; Some (g, r))
              (λ x, x.2.2 = true))
    as ([g [g' ok]] & Hrun & Hok); [by_evaluation|].
  cbn [fst snd] in Hok. subst ok. unpack_run Hrun.
  exists g, g'. do 2 (split; [assumption|]).
  apply (repeated_move_is_rejected g 6 4 4 4 g'). assumption.
Defined.

(** ** Pawns and kings in the positions of a game *)

Lemma getRandomEmptyPosition_index backrank i pos :
  getRandomEmptyPosition backrank i = Some pos → (i < 8)%nat.
Proof.
  unfold getRandomEmptyPosition, getRandomPosition, emptyPositions. intros H.
  apply lookup_lt_Some in H.
  pose proof (length_filter (λ i, bool_decide (backrank !! i = Some None)) (seq 0 8)) as Hle.
  rewrite length_seq in Hle. lia.
Qed.

Lemma generate_in_range i1 i2 i3 i4 i5 backrank :
  generateChess960Position i1 i2 i3 i4 i5 = Some backrank →
  (i1, i2, i3, i4, i5) ∈ allDraws.
Proof.
  intros H.
  assert (Hc : forallb (λ d, match generate5 d with
                             | Some _ => bool_decide (d ∈ allDraws)
                             | None => true
                             end) widerDraws = true) by by_evaluation.
  rewrite forallb_forall in Hc.
  assert (Hin : (i1, i2, i3, i4, i5) ∈ widerDraws).
  { unfold generateChess960Position in H. cbn zeta in H.
    apply bind_Some in H as (b1 & Hb1 & H). apply bind_Some in H as (b2 & Hb2 & H).
    apply bind_Some in H as (q & Hq & H). apply bind_Some in H as (n1 & Hn1 & H).
    apply bind_Some in H as (n2 & Hn2 & H).
    apply lookup_lt_Some in Hb1, Hb2. simpl in Hb1, Hb2.
    apply getRandomEmptyPosition_index in Hq, Hn1, Hn2.
    unfold widerDraws.
    apply list_elem_of_bind; exists i1; split; [|apply elem_of_seq; lia].
    apply list_elem_of_bind; exists i2; split; [|apply elem_of_seq; lia].
    apply list_elem_of_bind; exists i3; split; [|apply elem_of_seq; lia].
    apply list_elem_of_bind; exists i4; split; [|apply elem_of_seq; lia].
    apply list_elem_of_bind; exists i5; split; [|apply elem_of_seq; lia].
    apply list_elem_of_singleton. reflexivity. }
  apply list_elem_of_In in Hin. specialize (Hc _ Hin). cbn in Hc. rewrite H in Hc.
  apply bool_decide_eq_true_1 in Hc. exact Hc.
Qed.

Lemma pawnsKingsOk_sound bd :
  pawnsKingsOk bd = true → pawnsInside bd ∧ kingsUnique bd.
Proof.
  unfold pawnsKingsOk. cbn zeta. rewrite forallb_forall. intros Hc.
  assert (Hentry : ∀ r k p, cellAt bd r k = Obj p → In ((r, k), Some p) (map_to_list bd)).
  { intros r k p Hp. apply list_elem_of_In, elem_of_map_to_list.
    unfold cellAt in Hp. destruct (bd !! (r, k)) as [[q|]|]; congruence. }
  split.
  - intros r k p Hp Hty. specialize (Hc _ (Hentry _ _ _ Hp)). cbn [fst snd] in Hc.
    rewrite Hty in Hc. lia.
  - intros r k r' k' p p' Hp Hp' Hty Hty' Hcol.
    specialize (Hc _ (Hentry _ _ _ Hp)). cbn [fst snd] in Hc. rewrite Hty in Hc.
    rewrite forallb_forall in Hc. specialize (Hc _ (Hentry _ _ _ Hp')). cbn [fst snd] in Hc.
    rewrite (bool_decide_eq_true_2 _ Hty'), (bool_decide_eq_true_2 _ Hcol) in Hc.
    apply bool_decide_eq_true_1 in Hc. exact Hc.
Qed.

Lemma start_pawnsKingsOk i1 i2 i3 i4 i5 g fen :
  initializeChess960 i1 i2 i3 i4 i5 = Some (g, fen) →
  pawnsInside (board g) ∧ kingsUnique (board g).
Proof.
  intros H. apply pawnsKingsOk_sound.
  assert (Hc : forallb (λ d : nat * nat * nat * nat * nat,
                  let '(i1, i2, i3, i4, i5) := d in
                  match initializeChess960 i1 i2 i3 i4 i5 with
                  | Some r => pawnsKingsOk (board r.1)
                  | None => true
                  end) allDraws = true) by by_evaluation.
  rewrite forallb_forall in Hc.
  assert (Hin : (i1, i2, i3, i4, i5) ∈ allDraws).
  { unfold initializeChess960 in H. apply bind_Some in H as (br & Hbr & _).
    eapply generate_in_range, Hbr. }
  apply list_elem_of_In in Hin. specialize (Hc _ Hin). cbn in Hc. rewrite H in Hc. exact Hc.
Qed.

Lemma findRookFrom_rook bd rank c cols i :
  findRookFrom bd rank c cols = Some (Some i) →
  isPiece (cellAt bd rank i) ROOK c = true.
Proof.
  induction cols as [|j cols IH]; simpl; intros H; [discriminate|].
  apply bind_Some in H as (x & Hx & H). apply rd_Some in Hx as [_ ->].
  destruct (isPiece (cellAt bd rank j) ROOK c) eqn:Hrook; [|exact (IH H)].
  injection H as <-. exact Hrook.
Qed.

Lemma isPiece_type x t c q : isPiece x t c = true → x = Obj q → type q = t ∧ color q = c.
Proof.
  intros H ->. simpl in H. apply andb_true_iff in H as [H1 H2].
  apply bool_decide_eq_true_1 in H1, H2. auto.
Qed.

Lemma castleRook_cells bd pc fromCol toCol bd' e r k q :
  castleRook bd pc fromCol toCol = Some (bd', e) →
  cellAt bd' r k = Obj q → cellAt bd r k = Obj q ∨ type q = ROOK.
Proof.
  unfold castleRook. intros H Hq.
  destruct (Z.abs (toCol - fromCol) =? 2); [|injection H as <- _; auto].
  apply bind_Some in H as (rookFromCol & Hfind & H).
  apply bind_Some in H as (rook & Hrook & H).
  apply bind_Some in H as (bd1 & Hbd1 & H). apply wr_Some in Hbd1 as [_ ->].
  apply bind_Some in H as (bd2 & Hbd2 & H). injection H as <- _.
  assert (Hrk : ∀ q', rook = Obj q' → type q' = ROOK).
  { intros q' ->. destruct rookFromCol as [i|]; [|discriminate].
    apply rd_Some in Hrook as [_ Hrook].
    assert (Hp : isPiece (cellAt bd (homeRank pc) i) ROOK pc = true).
    { destruct (fromCol <? toCol); eapply findRookFrom_rook; exact Hfind. }
    rewrite <- Hrook in Hp. exact (proj1 (isPiece_type _ _ _ _ Hp eq_refl)). }
  assert (H1 : ∀ q', cellAt (put bd (homeRank pc)
                        (if fromCol <? toCol then fromCol + 1 else fromCol - 1) rook) r k
                     = Obj q' → cellAt bd r k = Obj q' ∨ type q' = ROOK).
  { intros q' Hq'. rewrite cellAt_put in Hq'.
    destruct (decide ((r, k) = (homeRank pc,
                                if fromCol <? toCol then fromCol + 1 else fromCol - 1)));
      [right; exact (Hrk _ Hq')|left; exact Hq']. }
  destruct rookFromCol as [i|]; [|injection Hbd2 as <-; exact (H1 _ Hq)].
  apply wr_Some in Hbd2 as [_ ->]. rewrite cellAt_put in Hq.
  destruct (decide ((r, k) = (homeRank pc, i))); [discriminate|exact (H1 _ Hq)].
Qed.

(** Where the pieces of the board after a move come from: a piece stands
    where it stood, or it is the moved piece on the target square (a queen
    for a pawn that reached row 0 or 7), or it is a rook. *)
Lemma applyMove_cells g p fromRow fromCol toRow toCol g1 r k q :
  applyMove g p fromRow fromCol toRow toCol = Some g1 →
  cellAt (board g1) r k = Obj q →
  (cellAt (board g) r k = Obj q ∧ (r, k) ≠ (fromRow, fromCol)) ∨
  ((r, k) = (toRow, toCol) ∧
   q = if promotes p toRow then mkPiece QUEEN (color p) else p) ∨
  type q = ROOK.
Proof.
  unfold applyMove. intros H Hq.
  apply bind_Some in H as (cp & _ & H).
  apply bind_Some in H as (bd1 & Hbd1 & H). apply wr_Some in Hbd1 as [_ ->].
  apply bind_Some in H as (bd2 & Hbd2 & H). apply wr_Some in Hbd2 as [_ ->].
  apply bind_Some in H as (sp & Hsp & H).
  destruct sp as [[[[bd4 ep] clock] enP] promo].
  apply bind_Some in H as (ca & Hca & H). destruct ca as [[bd5 cast] cr1].
  apply bind_Some in H as (cr2 & _ & H). injection H as <-. cbn [board] in Hq.
  assert (H2 : ∀ q', cellAt (put (put (board g) toRow toCol (Obj p)) fromRow fromCol Null) r k
                     = Obj q' →
               (cellAt (board g) r k = Obj q' ∧ (r, k) ≠ (fromRow, fromCol)) ∨
               ((r, k) = (toRow, toCol) ∧ q' = p)).
  { intros q' Hq'. rewrite !cellAt_put in Hq'.
    destruct (decide ((r, k) = (fromRow, fromCol))); [discriminate|].
    destruct (decide ((r, k) = (toRow, toCol))); [right; split; congruence|left; auto]. }
  assert (H4 : ∀ q', cellAt bd4 r k = Obj q' →
               (cellAt (board g) r k = Obj q' ∧ (r, k) ≠ (fromRow, fromCol)) ∨
               ((r, k) = (toRow, toCol) ∧
                q' = if promotes p toRow then mkPiece QUEEN (color p) else p)).
  { intros q' Hq'. unfold promotes.
    destruct (bool_decide (type p = PAWN)) eqn:Hty; cbn [andb];
      [|injection Hsp as <- _ _ _ _; exact (H2 _ Hq')].
    apply bind_Some in Hsp as (bd3 & Hbd3 & Hsp).
    assert (H3 : ∀ q', cellAt bd3 r k = Obj q' →
                 (cellAt (board g) r k = Obj q' ∧ (r, k) ≠ (fromRow, fromCol)) ∨
                 ((r, k) = (toRow, toCol) ∧ q' = p)).
    { intros q'' Hq''.
      destruct (capturedPawnPos (enPassantTarget g) p fromRow toRow toCol) as [[cr cc]|];
        [|injection Hbd3 as <-; exact (H2 _ Hq'')].
      apply wr_Some in Hbd3 as [_ ->]. rewrite cellAt_put in Hq''.
      destruct (decide ((r, k) = (cr, cc))); [discriminate|exact (H2 _ Hq'')]. }
    destruct ((toRow =? 0) || (toRow =? 7)); [|injection Hsp as <- _ _ _ _; exact (H3 _ Hq')].
    apply bind_Some in Hsp as (bdq & Hbdq & Hsp). apply wr_Some in Hbdq as [_ ->].
    injection Hsp as <- _ _ _ _. rewrite cellAt_put in Hq'.
    destruct (decide ((r, k) = (toRow, toCol))) as [Heq|Hne].
    - right. split; [exact Heq|congruence].
    - destruct (H3 _ Hq') as [Hold|[Heq _]]; [left; exact Hold|contradiction]. }
  destruct (bool_decide (type p = KING));
    [|injection Hca as <- _ _; destruct (H4 _ Hq) as [?|?]; auto].
  apply bind_Some in Hca as ([bdc e] & Hc & Hca). injection Hca as <- _ _.
  cbn [fst] in Hq.
  destruct (castleRook_cells _ _ _ _ _ _ _ _ _ Hc Hq) as [Hold|Hrook]; [|auto].
  destruct (H4 _ Hold) as [?|?]; auto.
Qed.

Lemma reachable_pawnsKings g :
  reachable g → pawnsInside (board g) ∧ kingsUnique (board g).
Proof.
  induction 1 as [i1 i2 i3 i4 i5 g fen Hinit|g fr fc tr tc g' Hreach [IHp IHk] Hmove
                 |g over res _ IH].
  - eapply start_pawnsKingsOk, Hinit.
  - destruct (makeMove_from_here _ _ _ _ _ _ Hreach Hmove)
      as (p & ms & g1 & Hp & Hcol & Hvm & Hin & Happ & Hsame).
    apply forget_fields in Hsame as (-> & _).
    apply rd_Some in Hp as [_ Hp].
    destruct (applyMove_entry _ _ _ _ _ _ _ Happ) as (Hrow & _).
    split.
    + intros r k q Hq Hty.
      destruct (applyMove_cells _ _ _ _ _ _ _ _ _ _ Happ Hq) as [[Hold _]|[[Heq Hq']|Hrook]].
      * eapply IHp; eassumption.
      * injection Heq as -> ->. unfold promotes in Hq'.
        destruct (bool_decide (type p = PAWN)) eqn:Hpt; cbn [andb] in Hq';
          [|subst q; apply bool_decide_eq_false_1 in Hpt; contradiction].
        destruct ((tr =? 0) || (tr =? 7)) eqn:Hlast; [subst q; discriminate|].
        apply orb_false_iff in Hlast as [H0 H7]. apply Z.eqb_neq in H0, H7.
        unfold isRow in Hrow. lia.
      * congruence.
    + intros r k r' k' q q' Hq Hq' Hty Hty' Hc.
      assert (Hmoved : ∀ q0, type q0 = KING →
                q0 = (if promotes p tr then mkPiece QUEEN (color p) else p) → q0 = p).
      { intros q0 Hk ->. destruct (promotes p tr); [discriminate|reflexivity]. }
      destruct (applyMove_cells _ _ _ _ _ _ _ _ _ _ Happ Hq) as [[Hold Hne]|[[Heq Hm]|Hrook]];
        [| |congruence];
        destruct (applyMove_cells _ _ _ _ _ _ _ _ _ _ Happ Hq')
          as [[Hold' Hne']|[[Heq' Hm']|Hrook']]; try congruence.
      * eapply IHk; eassumption.
      * apply (Hmoved _ Hty') in Hm'. subst q'. exfalso. apply Hne.
        eapply (IHk r k fr fc q p); eauto.
      * apply (Hmoved _ Hty) in Hm. subst q. exfalso. apply Hne'.
        eapply (IHk r' k' fr fc q' p); eauto.
  - exact IH.
Qed.

(** X19.  In every position of a game no pawn stands on row 0 or row 7:
    a pawn that reaches the last row is replaced by a queen in the same
    call of [makeMove]. *)
Theorem no_pawn_on_first_or_last_row g r k p :
  reachable g → cellAt (board g) r k = Obj p → type p = PAWN → 1 ≤ r ≤ 6.
Proof. intros Hreach. apply (proj1 (reachable_pawnsKings g Hreach)). Qed.

Lemma no_pawn_on_first_or_last_row_witness :
  ∃ g, gameEnPassant = Some g ∧ cellAt (board g) 3 4 = Obj (mkPiece PAWN WHITE) ∧ 1 ≤ 3 ≤ 6.
Proof.
  destruct (checked gameEnPassant (λ g, cellAt (board g) 3 4 = Obj (mkPiece PAWN WHITE)))
    as (g & Hrun & Hp); [by_evaluation|].
  exists g. do 2 (split; [assumption|]).
  apply (no_pawn_on_first_or_last_row g 3 4 (mkPiece PAWN WHITE));
    [eapply game_reachable; eassumption|assumption|reflexivity].
Defined.

(** X20.  In every position of a game each side has at most one king on
    the board: no move creates a king, so the king [isInCheck] finds is
    the only one of its colour. *)
Theorem at_most_one_king_per_side g r k r' k' p p' :
  reachable g →
  cellAt (board g) r k = Obj p → cellAt (board g) r' k' = Obj p' →
  type p = KING → type p' = KING → color p = color p' →
  (r, k) = (r', k').
Proof. intros Hreach. apply (proj2 (reachable_pawnsKings g Hreach)). Qed.

Lemma at_most_one_king_per_side_witness :
  ∃ g, gameEnPassant = Some g ∧ cellAt (board g) 7 4 = Obj (mkPiece KING WHITE) ∧
       (7, 4) = (7, 4).
Proof.
  destruct (checked gameEnPassant (λ g, cellAt (board g) 7 4 = Obj (mkPiece KING WHITE)))
    as (g & Hrun & Hp); [by_evaluation|].
  exists g. do 2 (split; [assumption|]).
  apply (at_most_one_king_per_side g 7 4 7 4 (mkPiece KING WHITE) (mkPiece KING WHITE));
    [eapply game_reachable; eassumption|assumption|assumption|reflexivity..].
Defined.

(** ** The FEN of a start position *)

(** X21.  The text [initializeChess960] returns is the FEN of the start
    position: Black's back rank in lower case, the two rows of pawns with
    four empty rows between them, White's back rank in upper case, White
    to move, all four castling letters, no en passant target, clock 0 and
    move number 1. *)
Theorem start_position_fen i1 i2 i3 i4 i5 g fen :
  initializeChess960 i1 i2 i3 i4 i5 = Some (g, fen) →
  ∃ backrank, startPosition g = Some backrank ∧ fen = startFEN backrank.
Proof.
  intros H.
  assert (Hc : forallb (λ d : nat * nat * nat * nat * nat,
                  let '(i1, i2, i3, i4, i5) := d in
                  match initializeChess960 i1 i2 i3 i4 i5 with
                  | Some r =>
                      match startPosition r.1 with
                      | Some backrank => bool_decide (r.2 = startFEN backrank)
                      | None => false
                      end
                  | None => true
                  end) allDraws = true) by by_evaluation.
  rewrite forallb_forall in Hc.
  assert (Hin : (i1, i2, i3, i4, i5) ∈ allDraws).
  { unfold initializeChess960 in H. apply bind_Some in H as (br & Hbr & _).
    eapply generate_in_range, Hbr. }
  apply list_elem_of_In in Hin. specialize (Hc _ Hin). cbn beta iota in Hc.
  rewrite H in Hc. cbn [fst snd] in Hc.
  destruct (startPosition g) as [backrank|]; [|discriminate].
  exists backrank. split; [reflexivity|]. apply bool_decide_eq_true_1 in Hc. exact Hc.
Qed.

Lemma start_position_fen_witness :
  ∃ g, initializeChess960 1 2 2 1 2
       = Some (g, "rnbqkbnr/pppppppp/8/8/8/8/PPPPPPPP/RNBQKBNR w KQkq - 0 1"%string).
Proof.
  destruct (checked (initializeChess960 1 2 2 1 2)
              (λ x, startPosition x.1
                    = Some [Some ROOK; Some KNIGHT; Some BISHOP; Some QUEEN;
                            Some KING; Some BISHOP; Some KNIGHT; Some ROOK]))
    as ([g fen] & Hrun & Hsp); [by_evaluation|].
  cbn [fst] in Hsp. exists g.
  destruct (start_position_fen 1 2 2 1 2 g fen Hrun) as (backrank & Hb & ->).
  rewrite Hsp in Hb. injection Hb as <-. exact Hrun.
Defined.

(** ** What castling does to the board *)

Lemma findRooks_range bd rank k c cols : ∀ ks qs ks' qs',
  findRooks bd rank k c cols ks qs = Some (ks', qs') →
  (ks' = ks ∨ ks' ∈ cols) ∧ (qs' = qs ∨ qs' ∈ cols).
Proof.
  induction cols as [|i cols IH]; simpl; intros ks qs ks' qs' H.
  - injection H as <- <-. auto.
  - apply bind_Some in H as (x & _ & H).
    assert (Hstep : ∀ ks0 qs0, (ks0 = ks ∨ ks0 = i) → (qs0 = qs ∨ qs0 = i) →
              findRooks bd rank k c cols ks0 qs0 = Some (ks', qs') →
              (ks' = ks ∨ ks' ∈ i :: cols) ∧ (qs' = qs ∨ qs' ∈ i :: cols)).
    { intros ks0 qs0 Hks Hqs H0. destruct (IH _ _ _ _ H0) as [H1 H2]. split.
      - destruct H1 as [-> | H1]; [destruct Hks as [-> | ->]; [auto|right; left]|right; right; exact H1].
      - destruct H2 as [-> | H2]; [destruct Hqs as [-> | ->]; [auto|right; left]|right; right; exact H2]. }
    destruct (isPiece x ROOK c); [|apply (Hstep ks qs); auto].
    destruct ((k <? i) && (ks =? -1)); [apply (Hstep i qs); auto|].
    destruct (i <? k); [apply (Hstep ks i)|apply (Hstep ks qs)]; auto.
Qed.

(** The rook of an offered castling move stands on the board. *)
Lemma castlingMoves_rook g pc col ms :
  castlingMoves g pc col = Some ms →
  ((homeRank pc, col + 2) ∈ ms →
     ∃ rookCol, 0 ≤ rookCol < 8 ∧ col < rookCol ∧
       isPiece (cellAt (board g) (homeRank pc) rookCol) ROOK pc = true ∧
       ∀ i, col < i < rookCol → cellAt (board g) (homeRank pc) i = Null) ∧
  ((homeRank pc, col - 2) ∈ ms →
     ∃ rookCol, 0 ≤ rookCol < 8 ∧ rookCol < col ∧
       isPiece (cellAt (board g) (homeRank pc) rookCol) ROOK pc = true ∧
       ∀ i, rookCol < i < col → cellAt (board g) (homeRank pc) i = Null).
Proof.
  unfold castlingMoves. intros H.
  apply bind_Some in H as (chk & _ & H).
  destruct chk; [injection H as <-; split; intros Hin; inversion Hin|].
  cbn zeta in H. apply bind_Some in H as ([ks qs] & Hrooks & H). cbn [fst snd] in H.
  destruct (findRooks_rooks _ _ _ _ _ _ _ _ _ Hrooks) as [Hks Hqs]; [auto..|].
  destruct (findRooks_range _ _ _ _ _ _ _ _ _ Hrooks) as [Rks Rqs].
  apply bind_Some in H as (okk & Hokk & H). apply bind_Some in H as (okq & Hokq & H).
  injection H as <-. split; intros Hin.
  - assert (okk = true) as ->.
    { destruct okk; [reflexivity|]. destruct okq; simpl in Hin;
        [apply list_elem_of_singleton in Hin; injection Hin; lia|inversion Hin]. }
    unfold canCastleKingSide in Hokk.
    destruct (kingSide (rightsOf (castlingRights g) pc) && negb (ks =? -1)) eqn:Hc;
      [|discriminate].
    apply andb_true_iff in Hc as [_ Hc]. apply negb_true_iff, Z.eqb_neq in Hc.
    destruct Hks as [?|[Hlt Hrook]]; [contradiction|].
    destruct Rks as [?|Rks]; [contradiction|]. apply elem_of_seqZ in Rks.
    exists ks. split; [lia|]. split; [lia|]. split; [exact Hrook|]. intros i Hi.
    assert (Hsq : castleSquareOk (board g) (homeRank pc) pc i = Some true).
    { apply (allM_true _ _ Hokk). apply elem_of_seqZ. lia. }
    apply castleSquareOk_true in Hsq as [Hsq _]. apply rd_Some in Hsq as [_ Hsq]. auto.
  - assert (okq = true) as ->.
    { destruct okq; [reflexivity|]. destruct okk; simpl in Hin;
        [apply list_elem_of_singleton in Hin; injection Hin; lia|inversion Hin]. }
    unfold canCastleQueenSide in Hokq.
    destruct (queenSide (rightsOf (castlingRights g) pc) && negb (qs =? -1)) eqn:Hc;
      [|discriminate].
    apply andb_true_iff in Hc as [_ Hc]. apply negb_true_iff, Z.eqb_neq in Hc.
    destruct Hqs as [?|[Hlt Hrook]]; [contradiction|].
    destruct Rqs as [?|Rqs]; [contradiction|]. apply elem_of_seqZ in Rqs.
    exists qs. split; [lia|]. split; [lia|]. split; [exact Hrook|]. intros i Hi.
    assert (Hsq : castleSquareOk (board g) (homeRank pc) pc i = Some true).
    { apply (allM_true _ _ Hokq). apply elem_of_seqZ. lia. }
    apply castleSquareOk_true in Hsq as [Hsq _]. apply rd_Some in Hsq as [_ Hsq]. auto.
Qed.

Lemma findRookFrom_app bd rank c l1 rc l2 :
  isRow rank = true →
  (∀ i, i ∈ l1 → isPiece (cellAt bd rank i) ROOK c = false) →
  isPiece (cellAt bd rank rc) ROOK c = true →
  findRookFrom bd rank c (l1 ++ rc :: l2) = Some (Some rc).
Proof.
  intros Hrow Hl1 Hrc. unfold rd.
  induction l1 as [|i l1 IH]; cbn [app findRookFrom]; unfold rd; rewrite Hrow;
    cbn [mbind option_bind].
  - rewrite Hrc. reflexivity.
  - rewrite (Hl1 i) by left. apply IH. intros j Hj. apply Hl1. right. exact Hj.
Qed.

Lemma homeRank_row c : isRow (homeRank c) = true.
Proof. destruct c; reflexivity. Qed.

(** The board after a castling move, as [makeMove] computes it from the
    board on which the king has moved. *)
Lemma applyMove_castling g p fromRow fromCol toRow toCol g1 :
  applyMove g p fromRow fromCol toRow toCol = Some g1 →
  type p = KING → Z.abs (toCol - fromCol) = 2 →
  ∃ rookFromCol,
    (if fromCol <? toCol
     then findRookFrom (put (put (board g) toRow toCol (Obj p)) fromRow fromCol Null)
            (homeRank (color p)) (color p) (seqZ (fromCol + 1) (8 - (fromCol + 1)))
     else findRookFrom (put (put (board g) toRow toCol (Obj p)) fromRow fromCol Null)
            (homeRank (color p)) (color p) (reverse (seqZ 0 fromCol)))
    = Some rookFromCol ∧
    ∀ i, rookFromCol = Some i →
      board g1 =
        put (put (put (put (board g) toRow toCol (Obj p)) fromRow fromCol Null)
                 (homeRank (color p)) (if fromCol <? toCol then fromCol + 1 else fromCol - 1)
                 (cellAt (put (put (board g) toRow toCol (Obj p)) fromRow fromCol Null)
                         (homeRank (color p)) i))
            (homeRank (color p)) i Null.
Proof.
  unfold applyMove. intros H Hty Habs.
  apply bind_Some in H as (cp & _ & H).
  apply bind_Some in H as (bd1 & Hbd1 & H). apply wr_Some in Hbd1 as [_ ->].
  apply bind_Some in H as (bd2 & Hbd2 & H). apply wr_Some in Hbd2 as [_ ->].
  apply bind_Some in H as (sp & Hsp & H).
  destruct sp as [[[[bd4 ep] clock] enP] promo].
  apply bind_Some in H as (ca & Hca & H). destruct ca as [[bd5 cast] cr1].
  apply bind_Some in H as (cr2 & _ & H). injection H as <-. cbn [board].
  rewrite bool_decide_eq_false_2 in Hsp by congruence. injection Hsp as <- _ _ _ _.
  rewrite bool_decide_eq_true_2 in Hca by assumption.
  apply bind_Some in Hca as ([bdc e] & Hc & Hca). injection Hca as <- _ _. cbn [fst].
  unfold castleRook in Hc. cbn zeta in Hc.
  rewrite (proj2 (Z.eqb_eq _ _) Habs) in Hc.
  apply bind_Some in Hc as (rookFromCol & Hfind & Hc).
  exists rookFromCol. split; [exact Hfind|]. intros i ->.
  apply bind_Some in Hc as (rook & Hrook & Hc). apply rd_Some in Hrook as [_ ->].
  apply bind_Some in Hc as (b1 & Hb1 & Hc). apply wr_Some in Hb1 as [_ ->].
  apply bind_Some in Hc as (b2 & Hb2 & Hc). apply wr_Some in Hb2 as [_ ->].
  injection Hc as <- _. reflexivity.
Qed.

Lemma castled_cells bd fromRow fromCol rank toCol mid rc (p q : Piece) :
  toCol ≠ fromCol → mid ≠ fromCol → rc ≠ fromCol →
  mid ≠ toCol → rc ≠ toCol → rc ≠ mid →
  cellAt bd rank rc = Obj q →
  let bd2 := put (put bd rank toCol (Obj p)) fromRow fromCol Null in
  let bd' := put (put bd2 rank mid (cellAt bd2 rank rc)) rank rc Null in
  cellAt bd' rank toCol = Obj p ∧
  cellAt bd' rank mid = Obj q ∧
  cellAt bd' fromRow fromCol = Null ∧
  cellAt bd' rank rc = Null ∧
  ∀ r k, (r, k) ≠ (rank, toCol) → (r, k) ≠ (rank, mid) →
         (r, k) ≠ (fromRow, fromCol) → (r, k) ≠ (rank, rc) →
         cellAt bd' r k = cellAt bd r k.
Proof.
  intros H1 H2 H3 H4 H5 H6 Hq bd2 bd'. subst bd' bd2.
  assert (Hrook : cellAt (put (put bd rank toCol (Obj p)) fromRow fromCol Null) rank rc = Obj q).
  { rewrite !cellAt_put.
    destruct (decide ((rank, rc) = (fromRow, fromCol))) as [[= ? ?]|_]; [contradiction|].
    destruct (decide ((rank, rc) = (rank, toCol))) as [[= ?]|_]; [contradiction|]. exact Hq. }
  rewrite Hrook. repeat split.
  - rewrite !cellAt_put.
    destruct (decide ((rank, toCol) = (rank, rc))) as [[= ?]|_]; [congruence|].
    destruct (decide ((rank, toCol) = (rank, mid))) as [[= ?]|_]; [congruence|].
    destruct (decide ((rank, toCol) = (fromRow, fromCol))) as [[= ? ?]|_]; [contradiction|].
    rewrite decide_True by reflexivity. reflexivity.
  - rewrite !cellAt_put.
    destruct (decide ((rank, mid) = (rank, rc))) as [[= ?]|_]; [congruence|].
    rewrite decide_True by reflexivity. reflexivity.
  - rewrite !cellAt_put.
    destruct (decide ((fromRow, fromCol) = (rank, rc))) as [[= ? ?]|_]; [congruence|].
    destruct (decide ((fromRow, fromCol) = (rank, mid))) as [[= ? ?]|_]; [congruence|].
    rewrite decide_True by reflexivity. reflexivity.
  - rewrite cellAt_put, decide_True by reflexivity. reflexivity.
  - intros r k N1 N2 N3 N4. rewrite !cellAt_put.
    rewrite !decide_False by assumption. reflexivity.
Qed.

Lemma rook_piece x c q : isPiece x ROOK c = true → x = Obj q → q = mkPiece ROOK c.
Proof.
  intros H Hx. destruct (isPiece_type _ _ _ _ H Hx) as [Ht Hc].
  destruct q as [t c']. simpl in *. congruence.
Qed.

(** X22.  Castling when the square the king passes and the square it
    lands on are empty.  The king goes two columns to the side on its home
    row, and the nearest rook of its colour on that side is put on the
    square the king passed: that rook stands on the board, at least three
    columns from the king, with only empty squares between the two.  The
    squares the two pieces left are empty and no other square changes. *)
Theorem castling_moves_king_and_rook g fromRow fromCol toRow toCol g' p :
  reachable g → makeMove g fromRow fromCol toRow toCol = Some (g', true) →
  rd (board g) fromRow fromCol = Some (Obj p) → type p = KING →
  Z.abs (toCol - fromCol) = 2 →
  cellAt (board g) toRow toCol = Null →
  cellAt (board g) toRow ((fromCol + toCol) / 2) = Null →
  toRow = homeRank (color p) ∧
  ∃ rookCol,
    0 ≤ rookCol < 8 ∧ 3 ≤ Z.abs (rookCol - fromCol) ∧
    (fromCol < toCol ↔ fromCol < rookCol) ∧
    cellAt (board g) toRow rookCol = Obj (mkPiece ROOK (color p)) ∧
    (∀ i, Z.min fromCol rookCol < i < Z.max fromCol rookCol →
          cellAt (board g) toRow i = Null) ∧
    cellAt (board g') toRow toCol = Obj p ∧
    cellAt (board g') toRow ((fromCol + toCol) / 2) = Obj (mkPiece ROOK (color p)) ∧
    cellAt (board g') fromRow fromCol = Null ∧
    cellAt (board g') toRow rookCol = Null ∧
    ∀ r k, (r, k) ≠ (toRow, toCol) → (r, k) ≠ (toRow, (fromCol + toCol) / 2) →
           (r, k) ≠ (fromRow, fromCol) → (r, k) ≠ (toRow, rookCol) →
           cellAt (board g') r k = cellAt (board g) r k.
Proof.
  intros Hreach H Hp Hty Habs Hto Hmid.
  destruct (makeMove_from_here _ _ _ _ _ _ Hreach H)
    as (p' & ms & g1 & Hp' & Hcol & Hvm & Hin & Happ & Hsame).
  rewrite Hp in Hp'. injection Hp' as <-.
  apply forget_fields in Hsame as (-> & _).
  destruct (getValidMoves_candidates _ _ _ _ _ _ Hvm Hin) as (q & moves & Hq & _ & Hc & Hin').
  apply rd_Some in Hp as [_ Hp]. rewrite <- Hp in Hq. injection Hq as <-.
  unfold candidateMoves in Hc. rewrite Hty in Hc.
  destruct (getKingMoves_elem _ _ _ _ _ Hc Hin') as (pc & Hpc & Hcase).
  rewrite <- Hp in Hpc. injection Hpc as <-.
  destruct Hcase as [(d & Hd & [= -> ->] & _)|(castles & Hcs & Hin'')].
  { exfalso. unfold queenDirections in Hd.
    repeat (apply elem_of_cons in Hd as [-> | Hd]; [cbn [fst snd] in Habs; lia|]).
    inversion Hd. }
  destruct (castlingMoves_rook _ _ _ _ Hcs) as [Hks Hqs].
  destruct (applyMove_castling _ _ _ _ _ _ _ Happ Hty Habs) as (rookFromCol & Hfind & Hboard).
  pose proof (homeRank_row (color p)) as Hrank.
  assert (Hking : ∀ c, isPiece (Obj p) ROOK c = false)
    by (intros c; simpl; rewrite bool_decide_eq_false_2 by congruence; reflexivity).
  apply (castlingMoves_elem _ _ _ _ _ Hcs) in Hin'' as Hshape.
  destruct Hshape as [[= -> ->]|[= -> ->]]; (split; [reflexivity|]).
  - assert (Hm : (fromCol + (fromCol + 2)) / 2 = fromCol + 1)
      by (replace (fromCol + (fromCol + 2)) with ((fromCol + 1) * 2) by lia;
          apply Z.div_mul; lia).
    rewrite Hm in *. clear Hm.
    destruct (Hks Hin'') as (rc & Hrc & Hside & Hrook & Hbetween).
    assert (Hrc1 : rc ≠ fromCol + 1) by (intros ->; rewrite Hmid in Hrook; discriminate).
    assert (Hrc2 : rc ≠ fromCol + 2) by (intros ->; rewrite Hto in Hrook; discriminate).
    destruct (cellAt (board g) (homeRank (color p)) rc) as [| |q] eqn:Hq; try discriminate.
    pose proof (rook_piece _ _ _ Hrook eq_refl) as ->.
    rewrite (proj2 (Z.ltb_lt fromCol (fromCol + 2))) in Hfind, Hboard by lia.
    assert (Hfound : rookFromCol = Some rc).
    { replace (8 - (fromCol + 1)) with ((rc - (fromCol + 1)) + (8 - rc)) in Hfind by lia.
      rewrite seqZ_app in Hfind by lia.
      rewrite (seqZ_cons (fromCol + 1 + (rc - (fromCol + 1)))) in Hfind by lia.
      replace (fromCol + 1 + (rc - (fromCol + 1))) with rc in Hfind by lia.
      rewrite findRookFrom_app in Hfind; [congruence|exact Hrank| |].
      - intros i Hi. apply elem_of_seqZ in Hi. rewrite !cellAt_put.
        destruct (decide ((homeRank (color p), i) = (fromRow, fromCol))); [reflexivity|].
        destruct (decide ((homeRank (color p), i) = (homeRank (color p), fromCol + 2)));
          [apply Hking|].
        rewrite Hbetween by lia. reflexivity.
      - rewrite !cellAt_put.
        destruct (decide ((homeRank (color p), rc) = (fromRow, fromCol))) as [[= ? ?]|_]; [lia|].
        destruct (decide ((homeRank (color p), rc) = (homeRank (color p), fromCol + 2)))
          as [[= ?]|_]; [lia|].
        rewrite Hq. exact Hrook. }
    rewrite (Hboard rc Hfound). exists rc.
    split; [lia|]. split; [lia|]. split; [lia|]. split; [exact Hq|].
    split; [intros i Hi; apply Hbetween; lia|].
    apply castled_cells; try lia. exact Hq.
  - assert (Hm : (fromCol + (fromCol - 2)) / 2 = fromCol - 1)
      by (replace (fromCol + (fromCol - 2)) with ((fromCol - 1) * 2) by lia;
          apply Z.div_mul; lia).
    rewrite Hm in *. clear Hm.
    destruct (Hqs Hin'') as (rc & Hrc & Hside & Hrook & Hbetween).
    assert (Hrc1 : rc ≠ fromCol - 1) by (intros ->; rewrite Hmid in Hrook; discriminate).
    assert (Hrc2 : rc ≠ fromCol - 2) by (intros ->; rewrite Hto in Hrook; discriminate).
    destruct (cellAt (board g) (homeRank (color p)) rc) as [| |q] eqn:Hq; try discriminate.
    pose proof (rook_piece _ _ _ Hrook eq_refl) as ->.
    rewrite (proj2 (Z.ltb_ge fromCol (fromCol - 2))) in Hfind, Hboard by lia.
    assert (Hsplit : reverse (seqZ 0 fromCol)
                     = reverse (seqZ (rc + 1) (fromCol - rc - 1)) ++ rc :: reverse (seqZ 0 rc)).
    { replace fromCol with (rc + (fromCol - rc)) at 1 by lia.
      rewrite seqZ_app by lia. rewrite (seqZ_cons (0 + rc)) by lia.
      rewrite reverse_app, reverse_cons, <- app_assoc.
      replace (Z.succ (0 + rc)) with (rc + 1) by lia.
      replace (Z.pred (fromCol - rc)) with (fromCol - rc - 1) by lia.
      replace (0 + rc) with rc by lia. reflexivity. }
    assert (Hfound : rookFromCol = Some rc).
    { rewrite Hsplit in Hfind.
      rewrite findRookFrom_app in Hfind; [congruence|exact Hrank| |].
      - intros i Hi. apply elem_of_reverse, elem_of_seqZ in Hi. rewrite !cellAt_put.
        destruct (decide ((homeRank (color p), i) = (fromRow, fromCol))); [reflexivity|].
        destruct (decide ((homeRank (color p), i) = (homeRank (color p), fromCol - 2)));
          [apply Hking|].
        rewrite Hbetween by lia. reflexivity.
      - rewrite !cellAt_put.
        destruct (decide ((homeRank (color p), rc) = (fromRow, fromCol))) as [[= ? ?]|_]; [lia|].
        destruct (decide ((homeRank (color p), rc) = (homeRank (color p), fromCol - 2)))
          as [[= ?]|_]; [lia|].
        rewrite Hq. exact Hrook. }
    rewrite (Hboard rc Hfound). exists rc.
    split; [lia|]. split; [lia|]. split; [lia|]. split; [exact Hq|].
    split; [intros i Hi; apply Hbetween; lia|].
    apply castled_cells; try lia. exact Hq.
Qed.

Lemma castling_moves_king_and_rook_witness :
  ∃ g g', gameQueenBehindRook = Some g ∧ makeMove g 7 3 7 5 = Some (g', true) ∧
          cellAt (board g') 7 5 = Obj (mkPiece KING WHITE) ∧
          cellAt (board g') 7 4 = Obj (mkPiece ROOK WHITE).
Proof.
  destruct (checked (g ← gameQueenBehindRook; r ← makeMove g 7 3 7 5; Some (g, r))
              (λ x, x.2.2 = true ∧
                    rd (board x.1) 7 3 = Some (Obj (mkPiece KING WHITE)) ∧
                    cellAt (board x.1) 7 5 = Null ∧ cellAt (board x.1) 7 4 = Null))
    as ([g [g' ok]] & Hrun & Hok & Hk & Hto & Hmid); [by_evaluation|].
  cbn [fst snd] in Hok, Hk, Hto, Hmid. subst ok. unpack_run Hrun.
  exists g, g'. do 2 (split; [assumption|]).
  destruct (castling_moves_king_and_rook g 7 3 7 5 g' (mkPiece KING WHITE))
    as (_ & rc & _ & _ & _ & _ & _ & Hking & Hrook & _);
    [eapply game_reachable; eassumption|assumption|assumption|reflexivity|reflexivity
    |assumption|assumption|].
  split; [exact Hking|exact Hrook].
Defined.

(** ** The legal moves are the safe candidates *)

Lemma filterMoves_complete ep p row col mp moves : ∀ bd bd' ms mv,
  filterMoves ep p row col bd moves = Some (bd', ms) →
  cellAt bd row col = Obj mp →
  (∀ mv cr cc, mv ∈ moves →
     capturedPawnPos ep mp row mv.1 mv.2 = Some (cr, cc) →
     cellAt bd cr cc = Obj (mkPiece PAWN (opponent (color p)))) →
  mv ∈ moves →
  isInCheck (trialBoard ep mp bd row col mv.1 mv.2) (color p) = Some false →
  mv ∈ ms.
Proof.
  induction moves as [|m moves IH]; simpl; intros bd bd' ms mv H Hmp Hcap Hin Hsafe.
  - inversion Hin.
  - bind_inv H. bind_inv H. injection H as _ <-.
    destruct x as [bd1 ok], x0 as [bd2 ms2]; cbn [fst snd] in *.
    assert (bd1 = bd) as ->.
    { eapply tryMove_restores; [exact Hx|].
      intros mp' cr cc Hmp'. rewrite Hmp in Hmp'. injection Hmp' as <-.
      apply Hcap. left. }
    pose proof (tryMove_verdict _ _ _ _ _ _ _ _ _ Hx Hmp) as Hv.
    apply elem_of_cons in Hin as [-> | Hin].
    + rewrite Hsafe in Hv. injection Hv as Hv. destruct ok; [left|discriminate].
    + assert (Hrest : mv ∈ ms2).
      { eapply IH; [exact Hx0|exact Hmp| |exact Hin|exact Hsafe].
        intros mv' cr cc Hin''. apply Hcap. right. exact Hin''. }
      destruct ok; [right|]; exact Hrest.
Qed.

(** X23.  In a position of a game, [getValidMoves] for a piece of the
    side to move returns exactly those moves of the piece's generator
    after which, on the board with the piece moved (and a pawn taken en
    passant removed), the mover's king is not attacked: no such move is
    dropped and no other is kept. *)
Theorem valid_moves_are_the_safe_candidates g row col g' ms p :
  reachable g → getValidMoves g row col = Some (g', ms) →
  rd (board g) row col = Some (Obj p) → color p = currentPlayer g →
  ∃ moves, candidateMoves g p row col = Some moves ∧
    ∀ mv, mv ∈ ms ↔
      mv ∈ moves ∧
      isInCheck (trialBoard (enPassantTarget g) p (board g) row col mv.1 mv.2) (color p)
        = Some false.
Proof.
  intros Hreach H Hp Hcol. pose proof (reachable_targetBehindPawn _ Hreach) as Hep.
  unfold getValidMoves in H. rewrite Hp in H. cbn [mbind option_bind] in H.
  rewrite bool_decide_eq_false_2 in H by (intros Hne; exact (Hne Hcol)).
  apply bind_Some in H as (moves & Hc & H).
  apply bind_Some in H as ([bd' ms'] & Hf & H). injection H as _ <-. cbn [snd].
  apply rd_Some in Hp as [_ Hp]. symmetry in Hp.
  assert (Hcap : ∀ mv cr cc, mv ∈ moves →
            capturedPawnPos (enPassantTarget g) p row mv.1 mv.2 = Some (cr, cc) →
            cellAt (board g) cr cc = Obj (mkPiece PAWN (opponent (color p)))).
  { intros mv cr cc Hin Hcp. eapply pawn_trial_sound; eauto. }
  exists moves. split; [exact Hc|]. intros mv. split.
  - intros Hin. split; [eapply filterMoves_subset; eassumption|].
    eapply filterMoves_kept; eassumption.
  - intros [Hin Hsafe]. eapply filterMoves_complete; eassumption.
Qed.

Lemma valid_moves_are_the_safe_candidates_witness :
  ∃ g moves, newGame 1 2 2 1 2 = Some g ∧
    candidateMoves g (mkPiece KNIGHT WHITE) 7 1 = Some moves ∧
    ∀ mv, mv ∈ [(5, 0); (5, 2)] ↔
      mv ∈ moves ∧
      isInCheck (trialBoard (enPassantTarget g) (mkPiece KNIGHT WHITE) (board g) 7 1 mv.1 mv.2)
                WHITE = Some false.
Proof.
  destruct (checked (g ← newGame 1 2 2 1 2; vm ← getValidMoves g 7 1; Some (g, vm))
              (λ x, x.2.2 = [(5, 0); (5, 2)] ∧
                    rd (board x.1) 7 1 = Some (Obj (mkPiece KNIGHT WHITE)) ∧
                    currentPlayer x.1 = WHITE))
    as ([g [g' ms]] & Hrun & Hms & Hp & Hside); [by_evaluation|].
  cbn [fst snd] in Hms, Hp, Hside. subst ms. unpack_run Hrun.
  exists g.
  destruct (valid_moves_are_the_safe_candidates g 7 1 g' [(5, 0); (5, 2)] (mkPiece KNIGHT WHITE))
    as (moves & Hc & Hiff);
    [eapply newGame_reachable; eassumption|assumption|assumption|symmetry; exact Hside|].
  exists moves. split; [assumption|]. split; [exact Hc|exact Hiff].
Defined.

(** ** Counters *)

Lemma start_counters i1 i2 i3 i4 i5 g fen :
  initializeChess960 i1 i2 i3 i4 i5 = Some (g, fen) →
  currentPlayer g = WHITE ∧ moveHistory g = [] ∧
  halfMoveClock g = 0 ∧ fullMoveNumber g = 1.
Proof.
  unfold initializeChess960. intros H.
  apply bind_Some in H as (br & _ & H). apply bind_Some in H as (bd1 & _ & H).
  apply bind_Some in H as (bd2 & _ & H). cbn zeta in H.
  apply bind_Some in H as (f & _ & H). injection H as <- _. auto.
Qed.

(** X24.  In every position of a game the counters follow the number [n]
    of moves in the history: White is to move when [n] is even and Black
    when it is odd, the move number is [1 + n / 2], and the half-move
    clock lies between 0 and [n]. *)
Theorem counters_follow_history g :
  reachable g →
  let n := Z.of_nat (length (moveHistory g)) in
  currentPlayer g = (if Z.even n then WHITE else BLACK) ∧
  fullMoveNumber g = 1 + n / 2 ∧
  0 ≤ halfMoveClock g ≤ n.
Proof.
  induction 1 as [i1 i2 i3 i4 i5 g fen Hinit|g fr fc tr tc g' Hreach IH Hmove
                 |g over res _ IH].
  - destruct (start_counters _ _ _ _ _ _ _ Hinit) as (-> & -> & -> & ->).
    cbn. split; [reflexivity|]. split; [reflexivity|]. lia.
  - destruct (makeMove_from_here _ _ _ _ _ _ Hreach Hmove)
      as (p & ms & g1 & Hp & Hcol & Hvm & Hin & Happ & Hsame).
    apply forget_fields in Hsame as (_ & -> & -> & _ & _ & -> & -> & _).
    destruct (applyMove_fields _ _ _ _ _ _ _ Happ) as (-> & _).
    destruct (applyMove_entry _ _ _ _ _ _ _ Happ)
      as (_ & _ & e & -> & _ & _ & _ & _ & _ & _ & -> & -> & _).
    cbn zeta in IH. destruct IH as (Hside & Hnum & Hclock).
    cbn zeta. rewrite length_app. cbn [length].
    replace (Z.of_nat (length (moveHistory g) + 1)) with (Z.of_nat (length (moveHistory g)) + 1)
      by lia.
    set (n := Z.of_nat (length (moveHistory g))) in *.
    rewrite Hside, Hnum.
    rewrite Z.even_add. change (Z.even 1) with false.
    pose proof (Zeven_bool_iff n) as He. pose proof (Zodd_bool_iff n) as Ho.
    pose proof (Z.negb_even n) as Hneg.
    destruct (Z.even n) eqn:Hev; cbn [Bool.eqb opponent].
    + split; [reflexivity|]. apply Z.even_spec in Hev as [m Hm].
      assert (Hdiv : n / 2 = m) by (rewrite Hm, Z.mul_comm; apply Z.div_mul; lia).
      assert (Hdiv' : (n + 1) / 2 = m).
      { symmetry. apply (Z.div_unique_pos (n + 1) 2 m 1); lia. }
      rewrite Hdiv, Hdiv'. split; [reflexivity|].
      destruct (bool_decide (type p = PAWN) || truthy (cellAt (board g) tr tc)); lia.
    + split; [reflexivity|].
      assert (Hodd : Z.odd n = true) by (rewrite <- Hneg; reflexivity).
      apply Z.odd_spec in Hodd as [m Hm].
      assert (Hdiv : n / 2 = m).
      { symmetry. apply (Z.div_unique_pos n 2 m 1); lia. }
      assert (Hdiv' : (n + 1) / 2 = m + 1).
      { replace (n + 1) with ((m + 1) * 2) by lia. apply Z.div_mul. lia. }
      rewrite Hdiv, Hdiv'. split; [lia|].
      destruct (bool_decide (type p = PAWN) || truthy (cellAt (board g) tr tc)); lia.
  - exact IH.
Qed.

Lemma counters_follow_history_witness :
  ∃ g, gameEnPassant = Some g ∧ currentPlayer g = WHITE ∧ fullMoveNumber g = 3.
Proof.
  destruct (checked gameEnPassant (λ g, length (moveHistory g) = 4%nat))
    as (g & Hrun & Hlen); [by_evaluation|].
  exists g. split; [assumption|].
  destruct (counters_follow_history g) as (Hside & Hnum & _);
    [eapply game_reachable; eassumption|].
  rewrite Hlen in Hside, Hnum. split; [exact Hside|exact Hnum].
Defined.

(** ** Check *)

Lemma findKing_found bd c l r k :
  findKing bd c l = Some (r, k) →
  ((r, k) ∈ l ∧ isPiece (cellAt bd r k) KING c = true) ∨
  ((r, k) = (-1, -1) ∧ ∀ rk, rk ∈ l → isPiece (cellAt bd rk.1 rk.2) KING c = false).
Proof.
  induction l as [|[r0 k0] l IH]; simpl; intros H.
  - injection H as <- <-. right. split; [reflexivity|]. intros rk Hin. inversion Hin.
  - apply bind_Some in H as (x & Hx & H). apply rd_Some in Hx as [_ ->].
    destruct (isPiece (cellAt bd r0 k0) KING c) eqn:Hk.
    + injection H as <- <-. left. split; [left|exact Hk].
    + destruct (IH H) as [[Hin Hking]|[Heq Hnone]].
      * left. split; [right; exact Hin|exact Hking].
      * right. split; [exact Heq|]. intros rk Hin.
        apply elem_of_cons in Hin as [-> | Hin]; [exact Hk|auto].
Qed.

Lemma king_piece x c q : isPiece x KING c = true → x = Obj q → q = mkPiece KING c.
Proof.
  intros H Hx. destruct (isPiece_type _ _ _ _ H Hx) as [Ht Hc].
  destruct q as [t c']. simpl in *. congruence.
Qed.

Lemma isPiece_king c : isPiece (Obj (mkPiece KING c)) KING c = true.
Proof. simpl. rewrite !bool_decide_eq_true_2 by reflexivity. reflexivity. Qed.

(** X25.  What [isInCheck] answers in a position of a game.  If the king
    of the colour stands on the board, the answer is [true] exactly when a
    piece of the other colour bears on the king's square.  If no king of
    the colour stands on the board, the answer is [false]. *)
Theorem in_check_iff_king_attacked g c b :
  reachable g → isInCheck (board g) c = Some b →
  (∀ r k, isWithinBoard r k = true → cellAt (board g) r k = Obj (mkPiece KING c) →
     (b = true ↔
      ∃ r' k' q, isWithinBoard r' k' = true ∧ cellAt (board g) r' k' = Obj q ∧
                 color q = opponent c ∧ bearsOn (board g) q r' k' r k)) ∧
  ((∀ r k, isWithinBoard r k = true → cellAt (board g) r k ≠ Obj (mkPiece KING c)) →
   b = false).
Proof.
  intros Hreach H. destruct (reachable_pawnsKings _ Hreach) as [Hpawns Hkings].
  unfold isInCheck in H. apply bind_Some in H as ([kr kc] & Hfind & H). cbn [fst snd] in H.
  apply findKing_found in Hfind as [[Hin Hking]|[[= -> ->] Hnone]].
  - destruct (cellAt (board g) kr kc) as [| |q] eqn:Hq; try discriminate.
    pose proof (king_piece _ _ _ Hking eq_refl) as ->. split.
    + intros r k Hw Hk.
      assert (Heq : (r, k) = (kr, kc)) by (eapply Hkings; eauto).
      injection Heq as -> ->. apply isSquareUnderAttack_iff. exact H.
    + intros Hno. exfalso. apply (Hno kr kc); [apply elem_of_squares; exact Hin|exact Hq].
  - split.
    + intros r k Hw Hk. exfalso. apply elem_of_squares in Hw.
      specialize (Hnone _ Hw). cbn [fst snd] in Hnone.
      rewrite Hk, isPiece_king in Hnone. discriminate.
    + intros _. destruct b; [|reflexivity]. exfalso.
      destruct (proj1 (isSquareUnderAttack_iff _ _ _ _ _ H) eq_refl)
        as (r' & k' & q & Hw & Hq & _ & Hb).
      unfold isWithinBoard in Hw. unfold bearsOn in Hb.
      destruct (type q) eqn:Hty.
      * destruct Hb as (_ & _ & _ & Hw'). discriminate.
      * destruct Hb as (d & n & _ & _ & _ & _ & _ & [Hw' _]). discriminate.
      * destruct Hb as (d & n & _ & _ & _ & _ & _ & [Hw' _]). discriminate.
      * destruct Hb as (d & n & _ & _ & _ & _ & _ & [Hw' _]). discriminate.
      * destruct Hb as (_ & [Hw' _]). discriminate.
      * destruct Hb as [Hrow Hcol]. pose proof (Hpawns _ _ _ Hq Hty) as Hr.
        destruct (color q); simpl in Hrow; lia.
Qed.

Lemma in_check_iff_king_attacked_witness :
  ∃ g, gameQueenBehindRook = Some g ∧
    (false = true ↔
     ∃ r' k' q, isWithinBoard r' k' = true ∧ cellAt (board g) r' k' = Obj q ∧
                color q = opponent WHITE ∧ bearsOn (board g) q r' k' 7 3).
Proof.
  destruct (checked (g ← gameQueenBehindRook; b ← isInCheck (board g) WHITE; Some (g, b))
              (λ x, x.2 = false ∧ cellAt (board x.1) 7 3 = Obj (mkPiece KING WHITE)))
    as ([g b] & Hrun & Hb & Hk); [by_evaluation|].
  cbn [fst snd] in Hb, Hk. subst b. unpack_run Hrun.
  exists g. split; [assumption|].
  destruct (in_check_iff_king_attacked g WHITE false) as [Hiff _];
    [eapply game_reachable; eassumption|assumption|].
  apply Hiff; [reflexivity|exact Hk].
Defined.

(** ** When the side to move has no legal move *)

Lemma makeMove_false g fromRow fromCol toRow toCol g' :
  reachable g → makeMove g fromRow fromCol toRow toCol = Some (g', false) → g' = g.
Proof.
  intros Hreach H. pose proof (reachable_targetBehindPawn _ Hreach) as Hep.
  unfold makeMove in H. apply bind_Some in H as (x & _ & H).
  destruct x as [| |p]; try (injection H as <-; reflexivity).
  destruct (bool_decide (color p ≠ currentPlayer g)); [injection H as <-; reflexivity|].
  apply bind_Some in H as ([gv ms] & Hvm & H). cbn [fst snd] in H.
  pose proof (getValidMoves_restores _ _ _ _ _ Hep Hvm) as ->.
  destruct (hasMove ms toRow toCol); [|injection H as <-; reflexivity].
  apply bind_Some in H as (g1 & _ & H). apply bind_Some in H as (g2 & _ & H).
  discriminate.
Qed.

(** X26.  In a position of a game in which [hasLegalMoves] answers
    [false] for the side to move (checkmate or stalemate), [makeMove]
    accepts no move from any square of the board: it returns [false] and
    leaves the state as it was. *)
Theorem no_move_accepted_without_legal_moves g fromRow fromCol toRow toCol g' ok :
  reachable g → hasLegalMoves g (currentPlayer g) = Some (g, false) →
  isWithinBoard fromRow fromCol = true →
  makeMove g fromRow fromCol toRow toCol = Some (g', ok) →
  ok = false ∧ g' = g.
Proof.
  intros Hreach Hnone Hw H. pose proof (reachable_targetBehindPawn _ Hreach) as Hep.
  destruct ok; [exfalso|split; [reflexivity|eapply makeMove_false; eassumption]].
  destruct (makeMove_from_here _ _ _ _ _ _ Hreach H)
    as (p & ms & g1 & Hp & Hcol & Hvm & Hin & Happ & Hsame).
  destruct ms as [|m ms]; [inversion Hin|].
  unfold hasLegalMoves in Hnone.
  pose proof (hasLegalMovesFrom_iff g squares false Hep squares_rows Hnone) as Hiff.
  assert (Hfalse : false = true); [|discriminate].
  apply Hiff. exists fromRow, fromCol, m, ms.
  split; [apply elem_of_squares; exact Hw|exact Hvm].
Qed.

Lemma no_move_accepted_without_legal_moves_witness :
  ∃ g, gameFoolsMate = Some g ∧ makeMove g 6 0 5 0 = Some (g, false).
Proof.
  destruct (checked (g ← gameFoolsMate; h ← hasLegalMoves g (currentPlayer g);
                     r ← makeMove g 6 0 5 0; Some (g, h, r))
              (λ x, x.1.2.2 = false))
    as ([[g [gh b]] [g' ok]] & Hrun & Hb); [by_evaluation|].
  cbn [fst snd] in Hb. subst b. unpack_run Hrun.
  assert (Hreach : reachable g) by (eapply game_reachable; eassumption).
  assert (gh = g) as ->.
  { eapply hasLegalMovesFrom_restores;
      [exact (reachable_targetBehindPawn _ Hreach)|eassumption]. }
  exists g. split; [assumption|].
  destruct (no_move_accepted_without_legal_moves g 6 0 5 0 g' ok) as [-> ->];
    [assumption|assumption|reflexivity|assumption|].
  assumption.
Defined.

(** * Calls that raise *)

(** ** The two descriptions of a call agree *)

Lemma capturedPawnPos_Some ep mp row toRow toCol cr cc :
  capturedPawnPos ep mp row toRow toCol = Some (cr, cc) → cr = row ∧ cc = toCol.
Proof.
  unfold capturedPawnPos. destruct ep as [[er ec]|]; [|discriminate].
  destruct (bool_decide (type mp = PAWN) && (toRow =? er) && (toCol =? ec));
    [|discriminate].
  intros [= <- <-]. auto.
Qed.

Lemma tryMove_returned ep p row col bd mv :
  tryMove ep p row col bd mv = returned (tryMoveE ep p row col bd mv).
Proof.
  destruct mv as [toRow toCol]. unfold tryMove, tryMoveE, returned, rd, wr.
  destruct (isRow toRow); [|reflexivity]. destruct (isRow row) eqn:Hrow; [|reflexivity].
  cbn [mbind option_bind].
  destruct (cellAt bd row col) as [| |mp]; try reflexivity. cbn [mbind option_bind].
  destruct (capturedPawnPos ep mp row toRow toCol) as [[cr cc]|] eqn:Hcap.
  - apply capturedPawnPos_Some in Hcap as [-> ->]. rewrite Hrow. cbn [mbind option_bind].
    match goal with |- context [isInCheck ?b ?c] => destruct (isInCheck b c) end;
      reflexivity.
  - cbn [mbind option_bind].
    match goal with |- context [isInCheck ?b ?c] => destruct (isInCheck b c) end;
      reflexivity.
Qed.

Lemma filterMoves_returned ep p row col moves : ∀ bd,
  filterMoves ep p row col bd moves = returned (filterMovesE ep p row col bd moves).
Proof.
  induction moves as [|mv moves IH]; intros bd; [reflexivity|].
  cbn [filterMoves filterMovesE]. rewrite tryMove_returned.
  destruct (tryMoveE ep p row col bd mv) as [bd1 [ok|]]; [|reflexivity].
  unfold returned at 1. cbn [fst snd mbind option_bind]. rewrite IH.
  destruct (filterMovesE ep p row col bd1 moves) as [bd2 [ms|]]; reflexivity.
Qed.

Lemma getValidMoves_returned g row col :
  getValidMoves g row col = returned (getValidMovesE g row col).
Proof.
  unfold getValidMoves, getValidMovesE.
  destruct (rd (board g) row col) as [[| |p]|]; try reflexivity. cbn [mbind option_bind].
  destruct (bool_decide (color p ≠ currentPlayer g)); [reflexivity|].
  destruct (candidateMoves g p row col) as [moves|]; [|reflexivity].
  cbn [mbind option_bind]. rewrite filterMoves_returned.
  destruct (filterMovesE (enPassantTarget g) p row col (board g) moves) as [bd [ms|]];
    reflexivity.
Qed.

Lemma hasLegalMovesFrom_returned c l : ∀ g,
  hasLegalMovesFrom g c l = returned (hasLegalMovesFromE g c l).
Proof.
  induction l as [|[r k] l IH]; intros g; [reflexivity|].
  cbn [hasLegalMovesFrom hasLegalMovesFromE].
  destruct (rd (board g) r k) as [[| |p]|]; cbn [mbind option_bind]; try apply IH;
    [|reflexivity].
  destruct (bool_decide (color p = c)); [|apply IH].
  rewrite getValidMoves_returned.
  destruct (getValidMovesE g r k) as [g1 [[|m ms]|]]; try reflexivity.
  unfold returned at 1. cbn [fst snd mbind option_bind]. apply IH.
Qed.

Lemma isInCheckmate_returned g c :
  isInCheckmate g c = returned (isInCheckmateE g c).
Proof.
  unfold isInCheckmate, isInCheckmateE, hasLegalMoves, hasLegalMovesE.
  destruct (isInCheck (board g) c) as [[|]|]; try reflexivity. cbn [mbind option_bind].
  rewrite hasLegalMovesFrom_returned.
  destruct (hasLegalMovesFromE g c squares) as [g1 [b|]]; reflexivity.
Qed.

Lemma isInStalemate_returned g c :
  isInStalemate g c = returned (isInStalemateE g c).
Proof.
  unfold isInStalemate, isInStalemateE, hasLegalMoves, hasLegalMovesE.
  destruct (isInCheck (board g) c) as [[|]|]; try reflexivity. cbn [mbind option_bind].
  rewrite hasLegalMovesFrom_returned.
  destruct (hasLegalMovesFromE g c squares) as [g1 [b|]]; reflexivity.
Qed.

Lemma checkGameEnd_returned g :
  checkGameEnd g = fst <$> returned (checkGameEndE g).
Proof.
  unfold checkGameEnd, checkGameEndE. cbn zeta. rewrite isInCheckmate_returned.
  destruct (isInCheckmateE g (currentPlayer g)) as [g1 [[|]|]]; try reflexivity.
  unfold returned at 1. cbn [fst snd mbind option_bind]. rewrite isInStalemate_returned.
  destruct (isInStalemateE g1 (currentPlayer g)) as [g2 [[|]|]]; try reflexivity.
  unfold returned. cbn [fst snd mbind option_bind fmap option_fmap option_map].
  destruct (100 <=? halfMoveClock g2); reflexivity.
Qed.

(** [makeMove] is [makeMoveE] with the state of a raising call forgotten. *)
Lemma makeMove_returned g fromRow fromCol toRow toCol :
  makeMove g fromRow fromCol toRow toCol
  = returned (makeMoveE g fromRow fromCol toRow toCol).
Proof.
  unfold makeMove, makeMoveE.
  destruct (rd (board g) fromRow fromCol) as [[| |p]|]; try reflexivity.
  cbn [mbind option_bind].
  destruct (bool_decide (color p ≠ currentPlayer g)); [reflexivity|].
  rewrite getValidMoves_returned.
  destruct (getValidMovesE g fromRow fromCol) as [gv [ms|]]; [|reflexivity].
  unfold returned at 1. cbn [fst snd mbind option_bind].
  destruct (hasMove ms toRow toCol); [|reflexivity].
  destruct (applyMove gv p fromRow fromCol toRow toCol) as [g1|]; [|reflexivity].
  cbn [mbind option_bind]. rewrite checkGameEnd_returned.
  destruct (checkGameEndE g1) as [g2 [[]|]]; reflexivity.
Qed.

(** ** Where [makeMove] can raise between the test and the evaluation *)

Lemma findRookFrom_total bd rank c cols :
  isRow rank = true → is_Some (findRookFrom bd rank c cols).
Proof.
  intros Hrow. induction cols as [|i cols IH]; cbn [findRookFrom]; [eexists; reflexivity|].
  unfold rd. rewrite Hrow. cbn [mbind option_bind].
  destruct (isPiece (cellAt bd rank i) ROOK c); [eexists; reflexivity|exact IH].
Qed.

Lemma findKingCol_total bd rank c cols :
  isRow rank = true → is_Some (findKingCol bd rank c cols).
Proof.
  intros Hrow. induction cols as [|i cols IH]; cbn [findKingCol]; [eexists; reflexivity|].
  unfold rd. rewrite Hrow. cbn [mbind option_bind].
  destruct (isPiece (cellAt bd rank i) KING c); [eexists; reflexivity|exact IH].
Qed.

Lemma castleRook_total bd pc fromCol toCol : is_Some (castleRook bd pc fromCol toCol).
Proof.
  unfold castleRook. cbn zeta. pose proof (homeRank_row pc) as Hrow.
  destruct (Z.abs (toCol - fromCol) =? 2); [|eexists; reflexivity].
  assert (Hfind : is_Some (if fromCol <? toCol
                           then findRookFrom bd (homeRank pc) pc
                                  (seqZ (fromCol + 1) (8 - (fromCol + 1)))
                           else findRookFrom bd (homeRank pc) pc (reverse (seqZ 0 fromCol))))
    by (destruct (fromCol <? toCol); apply findRookFrom_total, Hrow).
  destruct Hfind as [rookFromCol ->]. cbn [mbind option_bind]. unfold rd, wr. rewrite Hrow.
  destruct rookFromCol as [i|]; cbn [mbind option_bind]; eexists; reflexivity.
Qed.

Lemma rookRights_total bd cr p capturedPiece fromRow fromCol toCol :
  isRow fromRow = true →
  is_Some (rookRights bd cr p capturedPiece fromRow fromCol toCol).
Proof.
  intros Hrow. unfold rookRights. cbn zeta.
  destruct (bool_decide (type p = ROOK)
            || match capturedPiece with
               | Obj q => bool_decide (type q = ROOK)
               | _ => false
               end); [|eexists; reflexivity].
  destruct (fromRow =? homeRank _); [|eexists; reflexivity].
  match goal with |- context [findKingCol ?b ?r ?c ?l] =>
    destruct (findKingCol_total b r c l Hrow) as [kc ->] end.
  cbn [mbind option_bind].
  destruct (kc =? -1); [eexists; reflexivity|].
  destruct (kc <? _); eexists; reflexivity.
Qed.

Lemma applyMove_total g p fromRow fromCol toRow toCol :
  isRow fromRow = true → isRow toRow = true →
  is_Some (applyMove g p fromRow fromCol toRow toCol).
Proof.
  intros Hf Ht. unfold applyMove, rd, wr. rewrite Ht, Hf. cbn [mbind option_bind].
  assert (Hrest : ∀ bd4 cr (k : Board * option CastlingEntry * CastlingRights → option Chess),
            (∀ ca, is_Some (k ca)) →
            is_Some ((if bool_decide (type p = KING)
                      then castleRook bd4 (color p) fromCol toCol
                           ≫= λ r, Some (r.1, r.2, cr)
                      else Some (bd4, None, castlingRights g)) ≫= k)).
  { intros bd4 cr k Hk. destruct (bool_decide (type p = KING)); [|apply Hk].
    destruct (castleRook_total bd4 (color p) fromCol toCol) as [r ->]. apply Hk. }
  assert (Hend : ∀ (ca : Board * option CastlingEntry * CastlingRights) ep clock enP promo,
            is_Some (let '(bd5, castling, cr1) := ca in
                     rookRights bd5 cr1 p (cellAt (board g) toRow toCol) fromRow fromCol toCol
                     ≫= λ cr2,
                       Some (mkChess bd5 (opponent (currentPlayer g))
                               (moveHistory g
                                ++ [mkMoveEntry p (fromRow, fromCol) (toRow, toCol)
                                      (cellAt (board g) toRow toCol) castling enP promo])
                               (gameOver g) (gameResult g) (startPosition g) cr2 ep clock
                               (match currentPlayer g with
                                | BLACK => fullMoveNumber g + 1
                                | WHITE => fullMoveNumber g
                                end)))).
  { intros [[bd5 cast] cr1] ep clock enP promo.
    destruct (rookRights_total bd5 cr1 p (cellAt (board g) toRow toCol)
                fromRow fromCol toCol Hf) as [cr2 ->].
    eexists; reflexivity. }
  destruct (bool_decide (type p = PAWN)).
  - cbn zeta.
    destruct (capturedPawnPos (enPassantTarget g) p fromRow toRow toCol) as [[cr cc]|] eqn:Hcap.
    + apply capturedPawnPos_Some in Hcap as [-> ->]. rewrite Hf. cbn [mbind option_bind].
      destruct ((toRow =? 0) || (toRow =? 7)); cbn [mbind option_bind];
        apply Hrest; intros ca; apply Hend.
    + cbn [mbind option_bind].
      destruct ((toRow =? 0) || (toRow =? 7)); cbn [mbind option_bind];
        apply Hrest; intros ca; apply Hend.
  - cbn [mbind option_bind]. apply Hrest. intros ca. apply Hend.
Qed.

(** If the part of [makeMove] between the validity test and the terminal
    evaluation raises, it is at its first step, the read of
    [this.board[toRow][toCol]] in a row that does not exist: no write has
    been made. *)
Lemma applyMove_raises g p fromRow fromCol toRow toCol :
  applyMove g p fromRow fromCol toRow toCol = None →
  isRow fromRow = true → isRow toRow = false.
Proof.
  intros H Hf. destruct (isRow toRow) eqn:Ht; [|reflexivity].
  destruct (applyMove_total g p fromRow fromCol toRow toCol Hf Ht) as [g1 Hg1].
  congruence.
Qed.

(** ** A call that raises with the position changed *)

(** C6 (the code departs from it).  A call of [makeMove] can raise with
    the position changed.  In the game [gameUndefinedF1], reached by six
    successful moves, f1 holds [undefined], written by the castling block
    when it found no rook.  [makeMove(6,4,2,2)], whose target is no move
    of the pawn e2, neither returns [false] nor leaves the position as it
    was: the filter of [getValidMoves] tries e2-e3, [isInCheck] raises on
    the ray of the bishop a6 through e2 to f1, and the pawn stays on e3.
    In the game [gameKnightOnG3] the castling move [(7,6)] is among the
    valid moves of the king; [makeMove(7,4,7,6)] makes every write of
    the move and then raises in [checkGameEnd], where the knight g3 looks
    at f1: the position has changed and the call has not returned
    [true].  Of a call that returns [false] the property holds
    ([rejected_move_changes_nothing]). *)
Theorem raising_move_leaves_position_changed :
  (∃ g g',
     gameUndefinedF1 = Some g ∧ reachable g ∧
     makeMoveE g 6 4 2 2 = (g', None) ∧
     makeMove g 6 4 2 2 = None ∧
     getValidMoves g 6 4 = None ∧
     currentPlayer g = WHITE ∧
     candidateMoves g (mkPiece PAWN WHITE) 6 4 = Some [(5, 4); (4, 4)] ∧
     rd (board g) 7 5 = Some Undefined ∧
     rd (board g) 6 4 = Some (Obj (mkPiece PAWN WHITE)) ∧
     rd (board g) 5 4 = Some Null ∧
     rd (board g') 6 4 = Some Null ∧
     rd (board g') 5 4 = Some (Obj (mkPiece PAWN WHITE))) ∧
  (∃ g g',
     gameKnightOnG3 = Some g ∧ reachable g ∧
     getValidMoves g 7 4 = Some (g, [(7, 5); (7, 6)]) ∧
     makeMoveE g 7 4 7 6 = (g', None) ∧
     makeMove g 7 4 7 6 = None ∧
     currentPlayer g = WHITE ∧
     rd (board g) 7 4 = Some (Obj (mkPiece KING WHITE)) ∧
     rd (board g) 7 6 = Some (Obj (mkPiece ROOK WHITE)) ∧
     currentPlayer g' = BLACK ∧
     length (moveHistory g') = S (length (moveHistory g)) ∧
     kingSide (w (castlingRights g')) = false ∧
     rd (board g') 7 4 = Some Null ∧
     rd (board g') 7 6 = Some (Obj (mkPiece KING WHITE)) ∧
     rd (board g') 7 5 = Some Undefined).
Proof.
  split.
  - destruct (checked (g ← gameUndefinedF1; Some (g, makeMoveE g 6 4 2 2))
      (λ x, x.2.2 = None ∧
            ¬ is_Some (getValidMoves x.1 6 4) ∧
            currentPlayer x.1 = WHITE ∧
            candidateMoves x.1 (mkPiece PAWN WHITE) 6 4 = Some [(5, 4); (4, 4)] ∧
            rd (board x.1) 7 5 = Some Undefined ∧
            rd (board x.1) 6 4 = Some (Obj (mkPiece PAWN WHITE)) ∧
            rd (board x.1) 5 4 = Some Null ∧
            rd (board x.2.1) 6 4 = Some Null ∧
            rd (board x.2.1) 5 4 = Some (Obj (mkPiece PAWN WHITE))))
      as ([g [g' res]] & Hrun & Hres & Hvm & HP); [by_evaluation|].
    cbn [fst snd] in Hres, Hvm, HP. subst res.
    apply bind_Some in Hrun as (g0 & Hgame & Hrun). injection Hrun as -> HE.
    exists g, g'. split; [exact Hgame|].
    split; [eapply game_reachable; exact Hgame|]. split; [exact HE|].
    split; [rewrite makeMove_returned, HE; reflexivity|].
    split; [apply eq_None_not_Some; exact Hvm|]. exact HP.
  - destruct (checked (g ← gameKnightOnG3; vm ← getValidMoves g 7 4;
                       Some (g, vm, makeMoveE g 7 4 7 6))
      (λ x, x.2.2 = None ∧ x.1.2.2 = [(7, 5); (7, 6)] ∧
            currentPlayer x.1.1 = WHITE ∧
            rd (board x.1.1) 7 4 = Some (Obj (mkPiece KING WHITE)) ∧
            rd (board x.1.1) 7 6 = Some (Obj (mkPiece ROOK WHITE)) ∧
            currentPlayer x.2.1 = BLACK ∧
            length (moveHistory x.2.1) = S (length (moveHistory x.1.1)) ∧
            kingSide (w (castlingRights x.2.1)) = false ∧
            rd (board x.2.1) 7 4 = Some Null ∧
            rd (board x.2.1) 7 6 = Some (Obj (mkPiece KING WHITE)) ∧
            rd (board x.2.1) 7 5 = Some Undefined))
      as ([[g [gv ms]] [g' res]] & Hrun & Hres & Hms & HP); [by_evaluation|].
    cbn [fst snd] in Hres, Hms, HP. subst res ms.
    apply bind_Some in Hrun as (g0 & Hgame & Hrun).
    apply bind_Some in Hrun as (vm & Hvm & Hrun). injection Hrun as -> -> HE.
    assert (Hreach : reachable g) by (eapply game_reachable; exact Hgame).
    pose proof (getValidMoves_restores _ _ _ _ _ (reachable_targetBehindPawn _ Hreach) Hvm)
      as ->.
    exists g, g'. split; [exact Hgame|]. split; [exact Hreach|].
    split; [exact Hvm|]. split; [exact HE|].
    split; [rewrite makeMove_returned, HE; reflexivity|]. exact HP.
Qed.

(** * Calls that return *)

(** ** On a board without [undefined] the legal-move query returns *)

Lemma boardFull_put bd r k v : boardFull bd → v ≠ Undefined → boardFull (put bd r k v).
Proof.
  intros Hfull Hv r' k' Hw. rewrite cellAt_put.
  destruct (decide ((r', k') = (r, k))); [exact Hv|apply Hfull, Hw].
Qed.

Lemma boardFullb_sound bd : boardFullb bd = true → boardFull bd.
Proof.
  unfold boardFullb. rewrite forallb_forall. intros H r k Hw.
  apply elem_of_squares, list_elem_of_In in Hw. specialize (H _ Hw). cbn [fst snd] in H.
  apply negb_true_iff, bool_decide_eq_false_1 in H. exact H.
Qed.

Lemma within_row r k : isWithinBoard r k = true → isRow r = true.
Proof. unfold isWithinBoard, isRow. lia. Qed.

Lemma rd_within bd r k : isWithinBoard r k = true → rd bd r k = Some (cellAt bd r k).
Proof. intros Hw. unfold rd. rewrite (within_row _ _ Hw). reflexivity. Qed.

Lemma bind_total {A B} (m : option A) (k : A → option B) :
  is_Some m → (∀ a, is_Some (k a)) → is_Some (m ≫= k).
Proof. intros [a ->] Hk. apply Hk. Qed.

Lemma concatM_total {A B} (f : A → option (list B)) l :
  (∀ a, a ∈ l → is_Some (f a)) → is_Some (concatM f l).
Proof.
  induction l as [|a l IH]; intros H; cbn [concatM]; [eexists; reflexivity|].
  destruct (H a) as [ms ->]; [left|]. cbn [mbind option_bind].
  destruct IH as [rest ->]; [intros b Hb; apply H; right; exact Hb|].
  eexists; reflexivity.
Qed.

Lemma someM_total {A} (f : A → option bool) l :
  (∀ a, a ∈ l → is_Some (f a)) → is_Some (someM f l).
Proof.
  induction l as [|a l IH]; intros H; cbn [someM]; [eexists; reflexivity|].
  destruct (H a) as [b ->]; [left|]. cbn [mbind option_bind].
  destruct b; [eexists; reflexivity|]. apply IH. intros x Hx. apply H. right. exact Hx.
Qed.

Lemma allM_total {A} (f : A → option bool) l :
  (∀ a, a ∈ l → is_Some (f a)) → is_Some (allM f l).
Proof.
  induction l as [|a l IH]; intros H; cbn [allM]; [eexists; reflexivity|].
  destruct (H a) as [b ->]; [left|]. cbn [mbind option_bind].
  destruct b; [|eexists; reflexivity]. apply IH. intros x Hx. apply H. right. exact Hx.
Qed.

Lemma freeOrEnemy_total x p : x ≠ Undefined → is_Some (freeOrEnemy x (Obj p)).
Proof. intros Hx. destruct x; [contradiction|eexists; reflexivity..]. Qed.

Section Full.
Context (bd : Board) (Hfull : boardFull bd).

Lemma getKnightMoves_total r k p :
  isRow r = true → cellAt bd r k = Obj p → is_Some (getKnightMoves bd r k).
Proof.
  intros Hr Hp. unfold getKnightMoves, rd. rewrite Hr, Hp. cbn [mbind option_bind].
  apply concatM_total. intros off _. cbn beta zeta.
  destruct (isWithinBoard (r + off.1) (k + off.2)) eqn:Hw; [|eexists; reflexivity].
  rewrite (within_row _ _ Hw). cbn [mbind option_bind].
  destruct (freeOrEnemy_total (cellAt bd (r + off.1) (k + off.2)) p (Hfull _ _ Hw))
    as [ok ->].
  eexists; reflexivity.
Qed.

Lemma slide_total p dr dc : ∀ n r k, is_Some (slide n bd (Obj p) r k dr dc).
Proof.
  induction n as [|n IH]; intros r k; cbn [slide]; [eexists; reflexivity|].
  destruct (isWithinBoard r k) eqn:Hw; [|eexists; reflexivity].
  rewrite (rd_within _ _ _ Hw). cbn [mbind option_bind].
  pose proof (Hfull _ _ Hw) as Hcell.
  destruct (cellAt bd r k) as [| |q]; [contradiction| |eexists; reflexivity].
  destruct (IH (r + dr) (k + dc)) as [rest ->]. eexists; reflexivity.
Qed.

Lemma getSlidingMoves_total r k p dirs :
  isRow r = true → cellAt bd r k = Obj p → is_Some (getSlidingMoves bd r k dirs).
Proof.
  intros Hr Hp. unfold getSlidingMoves, rd. rewrite Hr, Hp. cbn [mbind option_bind].
  apply concatM_total. intros d _. apply slide_total.
Qed.

Lemma attacksFrom_total row col ac rc :
  isRow rc.1 = true → is_Some (attacksFrom bd row col ac rc).
Proof.
  destruct rc as [r k]. cbn [fst]. intros Hr. unfold attacksFrom, rd. rewrite Hr.
  cbn [mbind option_bind].
  destruct (cellAt bd r k) as [| |p] eqn:Hp; try (eexists; reflexivity).
  destruct (bool_decide (color p = ac)); [|eexists; reflexivity].
  destruct (type p).
  - eexists; reflexivity.
  - destruct (getSlidingMoves_total r k p queenDirections Hr Hp) as [ms Hms].
    unfold getQueenMoves. rewrite Hms. eexists; reflexivity.
  - destruct (getSlidingMoves_total r k p rookDirections Hr Hp) as [ms Hms].
    unfold getRookMoves. rewrite Hms. eexists; reflexivity.
  - destruct (getSlidingMoves_total r k p bishopDirections Hr Hp) as [ms Hms].
    unfold getBishopMoves. rewrite Hms. eexists; reflexivity.
  - destruct (getKnightMoves_total r k p Hr Hp) as [ms ->]. eexists; reflexivity.
  - eexists; reflexivity.
Qed.

Lemma isSquareUnderAttack_total row col c : is_Some (isSquareUnderAttack bd row col c).
Proof.
  unfold isSquareUnderAttack. cbn zeta. apply someM_total.
  intros rc Hin. apply attacksFrom_total, squares_rows, Hin.
Qed.

Lemma findKing_total c l :
  (∀ rk, rk ∈ l → isRow rk.1 = true) → is_Some (findKing bd c l).
Proof.
  induction l as [|[r k] l IH]; intros H; cbn [findKing]; [eexists; reflexivity|].
  assert (Hr : isRow r = true) by (apply (H (r, k)); left).
  unfold rd. rewrite Hr. cbn [mbind option_bind].
  destruct (isPiece (cellAt bd r k) KING c); [eexists; reflexivity|].
  apply IH. intros rk Hin. apply H. right. exact Hin.
Qed.

Lemma isInCheck_total c : is_Some (isInCheck bd c).
Proof.
  unfold isInCheck. destruct (findKing_total c squares squares_rows) as [k ->].
  cbn [mbind option_bind]. apply isSquareUnderAttack_total.
Qed.

Lemma findRooks_total rank kc c cols : ∀ ks qs,
  isRow rank = true → is_Some (findRooks bd rank kc c cols ks qs).
Proof.
  induction cols as [|i cols IH]; intros ks qs Hr; cbn [findRooks]; [eexists; reflexivity|].
  unfold rd. rewrite Hr. cbn [mbind option_bind].
  destruct (isPiece (cellAt bd rank i) ROOK c); [|apply IH, Hr].
  destruct ((kc <? i) && (ks =? -1)); [apply IH, Hr|].
  destruct (i <? kc); apply IH, Hr.
Qed.

Lemma castleSquareOk_total rank c i :
  isRow rank = true → is_Some (castleSquareOk bd rank c i).
Proof.
  intros Hr. unfold castleSquareOk, rd. rewrite Hr. cbn [mbind option_bind].
  destruct (bool_decide (cellAt bd rank i ≠ Null)); [eexists; reflexivity|].
  destruct (isSquareUnderAttack_total rank i c) as [att ->]. eexists; reflexivity.
Qed.

End Full.

Lemma castlingMoves_total g pc col :
  boardFull (board g) → is_Some (castlingMoves g pc col).
Proof.
  intros Hfull. unfold castlingMoves. pose proof (homeRank_row pc) as Hr.
  destruct (isInCheck_total _ Hfull pc) as [chk ->]. cbn [mbind option_bind].
  destruct chk; [eexists; reflexivity|]. cbn zeta.
  destruct (findRooks_total (board g) (homeRank pc) col pc (seqZ 0 8) (-1) (-1) Hr)
    as [rooks ->].
  cbn [mbind option_bind].
  assert (Hks : is_Some (canCastleKingSide g pc col rooks.1)).
  { unfold canCastleKingSide. destruct (_ && _); [|eexists; reflexivity].
    apply allM_total. intros i _. apply castleSquareOk_total; assumption. }
  assert (Hqs : is_Some (canCastleQueenSide g pc col rooks.2)).
  { unfold canCastleQueenSide. destruct (_ && _); [|eexists; reflexivity].
    apply allM_total. intros i _. apply castleSquareOk_total; assumption. }
  destruct Hks as [ks ->], Hqs as [qs ->]. eexists; reflexivity.
Qed.

Lemma getKingMoves_total g row col p :
  boardFull (board g) → isRow row = true → cellAt (board g) row col = Obj p →
  is_Some (getKingMoves g row col).
Proof.
  intros Hfull Hr Hp. unfold getKingMoves, rd. rewrite Hr, Hp. cbn [mbind option_bind].
  apply bind_total.
  - apply concatM_total. intros d _. cbn beta zeta.
    destruct (isWithinBoard (row + d.1) (col + d.2)) eqn:Hw; [|eexists; reflexivity].
    rewrite (within_row _ _ Hw). cbn [mbind option_bind].
    apply bind_total; [apply freeOrEnemy_total, Hfull, Hw|].
    intros ok. destruct ok; [|eexists; reflexivity].
    cbn [colorOf mbind option_bind].
    apply bind_total; [apply isSquareUnderAttack_total, Hfull|].
    intros att. eexists; reflexivity.
  - intros steps. cbn [colorOf mbind option_bind].
    apply bind_total; [apply castlingMoves_total, Hfull|].
    intros castles. eexists; reflexivity.
Qed.

Lemma getPawnMoves_total g row col p :
  isRow row = true → cellAt (board g) row col = Obj p → is_Some (getPawnMoves g row col).
Proof.
  intros Hr Hp. unfold getPawnMoves, rd. rewrite Hr, Hp. cbn [colorOf mbind option_bind].
  cbn zeta. apply bind_total.
  - destruct (isWithinBoard (row + direction (color p)) col) eqn:Hw; [|eexists; reflexivity].
    rewrite (within_row _ _ Hw). cbn [mbind option_bind].
    destruct (bool_decide (_ = Null)); [|eexists; reflexivity].
    destruct (row =? match color p with WHITE => 6 | BLACK => 1 end) eqn:Hstart;
      [|eexists; reflexivity].
    apply Z.eqb_eq in Hstart.
    assert (Hrow2 : isRow (row + 2 * direction (color p)) = true)
      by (unfold isRow; destruct (color p); simpl in *; lia).
    rewrite Hrow2. cbn [mbind option_bind].
    destruct (bool_decide (_ = Null)); eexists; reflexivity.
  - intros fwd. apply bind_total; [|intros caps; eexists; reflexivity].
    apply concatM_total. intros off _. cbn beta zeta.
    destruct (isWithinBoard (row + direction (color p)) (col + off)) eqn:Hw;
      [|eexists; reflexivity].
    rewrite (within_row _ _ Hw). cbn [mbind option_bind].
    destruct (cellAt (board g) (row + direction (color p)) (col + off)) as [| |t];
      try (eexists; reflexivity).
    destruct (bool_decide (color t ≠ color p)); eexists; reflexivity.
Qed.

Lemma candidateMoves_total g p row col :
  boardFull (board g) → isRow row = true → cellAt (board g) row col = Obj p →
  is_Some (candidateMoves g p row col).
Proof.
  intros Hfull Hr Hp. unfold candidateMoves. destruct (type p).
  - eapply getKingMoves_total; eassumption.
  - eapply getSlidingMoves_total; eassumption.
  - eapply getSlidingMoves_total; eassumption.
  - eapply getSlidingMoves_total; eassumption.
  - eapply getKnightMoves_total; eassumption.
  - eapply getPawnMoves_total; eassumption.
Qed.

Lemma tryMove_total ep p row col bd mv mp :
  boardFull bd → isRow row = true → cellAt bd row col = Obj mp → isRow mv.1 = true →
  is_Some (tryMove ep p row col bd mv).
Proof.
  intros Hfull Hr Hp Hto. rewrite tryMove_returned. destruct mv as [toRow toCol].
  cbn [fst] in Hto. unfold tryMoveE, returned, rd. rewrite Hto, Hr, Hp.
  match goal with |- context [isInCheck ?b ?c] =>
    assert (Hfull3 : boardFull b);
      [|destruct (isInCheck_total b Hfull3 c) as [chk ->]; eexists; reflexivity] end.
  destruct (capturedPawnPos ep mp row toRow toCol) as [[cr cc]|];
    repeat (apply boardFull_put; [|discriminate]); exact Hfull.
Qed.

Lemma filterMoves_total ep p row col mp moves : ∀ bd,
  boardFull bd → isRow row = true → cellAt bd row col = Obj mp →
  (∀ mv, mv ∈ moves → isRow mv.1 = true) →
  (∀ mv cr cc, mv ∈ moves →
     capturedPawnPos ep mp row mv.1 mv.2 = Some (cr, cc) →
     cellAt bd cr cc = Obj (mkPiece PAWN (opponent (color p)))) →
  is_Some (filterMoves ep p row col bd moves).
Proof.
  induction moves as [|m moves IH]; intros bd Hfull Hr Hp Hrows Hcap;
    cbn [filterMoves]; [eexists; reflexivity|].
  destruct (tryMove_total ep p row col bd m mp Hfull Hr Hp) as [[bd1 ok] Htry];
    [apply Hrows; left|].
  rewrite Htry. cbn [mbind option_bind fst snd].
  assert (bd1 = bd) as ->.
  { eapply tryMove_restores; [exact Htry|].
    intros mp' cr cc Hmp'. rewrite Hp in Hmp'. injection Hmp' as <-. apply Hcap. left. }
  destruct (IH bd Hfull Hr Hp) as [r ->];
    [intros mv Hin; apply Hrows; right; exact Hin
    |intros mv cr cc Hin; apply Hcap; right; exact Hin|].
  eexists; reflexivity.
Qed.

Lemma getValidMoves_total g row col :
  reachable g → boardFull (board g) → isRow row = true →
  is_Some (getValidMoves g row col).
Proof.
  intros Hreach Hfull Hr. unfold getValidMoves, rd. rewrite Hr. cbn [mbind option_bind].
  destruct (cellAt (board g) row col) as [| |p] eqn:Hp; try (eexists; reflexivity).
  case_bool_decide as Hcol; [eexists; reflexivity|].
  assert (Hcol' : color p = currentPlayer g)
    by (destruct (decide (color p = currentPlayer g)); [assumption|contradiction]).
  destruct (candidateMoves_total g p row col Hfull Hr Hp) as [moves Hc]. rewrite Hc.
  cbn [mbind option_bind].
  apply bind_total; [|intros r; eexists; reflexivity].
  apply (filterMoves_total _ _ _ _ p); [exact Hfull|exact Hr|exact Hp| |].
  - intros mv Hin.
    destruct (candidateMoves_landable g p row col moves mv (reachable_targetEmpty _ Hreach)
                Hp Hc Hin) as [[Hw _]|(_ & Hhome & _)].
    + exact (within_row _ _ Hw).
    + rewrite Hhome. apply homeRank_row.
  - intros mv cr cc Hin Hcp.
    eapply pawn_trial_sound; eauto using reachable_targetBehindPawn.
Qed.

(** X4.  In a position of a game whose board holds a piece or [null] on
    each of its 64 squares, [getValidMoves] returns for every square of
    the board and leaves the state as it found it, although its filter
    plays every candidate on the live board.  In any position of a game a
    call that returns leaves the state as it found it, so that asking
    again gives the same moves; every move it returns is a candidate of
    the piece on the square, and that piece belongs to the side to move.
    (On a board with [undefined] on a square the call can raise with the
    candidate it was trying left on the board, as it does on the pawn e2
    in [gameUndefinedF1].) *)
Theorem valid_moves_query_keeps_state g row col :
  reachable g →
  (boardFull (board g) → isWithinBoard row col = true →
     ∃ ms, getValidMoves g row col = Some (g, ms)) ∧
  (∀ g' ms, getValidMoves g row col = Some (g', ms) →
     g' = g ∧ getValidMoves g' row col = Some (g', ms) ∧
     (ms ≠ [] →
        ∃ p moves, rd (board g) row col = Some (Obj p) ∧ color p = currentPlayer g ∧
                   candidateMoves g p row col = Some moves ∧ ms ⊆ moves)).
Proof.
  intros Hreach. pose proof (reachable_targetBehindPawn _ Hreach) as Hep. split.
  - intros Hfull Hw.
    destruct (getValidMoves_total g row col Hreach Hfull (within_row _ _ Hw)) as [[g' ms] H].
    pose proof (getValidMoves_restores _ _ _ _ _ Hep H) as ->. exists ms. exact H.
  - intros g' ms H.
    pose proof (getValidMoves_restores _ _ _ _ _ Hep H) as ->.
    do 2 (split; [auto|]). intros Hne.
    destruct ms as [|mv ms]; [contradiction|].
    destruct (getValidMoves_candidates _ _ _ _ _ mv H) as (p & moves & Hp & Hcol & Hc & _);
      [left|].
    exists p, moves.
    assert (Hrow : isRow row = true).
    { unfold getValidMoves, rd in H. destruct (isRow row); [reflexivity|discriminate]. }
    split; [unfold rd; rewrite Hrow, Hp; reflexivity|]. do 2 (split; [assumption|]).
    intros mv' Hin'.
    destruct (getValidMoves_candidates _ _ _ _ _ mv' H Hin')
      as (p' & moves' & Hp' & _ & Hc' & Hin'').
    rewrite Hp in Hp'. injection Hp' as <-. rewrite Hc in Hc'. injection Hc' as <-.
    exact Hin''.
Qed.

Lemma valid_moves_query_keeps_state_witness :
  ∃ g, newGame 1 2 2 1 2 = Some g ∧ boardFull (board g) ∧
       getValidMoves g 7 1 = Some (g, [(5, 0); (5, 2)]).
Proof.
  destruct (checked (g ← newGame 1 2 2 1 2; vm ← getValidMoves g 7 1; Some (g, vm))
              (λ x, x.2.2 = [(5, 0); (5, 2)] ∧ boardFullb (board x.1) = true))
    as ([g [g' ms]] & Hrun & Hms & Hfull); [by_evaluation|].
  cbn [fst snd] in Hms, Hfull. subst ms. unpack_run Hrun.
  apply boardFullb_sound in Hfull.
  exists g. do 2 (split; [assumption|]).
  destruct (valid_moves_query_keeps_state g 7 1) as [Hret Hpure];
    [eapply newGame_reachable; eassumption|].
  destruct (Hret Hfull eq_refl) as [ms Hms].
  destruct (Hpure g' [(5, 0); (5, 2)]) as (<- & _); [assumption|].
  assumption.
Defined.

(** ** Where [undefined] comes from *)

Lemma findRookFrom_none bd rank c cols :
  findRookFrom bd rank c cols = Some None →
  ∀ i, i ∈ cols → isPiece (cellAt bd rank i) ROOK c = false.
Proof.
  induction cols as [|j cols IH]; simpl; intros H i Hi; [inversion Hi|].
  apply bind_Some in H as (x & Hx & H). apply rd_Some in Hx as [_ ->].
  destruct (isPiece (cellAt bd rank j) ROOK c) eqn:Hrook; [discriminate|].
  apply elem_of_cons in Hi as [->|Hi]; [exact Hrook|exact (IH H i Hi)].
Qed.

Lemma applyMove_castling_without_rook g p fromRow fromCol toRow toCol g1 :
  applyMove g p fromRow fromCol toRow toCol = Some g1 →
  type p = KING → Z.abs (toCol - fromCol) = 2 →
  (if fromCol <? toCol
   then findRookFrom (put (put (board g) toRow toCol (Obj p)) fromRow fromCol Null)
          (homeRank (color p)) (color p) (seqZ (fromCol + 1) (8 - (fromCol + 1)))
   else findRookFrom (put (put (board g) toRow toCol (Obj p)) fromRow fromCol Null)
          (homeRank (color p)) (color p) (reverse (seqZ 0 fromCol)))
  = Some None →
  board g1 = put (put (put (board g) toRow toCol (Obj p)) fromRow fromCol Null)
                 (homeRank (color p)) ((fromCol + toCol) / 2) Undefined.
Proof.
  unfold applyMove. intros H Hty Habs Hnone.
  apply bind_Some in H as (cp & _ & H).
  apply bind_Some in H as (bd1 & Hbd1 & H). apply wr_Some in Hbd1 as [_ ->].
  apply bind_Some in H as (bd2 & Hbd2 & H). apply wr_Some in Hbd2 as [_ ->].
  apply bind_Some in H as (sp & Hsp & H).
  destruct sp as [[[[bd4 ep] clock] enP] promo].
  apply bind_Some in H as (ca & Hca & H). destruct ca as [[bd5 cast] cr1].
  apply bind_Some in H as (cr2 & _ & H). injection H as <-. cbn [board].
  rewrite bool_decide_eq_false_2 in Hsp by congruence. injection Hsp as <- _ _ _ _.
  rewrite bool_decide_eq_true_2 in Hca by assumption.
  apply bind_Some in Hca as ([bdc e] & Hc & Hca). injection Hca as <- _ _. cbn [fst].
  unfold castleRook in Hc. cbn zeta in Hc.
  rewrite (proj2 (Z.eqb_eq _ _) Habs) in Hc.
  apply bind_Some in Hc as (rookFromCol & Hfind & Hc).
  rewrite Hnone in Hfind. injection Hfind as <-.
  apply bind_Some in Hc as (rook & Hrook & Hc). injection Hrook as <-.
  apply bind_Some in Hc as (b1 & Hb1 & Hc). apply wr_Some in Hb1 as [_ ->].
  apply bind_Some in Hc as (b2 & Hb2 & Hc). injection Hb2 as <-.
  injection Hc as <- _. f_equal.
  destruct (fromCol <? toCol) eqn:Hlt;
    [apply Z.ltb_lt in Hlt; replace (fromCol + toCol) with ((fromCol + 1) * 2) by lia
    |apply Z.ltb_ge in Hlt; replace (fromCol + toCol) with ((fromCol - 1) * 2) by lia];
    rewrite Z.div_mul by lia; reflexivity.
Qed.

Lemma movedBoard_full ep p bd fromRow fromCol toRow toCol :
  boardFull bd → boardFull (movedBoard ep p bd fromRow fromCol toRow toCol).
Proof.
  intros Hfull. unfold movedBoard, trialBoard. cbn zeta.
  assert (H3 : boardFull (match capturedPawnPos ep p fromRow toRow toCol with
                          | Some (cr, cc) =>
                              put (put (put bd toRow toCol (Obj p)) fromRow fromCol Null) cr cc Null
                          | None => put (put bd toRow toCol (Obj p)) fromRow fromCol Null
                          end)).
  { destruct (capturedPawnPos ep p fromRow toRow toCol) as [[cr cc]|];
      repeat apply boardFull_put; try exact Hfull; discriminate. }
  destruct (promotes p toRow); [apply boardFull_put; [exact H3|discriminate]|exact H3].
Qed.

Lemma start_boardFull i1 i2 i3 i4 i5 g :
  newGame i1 i2 i3 i4 i5 = Some g → boardFull (board g).
Proof.
  intros H. apply boardFullb_sound.
  assert (Hc : forallb (λ d : nat * nat * nat * nat * nat,
                  let '(i1, i2, i3, i4, i5) := d in
                  match initializeChess960 i1 i2 i3 i4 i5 with
                  | Some r => boardFullb (board r.1)
                  | None => true
                  end) allDraws = true) by by_evaluation.
  rewrite forallb_forall in Hc.
  unfold newGame in H. apply fmap_Some in H as ([g0 fen] & H & ->). cbn [fst].
  assert (Hin : (i1, i2, i3, i4, i5) ∈ allDraws).
  { unfold initializeChess960 in H. apply bind_Some in H as (br & Hbr & _).
    eapply generate_in_range, Hbr. }
  apply list_elem_of_In in Hin. specialize (Hc _ Hin). cbn in Hc. rewrite H in Hc. exact Hc.
Qed.

(** X27.  Where [undefined] comes from.  The board of a start position
    holds a piece or [null] on each of its 64 squares.  A successful move
    of a game keeps such a board so, with one exception: a king's move over
    two columns for which the castling block finds no rook of the king's
    colour on the side the king went, on the board on which the king has
    moved.  Then the square of the king's home row between the column the
    king left and the column it reached holds [undefined]. *)
Theorem undefined_only_from_castling :
  (∀ i1 i2 i3 i4 i5 g, newGame i1 i2 i3 i4 i5 = Some g → boardFull (board g)) ∧
  (∀ g fromRow fromCol toRow toCol g',
     reachable g → boardFull (board g) →
     makeMove g fromRow fromCol toRow toCol = Some (g', true) →
     boardFull (board g') ∨
     ∃ p, rd (board g) fromRow fromCol = Some (Obj p) ∧ type p = KING ∧
          Z.abs (toCol - fromCol) = 2 ∧
          (∀ i, (if fromCol <? toCol then fromCol < i < 8 else 0 ≤ i < fromCol) →
                isPiece (cellAt (put (put (board g) toRow toCol (Obj p)) fromRow fromCol Null)
                                (homeRank (color p)) i) ROOK (color p) = false) ∧
          cellAt (board g') (homeRank (color p)) ((fromCol + toCol) / 2) = Undefined).
Proof.
  split; [exact start_boardFull|].
  intros g fromRow fromCol toRow toCol g' Hreach Hfull H.
  destruct (makeMove_from_here _ _ _ _ _ _ Hreach H)
    as (p & ms & g1 & Hp & Hcol & Hvm & Hin & Happ & Hsame).
  apply forget_fields in Hsame as (-> & _).
  destruct (decide (type p = KING ∧ Z.abs (toCol - fromCol) = 2)) as [[Hty Habs]|Hno].
  - destruct (applyMove_castling _ _ _ _ _ _ _ Happ Hty Habs) as (rookFromCol & Hfind & Hboard).
    destruct rookFromCol as [rc|].
    + left. rewrite (Hboard rc eq_refl).
      assert (Hrook : isPiece (cellAt (put (put (board g) toRow toCol (Obj p)) fromRow fromCol Null)
                                 (homeRank (color p)) rc) ROOK (color p) = true)
        by (destruct (fromCol <? toCol); eapply findRookFrom_rook, Hfind).
      apply boardFull_put; [|discriminate]. apply boardFull_put.
      * repeat apply boardFull_put; try exact Hfull; discriminate.
      * intros Hu. rewrite Hu in Hrook. discriminate.
    + right. exists p. do 3 (split; [assumption|]). split.
      * intros i Hi. destruct (fromCol <? toCol);
          eapply findRookFrom_none; try exact Hfind.
        -- apply elem_of_seqZ. lia.
        -- apply elem_of_reverse, elem_of_seqZ. lia.
      * rewrite (applyMove_castling_without_rook _ _ _ _ _ _ _ Happ Hty Habs Hfind).
        rewrite cellAt_put. destruct (decide _) as [_|Hne]; [reflexivity|contradiction].
  - left. rewrite (applyMove_movedBoard _ _ _ _ _ _ _ Happ Hno). apply movedBoard_full, Hfull.
Qed.

Lemma undefined_only_from_castling_witness :
  ∃ g g', (g0 ← newGame 0 0 5 1 2;
           play g0 [(7, 5, 5, 6); (1, 1, 2, 1); (5, 6, 3, 5); (0, 0, 1, 1)]) = Some g ∧
          boardFull (board g) ∧
          makeMove g 7 4 7 6 = Some (g', true) ∧
          cellAt (board g') 7 5 = Undefined.
Proof.
  destruct (checked (g ← (g0 ← newGame 0 0 5 1 2;
                          play g0 [(7, 5, 5, 6); (1, 1, 2, 1); (5, 6, 3, 5); (0, 0, 1, 1)]);
                     r ← makeMove g 7 4 7 6; Some (g, r))
              (λ x, x.2.2 = true ∧ boardFullb (board x.1) = true ∧
                    rd (board x.1) 7 4 = Some (Obj (mkPiece KING WHITE)) ∧
                    boardFullb (board x.2.1) = false))
    as ([g [g' res]] & Hrun & Hres & Hfull & Hking & Hnot); [by_evaluation|].
  cbn [fst snd] in Hres, Hfull, Hking, Hnot. subst res.
  apply bind_Some in Hrun as (g0 & Hgame & Hrun).
  apply bind_Some in Hrun as (r & Hmove & Hrun). injection Hrun as -> ->.
  apply boardFullb_sound in Hfull.
  exists g, g'. do 3 (split; [assumption|]).
  destruct undefined_only_from_castling as [_ Hstep].
  destruct (Hstep g 7 4 7 6 g') as [Hfull'|(p & Hp & _ & _ & _ & Hu)];
    [eapply game_reachable; exact Hgame|exact Hfull|exact Hmove| |].
  - exfalso. 
    assert (boardFullb (board g') = true) as Hb; [|congruence].
    unfold boardFullb. apply forallb_forall. intros [r k] Hrk.
    apply list_elem_of_In, elem_of_squares in Hrk. cbn [fst snd].
    apply negb_true_iff, bool_decide_eq_false_2, Hfull', Hrk.
  - rewrite Hking in Hp. injection Hp as <-. exact Hu.
Defined.
